(** * Kansas workers' compensation PDF processor: section and chunk pipeline

    A shallow embedding of [config.py], [section_processing.py],
    [chunking.py], [metadata_extraction.py], [utils.py] and
    [processors.py], with the properties of the pipeline proved on it.

    Text is a list of 8-bit characters: a Python [str] whose code points
    lie in the Latin-1 range.  The character classes below are the ones
    Python uses on that range ([str.isspace], [str.isupper] and the [re]
    classes of a [str] pattern). *)

From Stdlib Require Import ZArith Ascii String List Lia Bool Arith.
From Stdlib Require Import Sorting.Sorted Sorting.Permutation.
From stdpp Require Import gmap strings.
Import ListNotations.

Local Open Scope nat_scope.
Local Open Scope list_scope.

(** ** Characters and text *)

Abbreviation text := (list ascii).

Definition str (s : string) : text := list_ascii_of_string s.

Definition in_range (lo hi : nat) (c : ascii) : bool :=
  (lo <=? nat_of_ascii c) && (nat_of_ascii c <=? hi).

Definition is_code (n : nat) (c : ascii) : bool := nat_of_ascii c =? n.

Definition nl : ascii := ascii_of_nat 10.
Definition sp : ascii := ascii_of_nat 32.

Definition is_nl (c : ascii) : bool := is_code 10 c.

(** [str.isspace] on one character; also the class [\s] and the
    separator set of [str.split()] and [str.strip()]. *)
Definition py_isspace (c : ascii) : bool :=
  in_range 9 13 c || in_range 28 32 c || is_code 133 c || is_code 160 c.

(** Upper-case and lower-case letters ([str.isupper], [str.islower]). *)
Definition py_upper (c : ascii) : bool :=
  in_range 65 90 c || in_range 192 214 c || in_range 216 222 c.

Definition py_lower (c : ascii) : bool :=
  in_range 97 122 c || is_code 170 c || is_code 181 c || is_code 186 c
  || in_range 223 246 c || in_range 248 255 c.

(** The class [\d] and the range [[A-Z]]. *)
Definition py_digit (c : ascii) : bool := in_range 48 57 c.
Definition az_upper (c : ascii) : bool := in_range 65 90 c.

(** The class [\w]: alphanumeric characters and the underscore. *)
Definition py_word (c : ascii) : bool :=
  py_digit c || py_upper c || py_lower c || is_code 95 c
  || is_code 178 c || is_code 179 c || is_code 185 c || in_range 188 190 c.

(** [s.isupper()]: no lower-case character and at least one upper-case one. *)
Definition isupper (s : text) : bool :=
  forallb (fun c => negb (py_lower c)) s && existsb py_upper s.

(** [c in s] for a one-character [c]. *)
Definition contains (c : ascii) (s : text) : bool :=
  existsb (Ascii.eqb c) s.

Fixpoint lstrip (s : text) : text :=
  match s with
  | c :: s' => if py_isspace c then lstrip s' else s
  | [] => []
  end.

Definition rstrip (s : text) : text := rev (lstrip (rev s)).

(** [s.strip()] *)
Definition strip (s : text) : text := rstrip (lstrip s).

(** [s[i:j]] for [0 <= i] and [0 <= j]. *)
Definition slice (s : text) (i j : nat) : text := firstn (j - i) (skipn i s).

(** [sep.join(parts)] *)
Fixpoint join (sep : text) (parts : list text) : text :=
  match parts with
  | [] => []
  | [p] => p
  | p :: rest => p ++ sep ++ join sep rest
  end.

(** [s.split(c)] for a one-character separator: never empty. *)
Fixpoint split_on (c : ascii) (s : text) : list text :=
  match s with
  | [] => [[]]
  | x :: s' =>
      if Ascii.eqb x c then [] :: split_on c s'
      else match split_on c s' with
           | p :: ps => (x :: p) :: ps
           | [] => [[x]]
           end
  end.

(** [s.split()]: the maximal runs of non-whitespace characters.
    [words_in w s] scans [s] with the current word [w] (reversed). *)
Fixpoint words_in (w : text) (s : text) : list text :=
  match s with
  | [] => match w with [] => [] | _ => [rev w] end
  | c :: s' =>
      if py_isspace c
      then match w with [] => words_in [] s' | _ => rev w :: words_in [] s' end
      else words_in (c :: w) s'
  end.

Definition py_split (s : text) : list text := words_in [] s.

(** ** Regular expressions

    The fragment of Python's [re] syntax that [config.py] and the modules
    use, with the matching order of a backtracking engine: alternatives
    left to right, repetitions greedy.  Every repetition in the
    configured patterns is over a character class. *)

Inductive regex : Type :=
| REps                                   (* the empty pattern *)
| RChar (c : ascii)                      (* a literal character *)
| RSet (p : ascii -> bool)               (* a character class *)
| RSeq (r1 r2 : regex)                   (* r1 r2 *)
| RAlt (r1 r2 : regex)                   (* r1|r2 *)
| RRep (p : ascii -> bool) (min : nat)   (* greedy class repetition, at least min *)
| RGroup (n : nat) (r : regex)           (* capture group n *)
| RWordB                                 (* \b *)
| RBol                                   (* ^ *)
| REol.                                  (* $ *)

Definition ROpt (r : regex) : regex := RAlt r REps.        (* r? *)
Definition RStar (p : ascii -> bool) : regex := RRep p 0.  (* class* *)
Definition RPlus (p : ascii -> bool) : regex := RRep p 1.  (* class+ *)

Fixpoint RLit (s : text) : regex :=
  match s with
  | [] => REps
  | [c] => RChar c
  | c :: s' => RSeq (RChar c) (RLit s')
  end.

Fixpoint RCat (rs : list regex) : regex :=
  match rs with
  | [] => REps
  | [r] => r
  | r :: rs' => RSeq r (RCat rs')
  end.

(** The matcher's position in the subject: offset, character before it,
    characters from it on, and the groups captured so far. *)
Record cursor : Type := Cursor {
  c_pos : nat;
  c_prev : option ascii;
  c_rest : text;
  c_groups : list (nat * text)
}.

Definition step (x : ascii) (xs : text) (s : cursor) : cursor :=
  Cursor (S (c_pos s)) (Some x) xs (c_groups s).

Definition set_group (n : nat) (g : text) (s : cursor) : cursor :=
  Cursor (c_pos s) (c_prev s) (c_rest s) ((n, g) :: c_groups s).

Definition word_before (s : cursor) : bool :=
  match c_prev s with Some c => py_word c | None => false end.

Definition word_after (s : cursor) : bool :=
  match c_rest s with c :: _ => py_word c | [] => false end.

(** Greedy repetition of a class: take as many characters as possible,
    then give them back one by one until the continuation succeeds. *)
Fixpoint rep {A : Type} (p : ascii -> bool) (min : nat) (l : text)
    (s : cursor) (k : cursor -> option A) : option A :=
  match l with
  | x :: l' =>
      if p x then
        match rep p (pred min) l' (step x l' s) k with
        | Some a => Some a
        | None => if min =? 0 then k s else None
        end
      else if min =? 0 then k s else None
  | [] => if min =? 0 then k s else None
  end.

Fixpoint rmatch {A : Type} (r : regex) (s : cursor)
    (k : cursor -> option A) : option A :=
  match r with
  | REps => k s
  | RChar c =>
      match c_rest s with
      | x :: xs => if Ascii.eqb x c then k (step x xs s) else None
      | [] => None
      end
  | RSet p =>
      match c_rest s with
      | x :: xs => if p x then k (step x xs s) else None
      | [] => None
      end
  | RSeq r1 r2 => rmatch r1 s (fun s1 => rmatch r2 s1 k)
  | RAlt r1 r2 =>
      match rmatch r1 s k with
      | Some a => Some a
      | None => rmatch r2 s k
      end
  | RRep p min => rep p min (c_rest s) s k
  | RGroup n r1 =>
      rmatch r1 s
        (fun s1 => k (set_group n (firstn (c_pos s1 - c_pos s) (c_rest s)) s1))
  | RWordB => if xorb (word_before s) (word_after s) then k s else None
  | RBol => match c_prev s with None => k s | Some _ => None end
  | REol =>
      match c_rest s with
      | [] => k s
      | [x] => if is_nl x then k s else None
      | _ => None
      end
  end.

(** A match object: [m.start()], [m.group(0)] and the numbered groups. *)
Record match_obj : Type := Match {
  m_start : nat;
  m_text : text;
  m_groups : list (nat * text)
}.

Definition match_at (r : regex) (pos : nat) (prev : option ascii) (l : text)
    : option match_obj :=
  match rmatch r (Cursor pos prev l []) Some with
  | Some e => Some (Match pos (firstn (c_pos e - pos) l) (c_groups e))
  | None => None
  end.

(** [m.group(n)] for a group that took part in the match. *)
Fixpoint group (n : nat) (gs : list (nat * text)) : option text :=
  match gs with
  | [] => None
  | (i, g) :: gs' => if i =? n then Some g else group n gs'
  end.

(** [re.search]: the leftmost position at which the pattern matches. *)
Fixpoint search_from (r : regex) (pos : nat) (prev : option ascii) (l : text)
    : option match_obj :=
  match match_at r pos prev l with
  | Some m => Some m
  | None =>
      match l with
      | [] => None
      | x :: l' => search_from r (S pos) (Some x) l'
      end
  end.

Definition re_search (r : regex) (s : text) : option match_obj :=
  search_from r 0 None s.

(** One left-to-right pass over the subject, as [re.finditer], [re.sub]
    and [re.split] make it: the non-overlapping matches in order, and
    between them the characters no match covers.  [skip] counts the
    characters still inside the last match. *)
Inductive token : Type :=
| TChar (c : ascii)
| TMatch (m : match_obj).

Fixpoint scan (r : regex) (pos : nat) (prev : option ascii) (skip : nat)
    (l : text) : list token :=
  match skip with
  | S j =>
      match l with
      | [] => []
      | x :: l' => scan r (S pos) (Some x) j l'
      end
  | 0 =>
      match match_at r pos prev l with
      | Some m =>
          TMatch m ::
          match l with
          | [] => []
          | x :: l' =>
              match length (m_text m) with
              | 0 => TChar x :: scan r (S pos) (Some x) 0 l'
              | S j => scan r (S pos) (Some x) j l'
              end
          end
      | None =>
          match l with
          | [] => []
          | x :: l' => TChar x :: scan r (S pos) (Some x) 0 l'
          end
      end
  end.

Definition tokens (r : regex) (s : text) : list token := scan r 0 None 0 s.

(** [re.finditer(r, s)] *)
Definition re_finditer (r : regex) (s : text) : list match_obj :=
  flat_map (fun t => match t with TMatch m => [m] | TChar _ => [] end)
           (tokens r s).

(** [re.sub(r, repl, s)], the replacement given as a function of the groups. *)
Definition re_sub (r : regex) (repl : list (nat * text) -> text) (s : text)
    : text :=
  flat_map (fun t => match t with
                     | TMatch m => repl (m_groups m)
                     | TChar c => [c]
                     end)
           (tokens r s).

(** [re.split(r, s)] for a pattern without groups. *)
Definition push (c : ascii) (ps : list text) : list text :=
  match ps with
  | p :: ps' => (c :: p) :: ps'
  | [] => [[c]]
  end.

Fixpoint pieces (ts : list token) : list text :=
  match ts with
  | [] => [[]]
  | TChar c :: ts' => push c (pieces ts')
  | TMatch _ :: ts' => [] :: pieces ts'
  end.

Definition re_split (r : regex) (s : text) : list text := pieces (tokens r s).

(** ** config.py *)

Definition MAX_CHUNK_SIZE : Z := 800.
Definition DEFAULT_WORKERS : nat := 4.

Definition heading (s : string) : regex := RCat [RWordB; RLit (str s); RWordB].

Definition SECTION_PATTERNS : list regex := [
  heading "APPEARANCES";
  heading "RECORD AND STIPULATIONS";
  heading "ISSUES";
  heading "FINDINGS OF FACT";
  RCat [RWordB; RLit (str "PRINCIPLES OF LAW");
        ROpt (RGroup 1 (RLit (str " AND ANALYSIS"))); RWordB];
  heading "ANALYSIS";
  RCat [RWordB; RLit (str "CONCLUSION"); ROpt (RGroup 1 (RLit (str "S"))); RWordB];
  heading "AWARD";
  heading "ORDER";
  heading "DECISION"
].

Definition is_dot (c : ascii) : bool := is_code 46 c.

(** [[A-Z\s\.]] and [[A-Z\s]] *)
Definition name_char (c : ascii) : bool := az_upper c || py_isspace c || is_dot c.
Definition upper_or_space (c : ascii) : bool := az_upper c || py_isspace c.

(** [[\d,\.\-]] *)
Definition docket_char (c : ascii) : bool :=
  py_digit c || is_code 44 c || is_dot c || is_code 45 c.

(** [([A-Z][A-Z\s\.]+)] *)
Definition NAME : regex := RGroup 1 (RSeq (RSet az_upper) (RPlus name_char)).

Definition ws1 : regex := RPlus py_isspace.   (* \s+ *)
Definition ws0 : regex := RStar py_isspace.   (* \s* *)
Definition lit (s : string) : regex := RLit (str s).

Definition CLAIMANT_PATTERNS : list regex := [
  RCat [NAME; ws1; lit ")"; ws0; RChar nl; ws0; lit "Claimant"];
  RCat [NAME; ws1; RPlus py_digit; ws1; lit "DOCKET"; ws1; lit "NO."];
  RCat [NAME; ws1; lit "vs."; ws1];
  RCat [NAME; ws1; lit "VS."; ws1];
  RCat [lit "BEFORE"; ws1; lit "THE"; ws1; RPlus upper_or_space; ws1;
        lit "APPEALS"; ws1; lit "BOARD"; ws1; NAME]
].

Definition DOCKET_PATTERNS : list regex := [
  RCat [lit "Docket"; ws1; lit "No."; ws1; RGroup 1 (RPlus docket_char)];
  RCat [lit "DOCKET"; ws1; lit "NO."; ws1; RGroup 1 (RPlus docket_char)];
  RGroup 1 (RCat [lit "AP-"; RPlus py_digit; lit "-"; RPlus py_digit;
                  lit "-"; RPlus py_digit]);
  RGroup 1 (RCat [lit "CS-"; RPlus py_digit; lit "-"; RPlus py_digit;
                  lit "-"; RPlus py_digit]);
  RCat [RAlt RBol (RSet py_isspace);
        RGroup 1 (RCat [RSet py_digit; RSet py_digit; RSet py_digit; lit ",";
                        RSet py_digit; RSet py_digit; RSet py_digit]);
        RAlt REol (RSet py_isspace)]
].

Definition RESPONDENT_PATTERNS : list regex := [
  RCat [lit "VS."; ws0; lit ")"; ws0; RChar nl; ws0; lit ")"; ws0; RChar nl;
        ws0; NAME];
  RCat [lit "VS."; ws0; lit ")"; ws0; RChar nl; ws0; NAME];
  RCat [lit "vs."; ws1; NAME];
  RCat [lit "RESPONDENT:"; ws1; NAME]
].

Definition PDF_EXTENSION : text := str ".pdf".

(** ** metadata_extraction.py *)

Definition Unknown : text := str "Unknown".

(** [match.group(1)]: every configured pattern has its group 1 outside
    any optional part, so a match always carries it. *)
Definition group1 (m : match_obj) : text :=
  match group 1 (m_groups m) with
  | Some g => g
  | None => []
  end.

(** The validation of a candidate name: [' ' in name and name.isupper()]. *)
Definition valid_name (name : text) : bool := contains sp name && isupper name.

(** The loop over the patterns of a name field.  It returns the number
    of patterns it called [re.search] with, and the accepted name if it
    left the loop through [break]. *)
Fixpoint name_loop (patterns : list regex) (s : text) (tried : nat)
    : nat * option text :=
  match patterns with
  | [] => (tried, None)
  | pattern :: rest =>
      match re_search pattern s with
      | Some m =>
          let name := strip (group1 m) in
          if valid_name name then (S tried, Some name)
          else name_loop rest s (S tried)
      | None => name_loop rest s (S tried)
      end
  end.

(** The loop over the docket patterns: the first match is taken. *)
Fixpoint docket_loop (patterns : list regex) (s : text) : option text :=
  match patterns with
  | [] => None
  | pattern :: rest =>
      match re_search pattern s with
      | Some m => Some (strip (group1 m))
      | None => docket_loop rest s
      end
  end.

Definition set_found (key : string) (found : option text)
    (d : gmap string text) : gmap string text :=
  match found with
  | Some v => <[key := v]> d
  | None => d
  end.

Definition extract_case_info (s : text) : gmap string text :=
  let case_info : gmap string text :=
    <["claimant_name" := Unknown]>
      (<["docket_number" := Unknown]>
        (<["respondent_name" := Unknown]> ∅)) in
  let case_info :=
    set_found "claimant_name" (snd (name_loop CLAIMANT_PATTERNS s 0)) case_info in
  let case_info :=
    set_found "docket_number" (docket_loop DOCKET_PATTERNS s) case_info in
  set_found "respondent_name" (snd (name_loop RESPONDENT_PATTERNS s 0)) case_info.

Definition extract_enhanced_case_info (pages : list text) : gmap string text :=
  let full_text :=
    if 3 <=? length pages then join [nl] (firstn 3 pages) else join [nl] pages in
  extract_case_info full_text.

(** ** section_processing.py *)

(** [list.sort(key=lambda x: x[0])]: a stable sort on the offset. *)
Fixpoint insert_by_pos (x : nat * text) (l : list (nat * text))
    : list (nat * text) :=
  match l with
  | [] => [x]
  | y :: l' => if fst x <=? fst y then x :: y :: l' else y :: insert_by_pos x l'
  end.

Fixpoint sort_by_pos (l : list (nat * text)) : list (nat * text) :=
  match l with
  | [] => []
  | x :: l' => insert_by_pos x (sort_by_pos l')
  end.

(** The inner loop of [identify_sections] that finds the page of an
    offset; [i] is the index of the first page of [pages]. *)
Fixpoint find_page (pages : list text) (start_pos current_pos i : nat) : nat :=
  match pages with
  | [] => 0
  | page :: rest =>
      if (current_pos <=? start_pos) && (start_pos <? current_pos + length page)
      then i
      else find_page rest start_pos (current_pos + length page + 1) (S i)
  end.

(** A section: name, text, page number, start offset. *)
Definition section : Type := text * text * nat * nat.

Definition sec_name (s : section) : text := fst (fst (fst s)).
Definition sec_text (s : section) : text := snd (fst (fst s)).
Definition sec_page (s : section) : nat := snd (fst s).
Definition sec_start (s : section) : nat := snd s.

Definition find_positions (combined_text : text) : list (nat * text) :=
  flat_map (fun pattern =>
              map (fun m => (m_start m, m_text m))
                  (re_finditer pattern combined_text))
           SECTION_PATTERNS.

Definition identify_sections (pages : list text) : list section :=
  let combined_text := join [nl] pages in
  let section_positions := sort_by_pos (find_positions combined_text) in
  imap (fun i '(pos, section_name) =>
          let start_pos := pos in
          let end_pos :=
            if i <? length section_positions - 1
            then match section_positions !! (i + 1) with
                 | Some next => fst next
                 | None => length combined_text
                 end
            else length combined_text in
          let section_text := strip (slice combined_text start_pos end_pos) in
          let page_num := find_page pages start_pos 0 0 in
          (section_name, section_text, page_num, start_pos))
       section_positions.

(** [r'\s+'] and [r'(\w)- (\w)'] *)
Definition WS_RUN : regex := RPlus py_isspace.
Definition HYPHEN_BREAK : regex :=
  RCat [RGroup 1 (RSet py_word); RChar "-"; RChar " "; RGroup 2 (RSet py_word)].

(** The replacement [r'\1\2'] *)
Definition groups_1_2 (gs : list (nat * text)) : text :=
  match group 1 gs, group 2 gs with
  | Some a, Some b => a ++ b
  | Some a, None => a
  | None, Some b => b
  | None, None => []
  end.

Definition clean_section_text (section_text : text) : text :=
  let lines := split_on nl section_text in
  let section_text :=
    match lines with
    | first :: rest => if isupper first then join [nl] rest else section_text
    | [] => section_text
    end in
  let section_text := re_sub WS_RUN (fun _ => [sp]) section_text in
  let section_text := re_sub HYPHEN_BREAK groups_1_2 section_text in
  strip section_text.

(** ** Exceptions

    A call either returns a value or raises an instance of Python's
    [Exception]; [inl] is the raised exception. *)

Inductive exn : Type :=
| IOError (msg : text)
| KeyError (key : string)
| OtherError (msg : text).

Definition M (A : Type) : Type := exn + A.

Definition ret {A : Type} (a : A) : M A := inr a.
Definition raise {A : Type} (e : exn) : M A := inl e.

Definition bind {A B : Type} (c : M A) (k : A -> M B) : M B :=
  match c with
  | inl e => inl e
  | inr a => k a
  end.

(** [try: c  except Exception as e: handler e] *)
Definition try_except {A : Type} (c : M A) (handler : exn -> M A) : M A :=
  match c with
  | inl e => handler e
  | inr a => inr a
  end.

Declare Scope exn_scope.
Delimit Scope exn_scope with exn.
Notation "x <- c ;; k" := (bind c (fun x => k))
  (at level 100, c at next level, right associativity) : exn_scope.
Local Open Scope exn_scope.

(** [str(e)] *)
Definition exn_str (e : exn) : text :=
  match e with
  | IOError msg => msg
  | KeyError key => str "'" ++ str key ++ str "'"
  | OtherError msg => msg
  end.

(** [d[key]] on a dict *)
Definition getitem {V : Type} (d : gmap string V) (key : string) : M V :=
  match d !! key with
  | Some v => ret v
  | None => raise (KeyError key)
  end.

(** ** chunking.py *)

(** [r'\n\s*\n'] *)
Definition PARA_SEP : regex := RCat [RChar nl; RStar py_isspace; RChar nl].

Definition blank_line : text := [nl; nl].

Record chunker : Type := Chunker {
  chunks : list text;
  current_chunk : list text;
  current_size : Z
}.

Definition is_nil {A : Type} (l : list A) : bool :=
  match l with [] => true | _ => false end.

(** One iteration of the loop over the paragraphs. *)
Definition add_paragraph (max_tokens : Z) (st : chunker) (para : text)
    : chunker :=
  let para_size := Z.of_nat (length (py_split para)) in
  if (max_tokens <? current_size st + para_size)%Z
     && negb (is_nil (current_chunk st))
  then Chunker (chunks st ++ [join blank_line (current_chunk st)])
               [para] para_size
  else Chunker (chunks st) (current_chunk st ++ [para])
               (current_size st + para_size)%Z.

Definition create_logical_chunks (s : text) (max_tokens : Z) : list text :=
  let paragraphs := re_split PARA_SEP s in
  let st := fold_left (add_paragraph max_tokens) paragraphs (Chunker [] [] 0%Z) in
  if negb (is_nil (current_chunk st))
  then chunks st ++ [join blank_line (current_chunk st)]
  else chunks st.

(** The values of a chunk's metadata dict. *)
Inductive value : Type :=
| VStr (s : text)
| VInt (n : Z).

Record chunk : Type := Chunk {
  chunk_text : text;
  chunk_metadata : gmap string value
}.

Definition format_chunk (docket claimant section_name chunk_body : text) : text :=
  str "Case: " ++ docket ++ str " | " ++ str "Claimant: " ++ claimant ++ [nl]
  ++ str "Section: " ++ section_name ++ blank_line ++ chunk_body.

(** The body of the loop of [create_chunks_with_metadata]. *)
Definition make_chunk (section_name : text) (metadata : gmap string text)
    (count : nat) (i : nat) (chunk_body : text) : M chunk :=
  docket <- getitem metadata "docket_number" ;;
  claimant <- getitem metadata "claimant_name" ;;
  let formatted_text := format_chunk docket claimant section_name chunk_body in
  let md : gmap string value :=
    <["filename" := VStr (default (str "unknown") (metadata !! "filename"))]>
      (<["chunk_count" := VInt (Z.of_nat count)]>
        (<["chunk_index" := VInt (Z.of_nat i)]>
          (<["section" := VStr section_name]>
            (<["claimant_name" := VStr claimant]>
              (<["docket_number" := VStr docket]> ∅))))) in
  let md :=
    match metadata !! "respondent_name" with
    | Some r =>
        if bool_decide (r <> Unknown)
        then <["respondent_name" := VStr r]> md
        else md
    | None => md
    end in
  ret (Chunk formatted_text md).

Fixpoint for_each {A B : Type} (f : nat -> A -> M B) (i : nat) (l : list A)
    : M (list B) :=
  match l with
  | [] => ret []
  | a :: l' =>
      b <- f i a ;;
      bs <- for_each f (S i) l' ;;
      ret (b :: bs)
  end.

Definition create_chunks_with_metadata (section_name section_text : text)
    (metadata : gmap string text) (max_tokens : Z) : M (list chunk) :=
  let chunks := create_logical_chunks section_text max_tokens in
  for_each (make_chunk section_name metadata (length chunks)) 0 chunks.

(** ** utils.py *)

Definition slash : ascii := ascii_of_nat 47.

(** [os.path.basename] and [os.path.join] of [posixpath]. *)
Definition basename (path : text) : text := List.last (split_on slash path) [].

Definition path_join (directory filename : text) : text :=
  match filename with
  | c :: _ =>
      if Ascii.eqb c slash then filename
      else match directory with
           | [] => filename
           | _ => if Ascii.eqb (List.last directory sp) slash
                  then directory ++ filename
                  else directory ++ [slash] ++ filename
           end
  | [] =>
      match directory with
      | [] => []
      | _ => if Ascii.eqb (List.last directory sp) slash
             then directory
             else directory ++ [slash]
      end
  end.

(** [str.lower] and [str.endswith] *)
Definition lower_char (c : ascii) : ascii :=
  if py_upper c then ascii_of_nat (nat_of_ascii c + 32) else c.

Definition lower (s : text) : text := map lower_char s.

Fixpoint starts_with (prefix s : text) : bool :=
  match prefix, s with
  | [], _ => true
  | a :: prefix', b :: s' => Ascii.eqb a b && starts_with prefix' s'
  | _ :: _, [] => false
  end.

Definition ends_with (suffix s : text) : bool :=
  starts_with (rev suffix) (rev s).

(** [find_pdf_files]; [listing] is what [os.listdir(directory)] returns. *)
Definition find_pdf_files (listing : list text) (directory : text)
    (pattern : option regex) : list text :=
  flat_map (fun filename =>
              if ends_with PDF_EXTENSION (lower filename)
              then match pattern with
                   | None => [path_join directory filename]
                   | Some r =>
                       match re_search r filename with
                       | Some _ => [path_join directory filename]
                       | None => []
                       end
                   end
              else [])
           listing.

(** The output file as [get_processed_files] reads it: one entry per
    line, [Some c] for a line that [json.loads] turns into a record with
    a ["metadata"] dict [chunk_metadata c], [None] for a line on which
    [json.loads], the ["metadata"] lookup or the insertion into the set
    (an unhashable file name) raises.  A file that does not exist is
    [None]. *)
Definition jsonl : Type := list (option chunk).

(** The loop of [get_processed_files] inside its [try]: the first line
    that raises ends it, and the names collected so far are returned. *)
Fixpoint read_filenames (lines : jsonl) (processed_files : gset text)
    : gset text :=
  match lines with
  | [] => processed_files
  | None :: _ => processed_files
  | Some c :: rest =>
      match chunk_metadata c !! "filename" with
      | None => processed_files
      | Some (VStr f) => read_filenames rest ({[ f ]} ∪ processed_files)
      | Some (VInt _) => read_filenames rest processed_files
      end
  end.

Definition get_processed_files (output_file : option jsonl) : gset text :=
  match output_file with
  | Some lines => read_filenames lines ∅
  | None => ∅
  end.

Definition write_chunks_to_jsonl (chunks : list chunk)
    (output_file : option jsonl) (append : bool) : option jsonl :=
  if append
  then Some (default [] output_file ++ map Some chunks)
  else Some (map Some chunks).

(** ** processors.py *)

Inductive processing_result : Type :=
| Success (filename : text) (chunks : list chunk) (metadata : gmap string text)
| Failed (filename : text) (error : text) (details : text).

(** The test that skips a section in [process_pdf_file]. *)
Definition skipped (section_name section_text : text) : bool :=
  length (strip section_text) <=? length section_name + 5.

Section ProcessPdfFile.
(** The functions [process_pdf_file] calls, each of which may raise,
    and [traceback.format_exc()] as a function of the exception being
    handled. *)
Variable extract_text : text -> M (list text).
Variable case_info : list text -> M (gmap string text).
Variable find_sections : list text -> M (list section).
Variable clean_text : text -> M text.
Variable make_chunks : text -> text -> gmap string text -> Z -> M (list chunk).
Variable format_exc : exn -> text.

(** One iteration of the loop over the sections. *)
Definition section_chunks (metadata : gmap string text) (s : section)
    : M (list chunk) :=
  let '(section_name, section_text, page_num, _) := s in
  if skipped section_name section_text then ret []
  else
    cleaned <- clean_text section_text ;;
    make_chunks section_name cleaned metadata MAX_CHUNK_SIZE.

Fixpoint sections_loop (metadata : gmap string text) (sections : list section)
    (file_chunks : list chunk) : M (list chunk) :=
  match sections with
  | [] => ret file_chunks
  | s :: rest =>
      cs <- section_chunks metadata s ;;
      sections_loop metadata rest (file_chunks ++ cs)
  end.

(** The body of the [try] block. *)
Definition process_pdf_body (pdf_path : text) : M processing_result :=
  let filename := basename pdf_path in
  pages <- extract_text pdf_path ;;
  metadata <- case_info pages ;;
  let metadata := <["filename" := filename]> metadata in
  sections <- find_sections pages ;;
  file_chunks <- sections_loop metadata sections [] ;;
  ret (Success filename file_chunks metadata).

Definition process_pdf_file_with (pdf_path : text) : M processing_result :=
  try_except (process_pdf_body pdf_path)
    (fun e => ret (Failed (basename pdf_path) (exn_str e) (format_exc e))).
End ProcessPdfFile.

(** The files [process_directory] writes: the output file and the side
    log of error blocks. *)
Record files : Type := Files {
  output_file : option jsonl;
  log_file : list text
}.

Definition error_block (filename details : text) : text :=
  [nl] ++ str "--- Error processing " ++ filename ++ str " ---" ++ [nl]
  ++ details ++ [nl] ++ str "-----------------------" ++ [nl].

Section Processors.
(** [read_pdf] is the PyPDF2 part of [extract_text_from_pdf]: opening
    the file and extracting the text of each page. *)
Variable read_pdf : text -> M (list text).
Variable format_exc : exn -> text.

(** pdf_extraction.py *)
Definition extract_text_from_pdf (pdf_path : text) : M (list text) :=
  try_except (read_pdf pdf_path)
    (fun e => raise (IOError (str "Error extracting text from PDF "
                              ++ pdf_path ++ str ": " ++ exn_str e))).

Definition process_pdf_file : text -> M processing_result :=
  process_pdf_file_with
    extract_text_from_pdf
    (fun pages => ret (extract_enhanced_case_info pages))
    (fun pages => ret (identify_sections pages))
    (fun section_text => ret (clean_section_text section_text))
    create_chunks_with_metadata
    format_exc.

(** The files handed to the worker pool. *)
Definition files_to_process (listing : list text) (existing : option jsonl)
    (directory : text) (resume : bool) (pattern : option regex) : list text :=
  let processed_files : gset text :=
    if resume then get_processed_files existing else ∅ in
  let pdf_files := find_pdf_files listing directory pattern in
  filter (fun f => basename f ∉ processed_files) pdf_files.

Fixpoint map_M {A B : Type} (f : A -> M B) (l : list A) : M (list B) :=
  match l with
  | [] => ret []
  | a :: l' =>
      b <- f a ;;
      bs <- map_M f l' ;;
      ret (b :: bs)
  end.

Definition result_chunks (r : processing_result) : list chunk :=
  match r with
  | Success _ cs _ => cs
  | Failed _ _ _ => []
  end.

Definition result_errors (r : processing_result) : list text :=
  match r with
  | Success _ _ _ => []
  | Failed filename _ details => [error_block filename details]
  end.

(** [process_directory]: the numbers of files and chunks it returns
    and the files it leaves; the elapsed time is left out. *)
Definition process_directory (listing : list text) (fs : files)
    (directory : text) (resume : bool) (pattern : option regex)
    : M (nat * nat * files) :=
  let pdf_files :=
    files_to_process listing (output_file fs) directory resume pattern in
  if is_nil pdf_files then ret (0, 0, fs)
  else
    results <- map_M process_pdf_file pdf_files ;;
    let all_chunks := flat_map result_chunks results in
    let log := log_file fs ++ flat_map result_errors results in
    let out := write_chunks_to_jsonl all_chunks (output_file fs) resume in
    ret (length pdf_files, length all_chunks, Files out log).

End Processors.

(** * Auxiliary definitions for the proofs *)

Definition no_newline (s : text) : Prop := Forall (fun c => is_nl c = false) s.

(** ** The paragraph separator, unfolded

    What [PARA_SEP] matches, as functions of the subject: [sep_tail l]
    is the length of the longest prefix of [l] of the form [\s*\n], and
    [sep_len l] the length of the match of [\n\s*\n] at the head of [l]. *)

Fixpoint sep_tail (l : text) : option nat :=
  match l with
  | x :: l' =>
      if py_isspace x then
        match sep_tail l' with
        | Some n => Some (S n)
        | None => if is_nl x then Some 1 else None
        end
      else None
  | [] => None
  end.

Definition sep_len (l : text) : option nat :=
  match l with
  | x :: l' => if is_nl x then option_map S (sep_tail l') else None
  | [] => None
  end.

(** The continuation of [\s*] in [PARA_SEP]: the closing newline. *)
Definition closing_nl (s1 : cursor) : option cursor :=
  match c_rest s1 with
  | x :: xs => if Ascii.eqb x nl then Some (step x xs s1) else None
  | [] => None
  end.

(** The paragraphs of a text, computed from [sep_len]. *)
Fixpoint para_scan (skip : nat) (l : text) : list text :=
  match l with
  | [] => [[]]
  | x :: l' =>
      match skip with
      | S j => para_scan j l'
      | 0 =>
          match sep_len l with
          | Some n => [] :: para_scan (pred n) l'
          | None => push x (para_scan 0 l')
          end
      end
  end.


(** [lead_nl l]: [l] starts with [\s*\n]; [has_sep l]: [PARA_SEP]
    matches at the head of [l]. *)
Fixpoint lead_nl (l : text) : bool :=
  match l with
  | x :: l' =>
      if is_nl x then true else if py_isspace x then lead_nl l' else false
  | [] => false
  end.

Definition has_sep (l : text) : bool :=
  match l with
  | x :: l' => is_nl x && lead_nl l'
  | [] => false
  end.

(** No separator starts inside [p] when [p] is followed by [rest]. *)
Fixpoint clear_of_sep (p rest : text) : Prop :=
  match p with
  | [] => True
  | _ :: p' => has_sep (p ++ rest) = false /\ clear_of_sep p' rest
  end.

Definition prepend (p : text) (ps : list text) : list text :=
  match ps with
  | q :: ps' => (p ++ q) :: ps'
  | [] => [p]
  end.


(** [len(s.split())] *)
Definition word_count (s : text) : Z := Z.of_nat (length (py_split s)).

(** A group of paragraphs that may form a chunk under [max_tokens]:
    within the bound, or a single paragraph that exceeds it alone. *)
Definition chunk_ok (max_tokens : Z) (g : list text) : Prop :=
  g <> []
  /\ ((word_count (join blank_line g) <= max_tokens)%Z
      \/ exists p, g = [p] /\ (max_tokens < word_count p)%Z).


(** What the loop of [create_logical_chunks] keeps true: the finished
    chunks are the joins of the groups [G], and the chunk being built
    carries its word count and is within the bound once it holds two
    paragraphs. *)
Definition chunker_inv (max_tokens : Z) (G : list (list text)) (st : chunker)
    : Prop :=
  chunks st = map (join blank_line) G
  /\ Forall (chunk_ok max_tokens) G
  /\ current_size st = word_count (join blank_line (current_chunk st))
  /\ (2 <= length (current_chunk st) -> (current_size st <= max_tokens)%Z).


(** Where the span of section [i] ends: at the start of the next section,
    or at the end of the text for the last one. *)
Definition span_end (secs : list section) (combined_text : text) (i : nat)
    : nat :=
  match secs !! (i + 1) with
  | Some next => sec_start next
  | None => length combined_text
  end.

(** The statement that the text of the last section, placed at its start
    offset, ends exactly at the end of the joined pages. *)
Definition last_text_reaches_end (pages : list text) : Prop :=
  forall s, last (identify_sections pages) = Some s ->
            sec_start s + length (sec_text s) = length (join [nl] pages).

(** One iteration of the section loop with the functions the pipeline
    passes, and the chunks it adds to the document. *)
Definition pipeline_section_chunks (metadata : gmap string text) (s : section)
    : M (list chunk) :=
  section_chunks (fun t => ret (clean_section_text t))
                 create_chunks_with_metadata metadata s.

Definition contribution (metadata : gmap string text) (s : section)
    : list chunk :=
  match pipeline_section_chunks metadata s with
  | inr cs => cs
  | inl _ => []
  end.

(** The skip rule read with the output of [clean_section_text] as the
    cleaned body. *)
Definition skip_rule_on_cleaned_body (metadata : gmap string text)
    (s : section) : Prop :=
  contribution metadata s = []
  <-> length (clean_section_text (sec_text s)) <= length (sec_name s) + 5.


(** The candidate name a pattern yields on a text: the stripped group 1
    of its first match. *)
Definition candidate (pattern : regex) (s : text) : option text :=
  option_map (fun m => strip (group1 m)) (re_search pattern s).

(** A pattern that does not set the field: no match, or a candidate that
    fails the validation. *)
Definition rejected (s : text) (pattern : regex) : Prop :=
  match candidate pattern s with
  | Some name => valid_name name = false
  | None => True
  end.

(** What a run of [name_loop] over [patterns], started with the counter
    at [tried0], has done when it returns [(tried, found)]. *)
Definition name_loop_outcome (patterns : list regex) (s : text) (tried0 : nat)
    (r : nat * option text) : Prop :=
  match snd r with
  | Some name =>
      exists pre p post,
        patterns = pre ++ p :: post
        /\ Forall (rejected s) pre
        /\ candidate p s = Some name
        /\ valid_name name = true
        /\ fst r = tried0 + length pre + 1
  | None => Forall (rejected s) patterns /\ fst r = tried0 + length patterns
  end.


(** An exception [e] raised by one of the steps of [process_pdf_file]:
    by the extraction, by the metadata derivation, by the section
    identification, or, in the first section of the loop that raises, by
    the cleaning or the chunking. *)
Section StepRaises.
Variable extract_text : text -> M (list text).
Variable case_info : list text -> M (gmap string text).
Variable find_sections : list text -> M (list section).
Variable clean_text : text -> M text.
Variable make_chunks : text -> text -> gmap string text -> Z -> M (list chunk).

Definition section_raises (metadata : gmap string text) (s : section)
    (e : exn) : Prop :=
  skipped (sec_name s) (sec_text s) = false
  /\ (clean_text (sec_text s) = inl e
      \/ exists cleaned,
           clean_text (sec_text s) = inr cleaned
           /\ make_chunks (sec_name s) cleaned metadata MAX_CHUNK_SIZE = inl e).

Definition step_raises (pdf_path : text) (e : exn) : Prop :=
  extract_text pdf_path = inl e
  \/ exists pages,
       extract_text pdf_path = inr pages
       /\ (case_info pages = inl e
           \/ exists info,
                case_info pages = inr info
                /\ (find_sections pages = inl e
                    \/ exists before s after,
                         find_sections pages = inr (before ++ s :: after)
                         /\ Forall (fun s' =>
                                      exists cs,
                                        section_chunks clean_text make_chunks
                                          (<["filename" := basename pdf_path]> info) s'
                                        = inr cs) before
                         /\ section_raises
                              (<["filename" := basename pdf_path]> info) s e)).
End StepRaises.


(** A line of the output file that [get_processed_files] reads without
    an exception: a record whose metadata has a ["filename"]. *)
Definition readable (line : option chunk) : Prop :=
  exists c, line = Some c /\ is_Some (chunk_metadata c !! "filename").

(** The statement that a resumed run leaves out every file named by some
    record of the existing output file. *)
Definition resume_skips_recorded (listing : list text) (existing : jsonl)
    (directory : text) (pattern : option regex) : Prop :=
  forall path c,
    In (Some c) existing ->
    chunk_metadata c !! "filename" = Some (VStr (basename path)) ->
    ~ In path (files_to_process listing (Some existing) directory true pattern).

(** The order of the sorted heading positions. *)
Definition pos_le (a b : nat * text) : Prop := fst a <= fst b.


(** The ["respondent_name"] entry of a chunk's metadata, as
    [create_chunks_with_metadata] decides it from the document metadata. *)
Definition respondent_entry (metadata : gmap string text) : option value :=
  match metadata !! "respondent_name" with
  | Some r => if bool_decide (r <> Unknown) then Some (VStr r) else None
  | None => None
  end.


(** The words of a list of paragraphs, counted paragraph by paragraph. *)
Definition total_words (ps : list text) : Z :=
  fold_right (fun p n => (word_count p + n)%Z) 0%Z ps.

(** Consecutive groups that could not have been merged: each group,
    with the first paragraph of the next one added, exceeds [max_tokens]. *)
Fixpoint tight (max_tokens : Z) (groups : list (list text)) : Prop :=
  match groups with
  | g :: (next :: _) as rest =>
      match next with
      | p :: _ => (max_tokens < word_count (join blank_line g) + word_count p)%Z
      | [] => True
      end
      /\ tight max_tokens rest
  | _ => True
  end.


(** The loop invariant of [create_logical_chunks] that records why each
    chunk was closed. *)
Definition chunker_tight (max_tokens : Z) (G : list (list text)) (st : chunker)
    : Prop :=
  chunks st = map (join blank_line) G
  /\ current_size st = word_count (join blank_line (current_chunk st))
  /\ tight max_tokens (G ++ [current_chunk st])
  /\ Forall (fun g => g <> []) G
  /\ (current_chunk st = [] -> G = []).


(** ** The substitutions of [clean_section_text], unfolded *)

(** The length of the longest prefix of [l] within a class. *)
Fixpoint span_len (p : ascii -> bool) (l : text) : nat :=
  match l with
  | x :: l' => if p x then S (span_len p l') else 0
  | [] => 0
  end.

(** [re.sub(r'\s+', ' ', l)], computed from [span_len]. *)
Fixpoint ws_collapse (skip : nat) (l : text) : text :=
  match l with
  | [] => []
  | x :: l' =>
      match skip with
      | S j => ws_collapse j l'
      | 0 =>
          if py_isspace x then sp :: ws_collapse (span_len py_isspace l') l'
          else x :: ws_collapse 0 l'
      end
  end.

(** [HYPHEN_BREAK] matches at the head of [l]. *)
Definition hyphen_break_at (l : text) : bool :=
  match l with
  | a :: h :: s :: b :: _ =>
      py_word a && Ascii.eqb h "-" && Ascii.eqb s " " && py_word b
  | _ => false
  end.

(** [re.sub(r'(\w)- (\w)', r'\1\2', l)], computed from [hyphen_break_at]. *)
Fixpoint hyphen_join (skip : nat) (l : text) : text :=
  match l with
  | [] => []
  | x :: l' =>
      match skip with
      | S j => hyphen_join j l'
      | 0 =>
          if hyphen_break_at l
          then x :: match l' with
                    | _ :: _ :: b :: _ => b :: hyphen_join 3 l'
                    | _ => hyphen_join 3 l'
                    end
          else x :: hyphen_join 0 l'
      end
  end.

(** No two adjacent whitespace characters. *)
Fixpoint separated (l : text) : Prop :=
  match l with
  | a :: (b :: _) as l' => py_isspace a && py_isspace b = false /\ separated l'
  | _ => True
  end.


(** ** Heading matches, unfolded *)

(** The cursor after the literal [w] has been read. *)
Fixpoint feed (w : text) (s : cursor) : cursor :=
  match w with
  | [] => s
  | _ :: w' =>
      match c_rest s with
      | x :: xs => feed w' (step x xs s)
      | [] => s
      end
  end.

Definition word_of (c : option ascii) : bool :=
  match c with Some x => py_word x | None => false end.

Definition word_at_start (s : text) : bool :=
  match s with c :: _ => py_word c | [] => false end.

(** [name] stands at the head of [l], after the character [prev], with a
    word boundary on each side. *)
Definition heading_occurrence (prev : option ascii) (l name : text) : Prop :=
  exists rest,
    l = name ++ rest
    /\ xorb (word_of prev) (word_at_start name) = true
    /\ xorb (word_of (last name)) (word_at_start rest) = true.

(** The texts that the patterns of [SECTION_PATTERNS] can match. *)
Definition HEADINGS : list text := [
  str "APPEARANCES"; str "RECORD AND STIPULATIONS"; str "ISSUES";
  str "FINDINGS OF FACT"; str "PRINCIPLES OF LAW AND ANALYSIS";
  str "PRINCIPLES OF LAW"; str "ANALYSIS"; str "CONCLUSIONS";
  str "CONCLUSION"; str "AWARD"; str "ORDER"; str "DECISION"
].

(** The offset of page [k] in the newline-joined pages. *)
Fixpoint page_offset (pages : list text) (k : nat) : nat :=
  match k, pages with
  | S k', p :: rest => length p + 1 + page_offset rest k'
  | _, _ => 0
  end.


(** A file name as [os.listdir] returns it: without a slash. *)
Definition no_slash (f : text) : Prop :=
  Forall (fun c => Ascii.eqb c slash = false) f.

(** The test of [find_pdf_files] on one directory entry. *)
Definition accepted (pattern : option regex) (filename : text) : bool :=
  ends_with PDF_EXTENSION (lower filename)
  && match pattern with
     | None => true
     | Some r => match re_search r filename with Some _ => true | None => false end
     end.


(** A reader for the examples: one readable document, every other path
    fails. *)
Definition sample_reader (pdf_path : text) : M (list text) :=
  if bool_decide (pdf_path = str "in/a.pdf")
  then inr [str "AWARD
Benefits are granted."]
  else inl (OtherError (str "not a PDF")).


(** ** Captured names *)

(** A regex whose only capture group is [NAME]. *)
Inductive name_groups : regex -> Prop :=
| ng_eps : name_groups REps
| ng_char c : name_groups (RChar c)
| ng_set p : name_groups (RSet p)
| ng_seq r1 r2 : name_groups r1 -> name_groups r2 -> name_groups (RSeq r1 r2)
| ng_alt r1 r2 : name_groups r1 -> name_groups r2 -> name_groups (RAlt r1 r2)
| ng_rep p n : name_groups (RRep p n)
| ng_name : name_groups NAME
| ng_wordb : name_groups RWordB
| ng_bol : name_groups RBol
| ng_eol : name_groups REol.

(** What [NAME] captures: a letter A-Z, then one or more of A-Z,
    whitespace and the dot. *)
Definition name_text (g : text) : Prop :=
  exists c w, g = c :: w /\ az_upper c = true /\ w <> []
              /\ Forall (fun x => name_char x = true) w.

Definition name_captures (s : cursor) : Prop :=
  Forall (fun ng => name_text (snd ng)) (c_groups s).


(** The first two characters of what each pattern of [SECTION_PATTERNS]
    matches, in the order of the patterns. *)
Definition HEADING_KEYS : list text := [
  str "AP"; str "RE"; str "IS"; str "FI"; str "PR";
  str "AN"; str "CO"; str "AW"; str "OR"; str "DE"
].

(** The matches of a scan. *)
Definition matches_of (ts : list token) : list match_obj :=
  flat_map (fun t => match t with TMatch m => [m] | TChar _ => [] end) ts.

Definition positions_of (combined_text : text) (r : regex) : list (nat * text) :=
  map (fun m => (m_start m, m_text m)) (re_finditer r combined_text).

(** * Properties *)

(** ** Characters *)

Lemma is_nl_eqb (c : ascii) : Ascii.eqb c nl = is_nl c.
Proof. destruct c as [[] [] [] [] [] [] [] []]; reflexivity. Qed.

Lemma nl_is_space (c : ascii) : is_nl c = true -> py_isspace c = true.
Proof. destruct c as [[] [] [] [] [] [] [] []]; vm_compute; congruence. Qed.

Lemma word_not_nl (c : ascii) : py_word c = true -> is_nl c = false.
Proof. destruct c as [[] [] [] [] [] [] [] []]; vm_compute; congruence. Qed.

Lemma word_not_space (c : ascii) : py_word c = true -> py_isspace c = false.
Proof. destruct c as [[] [] [] [] [] [] [] []]; vm_compute; congruence. Qed.

(** ** Trimming keeps a part of the text *)

Lemma lstrip_Forall (P : ascii -> Prop) (s : text) :
  Forall P s -> Forall P (lstrip s).
Proof.
  induction 1 as [|c s Hc Hs IH]; simpl; [constructor|].
  destruct (py_isspace c); [exact IH | constructor; assumption].
Qed.

Lemma strip_Forall (P : ascii -> Prop) (s : text) :
  Forall P s -> Forall P (strip s).
Proof.
  intros H. unfold strip, rstrip.
  apply Forall_rev, lstrip_Forall, Forall_rev, lstrip_Forall, H.
Qed.

(** ** The scan of a subject *)

Lemma scan_chars (r : regex) (l : text) :
  forall pos prev skip c, In (TChar c) (scan r pos prev skip l) -> In c l.
Proof.
  induction l as [|x l IH]; intros pos prev skip c H.
  - destruct skip; simpl in H; [|contradiction].
    destruct (match_at r pos prev []); simpl in H; intuition congruence.
  - destruct skip as [|j]; simpl in H.
    + destruct (match_at r pos prev (x :: l)) as [m|].
      * destruct H as [H|H]; [discriminate|].
        destruct (length (m_text m)).
        -- destruct H as [H|H]; [left; congruence | right; eauto].
        -- right; eauto.
      * destruct H as [H|H]; [left; congruence | right; eauto].
    + right; eauto.
Qed.

Lemma rep_closing_nl (l : text) :
  forall s, c_rest s = l ->
    match sep_tail l with
    | Some n => exists e, rep py_isspace 0 l s closing_nl = Some e
                          /\ c_pos e = c_pos s + n /\ c_groups e = c_groups s
    | None => rep py_isspace 0 l s closing_nl = None
    end.
Proof.
  induction l as [|x l IH]; intros s Hs; simpl.
  - unfold closing_nl. rewrite Hs. reflexivity.
  - assert (Hk : closing_nl s = if is_nl x then Some (step x l s) else None).
    { unfold closing_nl. rewrite Hs, is_nl_eqb. reflexivity. }
    destruct (py_isspace x) eqn:Hx.
    + specialize (IH (step x l s) eq_refl).
      destruct (sep_tail l) as [n|].
      * destruct IH as (e & -> & Hp & Hg). exists e. simpl in Hp, Hg.
        repeat split; [lia | assumption].
      * rewrite IH, Hk. destruct (is_nl x); [|reflexivity].
        eexists; repeat split. simpl. lia.
    + rewrite Hk. destruct (is_nl x) eqn:Hn; [|reflexivity].
      apply nl_is_space in Hn. congruence.
Qed.

Lemma sep_tail_le (l : text) : forall n, sep_tail l = Some n -> 1 <= n <= length l.
Proof.
  induction l as [|x l IH]; simpl; intros n H; [discriminate|].
  destruct (py_isspace x); [|discriminate].
  destruct (sep_tail l) as [k|].
  - injection H as <-. specialize (IH k eq_refl). lia.
  - destruct (is_nl x); [|discriminate]. injection H as <-. lia.
Qed.

Lemma sep_len_le (l : text) : forall n, sep_len l = Some n -> 2 <= n <= length l.
Proof.
  destruct l as [|x l]; simpl; intros n H; [discriminate|].
  destruct (is_nl x); [|discriminate].
  destruct (sep_tail l) as [k|] eqn:Hk; [|discriminate].
  injection H as <-. apply sep_tail_le in Hk. lia.
Qed.

Lemma match_at_PARA_SEP (pos : nat) (prev : option ascii) (l : text) :
  match_at PARA_SEP pos prev l =
  option_map (fun n => Match pos (firstn n l) []) (sep_len l).
Proof.
  unfold match_at. destruct l as [|x l]; [reflexivity|].
  simpl. rewrite is_nl_eqb. destruct (is_nl x); [|reflexivity].
  pose proof (rep_closing_nl l (step x l (Cursor pos prev (x :: l) [])) eq_refl) as H.
  fold closing_nl.
  destruct (sep_tail l) as [n|]; simpl.
  - destruct H as (e & -> & Hp & Hg). simpl in Hp, Hg. rewrite Hg.
    replace (c_pos e - pos) with (S n) by lia. reflexivity.
  - rewrite H. reflexivity.
Qed.

Lemma pieces_scan_PARA_SEP (l : text) :
  forall pos prev skip,
    pieces (scan PARA_SEP pos prev skip l) = para_scan skip l.
Proof.
  induction l as [|x l IH]; intros pos prev skip.
  - destruct skip; reflexivity.
  - destruct skip as [|j]; [|simpl; apply IH].
    cbn [scan para_scan]. rewrite match_at_PARA_SEP.
    destruct (sep_len (x :: l)) as [n|] eqn:Hn; simpl.
    + apply sep_len_le in Hn. simpl in Hn.
      rewrite firstn_length_le by (simpl; lia).
      destruct n as [|n]; [lia|]. simpl. rewrite IH. reflexivity.
    + rewrite IH. reflexivity.
Qed.

Lemma re_split_PARA_SEP (s : text) : re_split PARA_SEP s = para_scan 0 s.
Proof. apply pieces_scan_PARA_SEP. Qed.

Lemma scan_matches (r : regex) (l : text) :
  forall pos prev skip m, In (TMatch m) (scan r pos prev skip l) ->
    exists pos' prev' l', match_at r pos' prev' l' = Some m.
Proof.
  induction l as [|x l IH]; intros pos prev skip m H.
  - destruct skip; simpl in H; [|contradiction].
    destruct (match_at r pos prev []) as [m'|] eqn:E; simpl in H; [|contradiction].
    destruct H as [H|[]]. injection H as ->. eauto.
  - destruct skip as [|j]; simpl in H; [|eauto].
    destruct (match_at r pos prev (x :: l)) as [m'|] eqn:E.
    + destruct H as [H|H]; [injection H as ->; eauto|].
      destruct (length (m_text m')); [destruct H as [H|H]; [discriminate|]|]; eauto.
    + destruct H as [H|H]; [discriminate | eauto].
Qed.

(** ** Cleaning leaves no newline *)

Lemma rep_total (p : ascii -> bool) (l : text) :
  forall s, exists e, rep p 0 l s Some = Some e.
Proof.
  induction l as [|x l IH]; intros s; simpl; [eauto|].
  destruct (p x); [|eauto].
  destruct (IH (step x l s)) as [e ->]. eauto.
Qed.

Lemma match_at_WS_RUN_None pos prev x l :
  match_at WS_RUN pos prev (x :: l) = None -> py_isspace x = false.
Proof.
  unfold match_at. simpl. destruct (py_isspace x); [|reflexivity].
  destruct (rep_total py_isspace l (step x l (Cursor pos prev (x :: l) []))) as [e ->].
  discriminate.
Qed.

Lemma rep_pos_le (p : ascii -> bool) (l : text) :
  forall s e, rep p 0 l s Some = Some e -> c_pos s <= c_pos e.
Proof.
  induction l as [|y l IH]; simpl; intros s e H.
  - injection H as <-. lia.
  - destruct (p y); [|injection H as <-; lia].
    destruct (rep p 0 l (step y l s) Some) eqn:E.
    + injection H as <-. apply IH in E. simpl in E. lia.
    + injection H as <-. lia.
Qed.

(** A match of [\s+] is not empty. *)
Lemma match_at_WS_RUN_length pos prev l m :
  match_at WS_RUN pos prev l = Some m -> length (m_text m) <> 0.
Proof.
  unfold match_at. destruct l as [|x l]; simpl; [discriminate|].
  destruct (py_isspace x); [|discriminate].
  destruct (rep py_isspace 0 l (step x l (Cursor pos prev (x :: l) [])) Some)
    as [e|] eqn:E; [|discriminate].
  intros H. injection H as <-. apply rep_pos_le in E. simpl in *.
  replace (c_pos e - pos) with (S (c_pos e - S pos)) by lia. simpl. lia.
Qed.

Lemma scan_WS_RUN_chars (l : text) :
  forall pos prev skip c,
    In (TChar c) (scan WS_RUN pos prev skip l) -> py_isspace c = false.
Proof.
  induction l as [|x l IH]; intros pos prev skip c H.
  - destruct skip; simpl in H; [|contradiction].
    destruct (match_at WS_RUN pos prev []); simpl in H; intuition congruence.
  - destruct skip as [|j]; simpl in H; [|eauto].
    destruct (match_at WS_RUN pos prev (x :: l)) as [m|] eqn:E.
    + destruct H as [H|H]; [discriminate|].
      apply match_at_WS_RUN_length in E.
      destruct (length (m_text m)); [congruence | eauto].
    + destruct H as [H|H]; [|eauto]. injection H as ->.
      eapply match_at_WS_RUN_None, E.
Qed.

Lemma re_sub_WS_RUN_no_newline (s : text) :
  no_newline (re_sub WS_RUN (fun _ => [sp]) s).
Proof.
  unfold no_newline, re_sub. apply List.Forall_forall. intros c Hc.
  apply in_flat_map in Hc. destruct Hc as ([c'|m] & Ht & Hc); simpl in Hc.
  - destruct Hc as [<-|[]]. apply scan_WS_RUN_chars in Ht.
    destruct (is_nl c') eqn:E; [|reflexivity].
    apply nl_is_space in E. congruence.
  - destruct Hc as [<-|[]]. reflexivity.
Qed.

Lemma match_at_HYPHEN_BREAK pos prev l m :
  match_at HYPHEN_BREAK pos prev l = Some m ->
  exists a b, groups_1_2 (m_groups m) = [a; b]
              /\ py_word a = true /\ py_word b = true.
Proof.
  unfold match_at. intros H.
  destruct l as [|a [|h [|s [|b l]]]]; simpl in H;
    repeat match type of H with
           | context [if ?c then _ else _] => destruct c eqn:?; simpl in H
           end; try discriminate.
  injection H as <-. simpl. replace (S pos - pos) with 1 by lia.
  replace (S (S (S (S pos))) - S (S (S pos))) with 1 by lia. simpl. eauto.
Qed.

Lemma re_sub_HYPHEN_BREAK_no_newline (s : text) :
  no_newline s -> no_newline (re_sub HYPHEN_BREAK groups_1_2 s).
Proof.
  unfold no_newline, re_sub. rewrite !List.Forall_forall. intros Hs c Hc.
  apply in_flat_map in Hc. destruct Hc as ([c'|m] & Ht & Hc); simpl in Hc.
  - destruct Hc as [<-|[]]. apply scan_chars in Ht. auto.
  - apply scan_matches in Ht. destruct Ht as (pos & prev & l & Hm).
    apply match_at_HYPHEN_BREAK in Hm. destruct Hm as (a & b & E & Ha & Hb).
    rewrite E in Hc. destruct Hc as [<-|[<-|[]]]; auto using word_not_nl.
Qed.

Theorem clean_section_text_no_newline (section_text : text) :
  no_newline (clean_section_text section_text).
Proof.
  unfold clean_section_text.
  apply strip_Forall, re_sub_HYPHEN_BREAK_no_newline, re_sub_WS_RUN_no_newline.
Qed.

(** ** A text without newline is one paragraph and one chunk *)

Lemma para_scan_no_newline (s : text) : no_newline s -> para_scan 0 s = [s].
Proof.
  induction 1 as [|c s Hc Hs IH]; [reflexivity|].
  cbn [para_scan sep_len]. rewrite Hc, IH. reflexivity.
Qed.

Lemma create_logical_chunks_one_paragraph (s : text) (max_tokens : Z) :
  re_split PARA_SEP s = [s] -> create_logical_chunks s max_tokens = [s].
Proof.
  intros H. unfold create_logical_chunks. rewrite H. simpl.
  unfold add_paragraph. simpl. rewrite andb_false_r. reflexivity.
Qed.

Lemma set_found_is_Some (k k' : string) (v : option text) (d : gmap string text) :
  is_Some (d !! k) -> is_Some (set_found k' v d !! k).
Proof.
  intros H. destruct v as [v|]; simpl; [|exact H].
  apply lookup_insert_is_Some'. right. exact H.
Qed.

Lemma extract_case_info_keys (s : text) :
  is_Some (extract_case_info s !! "docket_number")
  /\ is_Some (extract_case_info s !! "claimant_name").
Proof.
  unfold extract_case_info. split; repeat apply set_found_is_Some; eauto.
Qed.

Lemma make_chunk_ok section_name (metadata : gmap string text) count i body docket claimant :
  metadata !! "docket_number" = Some docket ->
  metadata !! "claimant_name" = Some claimant ->
  exists c, make_chunk section_name metadata count i body = inr c
            /\ chunk_text c = format_chunk docket claimant section_name body
            /\ chunk_metadata c !! "section" = Some (VStr section_name)
            /\ chunk_metadata c !! "chunk_index" = Some (VInt (Z.of_nat i))
            /\ chunk_metadata c !! "chunk_count" = Some (VInt (Z.of_nat count)).
Proof.
  intros Hd Hc. unfold make_chunk, getitem. rewrite Hd, Hc. simpl.
  eexists. split; [reflexivity|]. simpl. split; [reflexivity|].
  destruct (metadata !! "respondent_name") as [r|]; [destruct (bool_decide _)|];
    repeat split; simplify_map_eq; reflexivity.
Qed.

(** The metadata of the pipeline: the case information with the file name. *)
Lemma pipeline_metadata_keys (pages : list text) (filename : text) :
  exists docket claimant,
    (<["filename" := filename]> (extract_enhanced_case_info pages) : gmap string text)
      !! "docket_number" = Some docket
    /\ (<["filename" := filename]> (extract_enhanced_case_info pages) : gmap string text)
      !! "claimant_name" = Some claimant.
Proof.
  destruct (extract_case_info_keys
              (if 3 <=? length pages then join [nl] (firstn 3 pages)
               else join [nl] pages)) as [[d Hd] [cl Hcl]].
  exists d, cl. rewrite !lookup_insert_ne by discriminate. auto.
Qed.

Lemma cleaned_text_one_paragraph (section_text : text) :
  re_split PARA_SEP (clean_section_text section_text)
  = [clean_section_text section_text].
Proof.
  rewrite re_split_PARA_SEP.
  apply para_scan_no_newline, clean_section_text_no_newline.
Qed.

Lemma cleaned_text_one_chunk (section_name section_text : text)
    (metadata : gmap string text) (max_tokens : Z) (docket claimant : text) :
  metadata !! "docket_number" = Some docket ->
  metadata !! "claimant_name" = Some claimant ->
  exists c,
    create_chunks_with_metadata section_name (clean_section_text section_text)
                                metadata max_tokens = inr [c]
    /\ chunk_metadata c !! "chunk_index" = Some (VInt 0)
    /\ chunk_metadata c !! "chunk_count" = Some (VInt 1).
Proof.
  intros Hd Hcl. unfold create_chunks_with_metadata.
  rewrite (create_logical_chunks_one_paragraph _ max_tokens
             (cleaned_text_one_paragraph section_text)). simpl.
  destruct (make_chunk_ok section_name metadata 1 0
              (clean_section_text section_text) docket claimant Hd Hcl)
    as (c & -> & _ & _ & Hi & Hn).
  exists c. simpl. auto.
Qed.

Lemma section_chunks_not_skipped (pages : list text) (filename : text)
    (s : section) :
  skipped (sec_name s) (sec_text s) = false ->
  exists c,
    pipeline_section_chunks
      (<["filename" := filename]> (extract_enhanced_case_info pages)) s = inr [c]
    /\ chunk_metadata c !! "chunk_index" = Some (VInt 0)
    /\ chunk_metadata c !! "chunk_count" = Some (VInt 1).
Proof.
  intros Hskip. destruct (pipeline_metadata_keys pages filename) as (d & cl & Hd & Hcl).
  destruct s as [[[name body] page] start].
  change (skipped name body = false) in Hskip.
  unfold pipeline_section_chunks, section_chunks. rewrite Hskip.
  exact (cleaned_text_one_chunk name body _ MAX_CHUNK_SIZE d cl Hd Hcl).
Qed.

(** ** C1 *)

(** C1: in the per-document pipeline the chunker receives the output of
    [clean_section_text], which holds no newline; the blank-line split
    therefore finds that text as its only paragraph, the chunker returns
    it as its only chunk whatever [max_tokens] is, and a section that is
    not skipped contributes exactly one chunk, with [chunk_index] 0 and
    [chunk_count] 1. *)
Theorem C1_cleaned_section_is_one_chunk
    (pages : list text) (filename : text) (s : section) (max_tokens : Z) :
  skipped (sec_name s) (sec_text s) = false ->
  let metadata := <["filename" := filename]> (extract_enhanced_case_info pages) in
  let cleaned := clean_section_text (sec_text s) in
  no_newline cleaned
  /\ re_split PARA_SEP cleaned = [cleaned]
  /\ create_logical_chunks cleaned max_tokens = [cleaned]
  /\ (exists c,
        create_chunks_with_metadata (sec_name s) cleaned metadata max_tokens
          = inr [c]
        /\ chunk_metadata c !! "chunk_count" = Some (VInt 1))
  /\ (exists c,
        section_chunks (fun t => ret (clean_section_text t))
                       create_chunks_with_metadata metadata s = inr [c]
        /\ chunk_metadata c !! "chunk_index" = Some (VInt 0)
        /\ chunk_metadata c !! "chunk_count" = Some (VInt 1)).
Proof.
  intros Hskip metadata cleaned.
  destruct (pipeline_metadata_keys pages filename) as (d & cl & Hd & Hcl).
  split; [apply clean_section_text_no_newline|].
  split; [apply cleaned_text_one_paragraph|].
  split; [apply create_logical_chunks_one_paragraph, cleaned_text_one_paragraph|].
  split.
  - destruct (cleaned_text_one_chunk (sec_name s) (sec_text s) metadata
                max_tokens d cl Hd Hcl) as (c & E & _ & Hn).
    eauto.
  - apply (section_chunks_not_skipped pages filename s Hskip).
Qed.

Lemma C1_witness :
  skipped (str "AWARD") (str "AWARD
Benefits are granted.

The respondent shall pay.") = false
  /\ exists c,
       section_chunks (fun t => ret (clean_section_text t))
                      create_chunks_with_metadata
                      (<["filename" := str "case001.pdf"]>
                         (extract_enhanced_case_info []))
                      (str "AWARD", str "AWARD
Benefits are granted.

The respondent shall pay.", 0, 0) = inr [c].
Proof.
  split; [reflexivity|].
  destruct (C1_cleaned_section_is_one_chunk [] (str "case001.pdf")
              (str "AWARD", str "AWARD
Benefits are granted.

The respondent shall pay.", 0, 0) 800%Z eq_refl)
    as (_ & _ & _ & _ & c & H & _).
  exists c. exact H.
Defined.

(** ** The structure of the paragraph split *)

Lemma sep_tail_lead_nl (l : text) : sep_tail l = None <-> lead_nl l = false.
Proof.
  induction l as [|x l IH]; simpl; [tauto|].
  destruct (is_nl x) eqn:Hn.
  - rewrite (nl_is_space x Hn). destruct (sep_tail l); split; discriminate.
  - destruct (py_isspace x); [|tauto].
    destruct (sep_tail l); [|tauto].
    split; [discriminate|]. intros H. apply IH in H. discriminate.
Qed.

Lemma sep_len_has_sep (l : text) : sep_len l = None <-> has_sep l = false.
Proof.
  destruct l as [|x l]; simpl; [tauto|].
  destruct (is_nl x); simpl; [|tauto].
  rewrite <- sep_tail_lead_nl. destruct (sep_tail l); simpl; split; congruence.
Qed.

Lemma sep_tail_greedy (l : text) :
  forall n, sep_tail l = Some n -> lead_nl (skipn n l) = false.
Proof.
  induction l as [|x l IH]; simpl; intros n H; [discriminate|].
  destruct (py_isspace x); [|discriminate].
  destruct (sep_tail l) as [k|] eqn:Hk.
  - injection H as <-. simpl. auto.
  - destruct (is_nl x); [|discriminate]. injection H as <-. simpl.
    apply sep_tail_lead_nl, Hk.
Qed.

Lemma sep_len_greedy (l : text) (n : nat) :
  sep_len l = Some n -> lead_nl (skipn n l) = false.
Proof.
  destruct l as [|x l]; simpl; [discriminate|].
  destruct (is_nl x); [|discriminate].
  destruct (sep_tail l) as [k|] eqn:Hk; [|discriminate].
  intros H. injection H as <-. simpl. apply sep_tail_greedy, Hk.
Qed.

Lemma sep_len_head (l : text) (n : nat) :
  sep_len l = Some n -> exists x l', l = x :: l' /\ is_nl x = true.
Proof.
  destruct l as [|x l]; simpl; [discriminate|].
  destruct (is_nl x) eqn:E; [eauto | discriminate].
Qed.

Lemma lead_nl_app (q X : text) : lead_nl q = true -> lead_nl (q ++ X) = true.
Proof.
  induction q as [|c q IH]; simpl; [discriminate|].
  destruct (is_nl c); [reflexivity|]. destruct (py_isspace c); auto.
Qed.

Lemma lead_nl_before_nl (q : text) (x y : ascii) (X Y : text) :
  is_nl x = true -> is_nl y = true ->
  lead_nl (q ++ x :: X) = lead_nl (q ++ y :: Y).
Proof.
  intros Hx Hy. induction q as [|c q IH]; simpl.
  - rewrite Hx, Hy. reflexivity.
  - rewrite IH. reflexivity.
Qed.

Lemma has_sep_before_nl (c : ascii) (q : text) (x y : ascii) (X Y : text) :
  is_nl x = true -> is_nl y = true ->
  has_sep ((c :: q) ++ x :: X) = has_sep ((c :: q) ++ y :: Y).
Proof.
  intros Hx Hy. simpl. f_equal. apply lead_nl_before_nl; assumption.
Qed.

Lemma clear_of_sep_before_nl (p : text) (x y : ascii) (X Y : text) :
  is_nl x = true -> is_nl y = true ->
  clear_of_sep p (x :: X) -> clear_of_sep p (y :: Y).
Proof.
  intros Hx Hy. induction p as [|c p IH]; [trivial|].
  intros [H1 H2]. split; [|auto].
  rewrite <- H1. apply has_sep_before_nl; assumption.
Qed.

Lemma clear_of_sep_nil (p rest : text) : clear_of_sep p rest -> clear_of_sep p [].
Proof.
  induction p as [|c p IH]; [trivial|].
  intros [H1 H2]. split; [|auto].
  rewrite app_nil_r. simpl in *. destruct (is_nl c); [|reflexivity].
  simpl in *. destruct (lead_nl p) eqn:E; [|reflexivity].
  rewrite (lead_nl_app p rest E) in H1. discriminate.
Qed.

Lemma para_scan_not_nil (l : text) : forall skip, para_scan skip l <> [].
Proof.
  induction l as [|x l IH]; intros skip; cbn [para_scan]; [discriminate|].
  destruct skip; [|apply IH].
  destruct (sep_len (x :: l)); [discriminate|].
  specialize (IH 0). destruct (para_scan 0 l); [contradiction | discriminate].
Qed.

Lemma para_scan_skip (l : text) :
  forall j, j <= length l -> para_scan j l = para_scan 0 (skipn j l).
Proof.
  induction l as [|x l IH]; intros j Hj.
  - destruct j; [reflexivity | simpl in Hj; lia].
  - destruct j as [|j]; [reflexivity|]. simpl. apply IH. simpl in Hj. lia.
Qed.

Lemma para_scan_sep (l : text) (n : nat) :
  sep_len l = Some n -> para_scan 0 l = [] :: para_scan 0 (skipn n l).
Proof.
  intros H. pose proof (sep_len_le l n H) as Hn.
  destruct l as [|x l]; [discriminate|].
  cbn [para_scan]. rewrite H. destruct n as [|n]; [lia|].
  simpl in *. rewrite para_scan_skip by lia. reflexivity.
Qed.

Lemma para_scan_clear (p rest : text) :
  clear_of_sep p rest ->
  para_scan 0 (p ++ rest) = prepend p (para_scan 0 rest).
Proof.
  induction p as [|c p IH]; intros H.
  - simpl. pose proof (para_scan_not_nil rest 0).
    destruct (para_scan 0 rest); [contradiction | reflexivity].
  - destruct H as [H1 H2]. apply sep_len_has_sep in H1.
    change ((c :: p) ++ rest) with (c :: (p ++ rest)) in *.
    cbn [para_scan]. rewrite H1, (IH H2).
    destruct (para_scan 0 rest); reflexivity.
Qed.

(** What a first paragraph [p] says about the text: either it is the
    whole text, or a separator follows it. *)
Lemma para_scan_first (t : text) :
  forall p Q, para_scan 0 t = p :: Q ->
    (Q = [] /\ t = p /\ clear_of_sep p [])
    \/ (exists rest n, t = p ++ rest /\ clear_of_sep p rest
                       /\ sep_len rest = Some n
                       /\ para_scan 0 (skipn n rest) = Q).
Proof.
  induction t as [|x t IH]; intros p Q H.
  - left. simpl in H. injection H as <- <-. repeat split.
  - destruct (sep_len (x :: t)) as [n|] eqn:Hn.
    + right. rewrite (para_scan_sep _ _ Hn) in H. injection H as <- <-.
      exists (x :: t), n. repeat split. exact Hn.
    + cbn [para_scan] in H. rewrite Hn in H.
      destruct (para_scan 0 t) as [|p' Q'] eqn:Ht;
        [exfalso; eapply para_scan_not_nil, Ht|].
      simpl in H. injection H as <- <-.
      apply sep_len_has_sep in Hn.
      destruct (IH p' Q' eq_refl) as [(-> & -> & Hc)|(rest & n & -> & Hc & Hs & Hq)].
      * left. repeat split; [rewrite app_nil_r; exact Hn | exact Hc].
      * right. exists rest, n. repeat split; assumption.
Qed.

Lemma sep_len_blank_line (J : text) :
  lead_nl J = false -> sep_len (blank_line ++ J) = Some 2.
Proof.
  intros H. apply sep_tail_lead_nl in H. simpl. rewrite H. reflexivity.
Qed.

Lemma join_cons2 (sep p q : text) (g : list text) :
  join sep (p :: q :: g) = p ++ sep ++ join sep (q :: g).
Proof. reflexivity. Qed.

Lemma lead_nl_join (R p : text) (g B : list text) :
  para_scan 0 R = (p :: g) ++ B -> lead_nl R = false ->
  lead_nl (join blank_line (p :: g)) = false.
Proof.
  intros HR Hl.
  destruct (para_scan_first R p (g ++ B) HR)
    as [(HQ & -> & _)|(rest & n & -> & _ & Hs & _)].
  - apply app_eq_nil in HQ. destruct HQ as [-> _]. exact Hl.
  - destruct (sep_len_head rest n Hs) as (x & rest' & -> & Hx).
    destruct g as [|q g].
    + simpl. destruct (lead_nl p) eqn:E; [|reflexivity].
      rewrite (lead_nl_app p _ E) in Hl. discriminate.
    + rewrite join_cons2. rewrite <- Hl.
      apply lead_nl_before_nl; [reflexivity | exact Hx].
Qed.

(** Joining the first paragraphs of a text with blank lines and splitting
    again gives these paragraphs back. *)
Lemma para_scan_join (g : list text) :
  forall t B, g <> [] -> para_scan 0 t = g ++ B ->
    para_scan 0 (join blank_line g) = g.
Proof.
  induction g as [|p g IH]; intros t B Hg Ht; [contradiction|].
  destruct (para_scan_first t p (g ++ B) Ht)
    as [(HQ & -> & Hc)|(rest & n & -> & Hc & Hs & Hq)].
  - apply app_eq_nil in HQ. destruct HQ as [-> ->]. exact Ht.
  - destruct g as [|q g].
    + simpl. apply clear_of_sep_nil in Hc.
      pose proof (para_scan_clear p [] Hc) as H.
      rewrite app_nil_r in H. rewrite H. simpl. rewrite app_nil_r. reflexivity.
    + rewrite join_cons2.
      assert (HJ : para_scan 0 (join blank_line (q :: g)) = q :: g).
      { apply (IH (skipn n rest) B); [discriminate | exact Hq]. }
      assert (Hl : lead_nl (join blank_line (q :: g)) = false).
      { apply (lead_nl_join (skipn n rest) q g B Hq).
        apply sep_len_greedy, Hs. }
      destruct (sep_len_head rest n Hs) as (x & rest' & -> & Hx).
      rewrite para_scan_clear
        by (apply (clear_of_sep_before_nl p x nl rest'); auto).
      rewrite (para_scan_sep _ 2 (sep_len_blank_line _ Hl)).
      change (skipn 2 (blank_line ++ join blank_line (q :: g)))
        with (join blank_line (q :: g)).
      rewrite HJ. simpl. rewrite app_nil_r. reflexivity.
Qed.

Lemma para_scan_suffix (A : list text) :
  forall t C, para_scan 0 t = A ++ C -> C <> [] ->
    exists t', para_scan 0 t' = C.
Proof.
  induction A as [|a A IH]; intros t C Ht HC; [eauto|].
  destruct (para_scan_first t a (A ++ C) Ht)
    as [(HQ & _)|(rest & n & _ & _ & _ & Hq)].
  - apply app_eq_nil in HQ. destruct HQ as [_ ->]. contradiction.
  - eapply IH; eassumption.
Qed.

Lemma para_scan_groups (G : list (list text)) :
  forall t, Forall (fun g => g <> []) G -> para_scan 0 t = concat G ->
    flat_map (para_scan 0) (map (join blank_line) G) = concat G.
Proof.
  induction G as [|g G IH]; intros t HG Ht; [reflexivity|].
  inversion HG as [|? ? Hg HG']; subst. simpl in *.
  rewrite (para_scan_join g t (concat G) Hg Ht). f_equal.
  destruct G as [|g' G]; [reflexivity|].
  destruct (para_scan_suffix g t (concat (g' :: G)) Ht) as [t' Ht'].
  - inversion HG' as [|? ? Hg' _]; subst. simpl.
    destruct g'; [contradiction | discriminate].
  - apply (IH t' HG' Ht').
Qed.

(** ** Word counts *)

Lemma words_in_app_space (a b : text) (c : ascii) :
  py_isspace c = true ->
  forall w, words_in w (a ++ c :: b) = words_in w a ++ words_in [] b.
Proof.
  intros Hc. induction a as [|x a IH]; intros w; simpl.
  - rewrite Hc. destruct w; reflexivity.
  - destruct (py_isspace x).
    + destruct w; rewrite IH; reflexivity.
    + apply IH.
Qed.

Lemma word_count_blank_line (a b : text) :
  word_count (a ++ blank_line ++ b) = (word_count a + word_count b)%Z.
Proof.
  unfold word_count, py_split, blank_line. simpl.
  rewrite (words_in_app_space a (nl :: b) nl eq_refl). simpl.
  rewrite length_app. lia.
Qed.

Lemma join_snoc (sep p : text) (g : list text) :
  g <> [] -> join sep (g ++ [p]) = join sep g ++ sep ++ p.
Proof.
  induction g as [|q g IH]; intros Hg; [contradiction|].
  destruct g as [|q' g]; [reflexivity|].
  transitivity (q ++ sep ++ join sep ((q' :: g) ++ [p])); [reflexivity|].
  rewrite IH by discriminate. rewrite join_cons2, <- !app_assoc. reflexivity.
Qed.

Lemma word_count_nonneg (s : text) : (0 <= word_count s)%Z.
Proof. unfold word_count. lia. Qed.

(** ** The chunker loop *)

Lemma chunk_ok_current (max_tokens : Z) (cur : list text) :
  cur <> [] ->
  (2 <= length cur -> (word_count (join blank_line cur) <= max_tokens)%Z) ->
  chunk_ok max_tokens cur.
Proof.
  intros Hne Hsize. split; [exact Hne|].
  destruct cur as [|p [|q cur]]; [contradiction | | left; apply Hsize; simpl; lia].
  destruct (Z_le_gt_dec (word_count p) max_tokens); [left; assumption|].
  right. exists p. split; [reflexivity | lia].
Qed.

Lemma add_paragraph_inv (max_tokens : Z) (G : list (list text)) (st : chunker)
    (para : text) :
  chunker_inv max_tokens G st ->
  exists G',
    chunker_inv max_tokens G' (add_paragraph max_tokens st para)
    /\ concat G' ++ current_chunk (add_paragraph max_tokens st para)
       = concat G ++ current_chunk st ++ [para]
    /\ current_chunk (add_paragraph max_tokens st para) <> [].
Proof.
  intros (Hch & HG & Hsz & Hb). unfold add_paragraph.
  fold (word_count para).
  destruct ((max_tokens <? current_size st + word_count para)%Z
            && negb (is_nil (current_chunk st))) eqn:E.
  - apply andb_true_iff in E. destruct E as [_ Hne].
    assert (Hcur : current_chunk st <> []).
    { destruct (current_chunk st); [discriminate | discriminate]. }
    exists (G ++ [current_chunk st]). unfold chunker_inv. simpl. repeat split.
    + rewrite Hch, map_app. reflexivity.
    + apply Forall_app. split; [exact HG|]. constructor; [|constructor].
      apply chunk_ok_current; [exact Hcur|]. rewrite <- Hsz. exact Hb.
    + intros Hlen. lia.
    + rewrite concat_app. simpl. rewrite app_nil_r, <- app_assoc. reflexivity.
    + discriminate.
  - exists G. unfold chunker_inv. simpl. repeat split; try assumption.
    + destruct (current_chunk st) as [|q cur] eqn:Ec.
      * simpl in *. rewrite Hsz. reflexivity.
      * rewrite join_snoc by discriminate.
        rewrite word_count_blank_line, Hsz. reflexivity.
    + rewrite length_app. simpl. intros Hlen.
      apply andb_false_iff in E. destruct E as [E|E].
      * apply Z.ltb_ge in E. exact E.
      * destruct (current_chunk st); [simpl in Hlen; lia | discriminate].
    + destruct (current_chunk st); discriminate.
Qed.

Lemma fold_add_paragraph_inv (max_tokens : Z) (paragraphs : list text) :
  forall G st,
    chunker_inv max_tokens G st ->
    exists G',
      let st' := fold_left (add_paragraph max_tokens) paragraphs st in
      chunker_inv max_tokens G' st'
      /\ concat G' ++ current_chunk st'
         = concat G ++ current_chunk st ++ paragraphs
      /\ (current_chunk st' = [] -> current_chunk st = [] /\ paragraphs = []).
Proof.
  induction paragraphs as [|para ps IH]; intros G st Hinv.
  - exists G. simpl. rewrite app_nil_r. split; [exact Hinv | auto].
  - destruct (add_paragraph_inv max_tokens G st para Hinv) as (G1 & H1 & Hc1 & Hn1).
    destruct (IH G1 _ H1) as (G' & H' & Hc' & Hn').
    exists G'. simpl in *. split; [exact H'|split].
    + rewrite Hc', app_assoc, Hc1, <- !app_assoc. reflexivity.
    + intros E. apply Hn' in E. destruct E as [E _]. contradiction.
Qed.

(** The chunks are the joins of groups of whole paragraphs, in order. *)
Lemma create_logical_chunks_groups (s : text) (max_tokens : Z) :
  exists groups,
    create_logical_chunks s max_tokens = map (join blank_line) groups
    /\ concat groups = re_split PARA_SEP s
    /\ Forall (chunk_ok max_tokens) groups.
Proof.
  unfold create_logical_chunks.
  destruct (fold_add_paragraph_inv max_tokens (re_split PARA_SEP s) []
              (Chunker [] [] 0%Z)) as (G & Hinv & Hc & Hn).
  { repeat split; simpl; [constructor | lia]. }
  simpl in Hc, Hn.
  set (st := fold_left (add_paragraph max_tokens) (re_split PARA_SEP s)
                       (Chunker [] [] 0%Z)) in *.
  destruct Hinv as (Hch & HG & Hsz & Hb).
  destruct (current_chunk st) as [|p cur] eqn:Ec; simpl.
  - exists G. rewrite app_nil_r in Hc. auto.
  - exists (G ++ [p :: cur]). repeat split.
    + rewrite Hch, map_app. reflexivity.
    + rewrite concat_app. simpl. rewrite app_nil_r. exact Hc.
    + apply Forall_app. split; [exact HG|]. constructor; [|constructor].
      apply chunk_ok_current; [discriminate|]. rewrite <- Hsz. exact Hb.
Qed.

Lemma word_count_join_member (g : list text) (p : text) :
  In p g -> (word_count p <= word_count (join blank_line g))%Z.
Proof.
  induction g as [|q g IH]; intros Hp; [contradiction|].
  destruct g as [|q' g].
  - destruct Hp as [->|[]]. simpl. lia.
  - rewrite join_cons2, word_count_blank_line.
    pose proof (word_count_nonneg q).
    pose proof (word_count_nonneg (join blank_line (q' :: g))).
    destruct Hp as [->|Hp]; [lia|]. specialize (IH Hp). lia.
Qed.

(** ** C2 *)

(** C2: the chunks of [create_logical_chunks] are the blank-line joins of
    consecutive groups of whole paragraphs of the input, so no paragraph
    is split; the word count of a chunk is at most [max_tokens] unless
    the chunk is exactly one paragraph whose own word count exceeds
    [max_tokens]; and every such oversized paragraph is a chunk of its
    own. *)
Theorem C2_chunk_word_bound (s : text) (max_tokens : Z) :
  (exists groups,
      concat groups = re_split PARA_SEP s
      /\ create_logical_chunks s max_tokens = map (join blank_line) groups
      /\ Forall (chunk_ok max_tokens) groups)
  /\ Forall (fun c => (word_count c <= max_tokens)%Z
                      \/ (In c (re_split PARA_SEP s)
                          /\ (max_tokens < word_count c)%Z))
            (create_logical_chunks s max_tokens)
  /\ (forall p, In p (re_split PARA_SEP s) -> (max_tokens < word_count p)%Z ->
                In p (create_logical_chunks s max_tokens)).
Proof.
  destruct (create_logical_chunks_groups s max_tokens) as (G & Hch & Hc & HG).
  split; [exists G; auto|]. rewrite Hch, <- Hc. split.
  - apply List.Forall_forall. intros c Hin.
    apply in_map_iff in Hin. destruct Hin as (g & <- & Hg).
    pose proof (proj1 (List.Forall_forall _ _) HG g Hg) as [_ [Hle|(p & -> & Hgt)]].
    + left. exact Hle.
    + right. split; [|exact Hgt]. apply in_concat. exists [p]. simpl. auto.
  - intros p Hp Hgt. apply in_concat in Hp. destruct Hp as (g & Hg & Hpg).
    apply in_map_iff. exists g. split; [|exact Hg].
    pose proof (proj1 (List.Forall_forall _ _) HG g Hg) as [_ [Hle|(q & -> & _)]].
    + pose proof (word_count_join_member g p Hpg). lia.
    + destruct Hpg as [->|[]]. reflexivity.
Qed.

(** ** C3 *)

(** C3: splitting every chunk of [create_logical_chunks] on the blank-line
    separator and concatenating the results in chunk order gives exactly
    the paragraphs of the input text. *)
Theorem C3_chunks_keep_paragraphs (s : text) (max_tokens : Z) :
  flat_map (re_split PARA_SEP) (create_logical_chunks s max_tokens)
  = re_split PARA_SEP s.
Proof.
  destruct (create_logical_chunks_groups s max_tokens) as (G & -> & Hc & HG).
  rewrite <- Hc. rewrite (flat_map_ext _ _ re_split_PARA_SEP).
  apply (para_scan_groups G s).
  - eapply List.Forall_impl; [|exact HG]. intros g [Hg _]. exact Hg.
  - rewrite Hc. symmetry. apply re_split_PARA_SEP.
Qed.

(** ** C4 *)

(** C4: on the empty text [create_logical_chunks] returns a list of one
    chunk, the empty string, and not the empty list: [re.split] gives
    the single paragraph [""], which the loop appends to
    [current_chunk], so the final test finds a non-empty list. *)
Theorem C4_empty_text_one_empty_chunk (max_tokens : Z) :
  create_logical_chunks [] max_tokens = [[]]
  /\ create_logical_chunks [] max_tokens <> [].
Proof.
  rewrite (create_logical_chunks_one_paragraph [] max_tokens eq_refl).
  split; [reflexivity | discriminate].
Qed.

(** ** C10 *)

(** C10: on a page that holds the heading PRINCIPLES OF LAW AND ANALYSIS,
    [identify_sections] returns a section of that name and a section
    named ANALYSIS that starts inside the same heading, and the text of
    the former stops where the latter begins. *)
Theorem C10_heading_inside_heading :
  exists pages first second,
    identify_sections pages = [first; second]
    /\ sec_name first = str "PRINCIPLES OF LAW AND ANALYSIS"
    /\ sec_name second = str "ANALYSIS"
    /\ sec_start first < sec_start second
       < sec_start first + length (sec_name first)
    /\ sec_text first
       = strip (slice (join [nl] pages) (sec_start first) (sec_start second))
    /\ sec_text first = str "PRINCIPLES OF LAW AND".
Proof.
  exists [str "PRINCIPLES OF LAW AND ANALYSIS
The Act applies to the claim."].
  eexists. eexists. split; [vm_compute; reflexivity|].
  vm_compute. repeat split; lia.
Qed.

(** ** Sorting the heading positions *)

Lemma insert_by_pos_In (x y : nat * text) (l : list (nat * text)) :
  In y (insert_by_pos x l) <-> y = x \/ In y l.
Proof.
  induction l as [|z l IH]; simpl; [intuition|].
  destruct (fst x <=? fst z); simpl; [intuition|].
  rewrite IH. intuition.
Qed.

Lemma sort_by_pos_In (y : nat * text) (l : list (nat * text)) :
  In y (sort_by_pos l) <-> In y l.
Proof.
  induction l as [|x l IH]; simpl; [tauto|].
  rewrite insert_by_pos_In, IH. intuition.
Qed.

Lemma insert_by_pos_sorted (x : nat * text) (l : list (nat * text)) :
  StronglySorted pos_le l -> StronglySorted pos_le (insert_by_pos x l).
Proof.
  induction 1 as [|z l Hl IH Hz]; simpl; [repeat constructor|].
  destruct (fst x <=? fst z) eqn:E.
  - apply Nat.leb_le in E. constructor; [constructor; assumption|].
    constructor; [exact E|].
    eapply List.Forall_impl; [|exact Hz]. unfold pos_le. intros; lia.
  - apply Nat.leb_gt in E. constructor; [exact IH|].
    apply List.Forall_forall. intros y Hy. apply insert_by_pos_In in Hy.
    destruct Hy as [->|Hy]; [unfold pos_le; lia|].
    apply (proj1 (List.Forall_forall _ _) Hz y Hy).
Qed.

Lemma sort_by_pos_sorted (l : list (nat * text)) :
  StronglySorted pos_le (sort_by_pos l).
Proof.
  induction l as [|x l IH]; simpl; [constructor|].
  apply insert_by_pos_sorted, IH.
Qed.

Lemma sorted_lookup (l : list (nat * text)) :
  StronglySorted pos_le l ->
  forall i j a b, i < j -> l !! i = Some a -> l !! j = Some b -> fst a <= fst b.
Proof.
  induction 1 as [|z l Hl IH Hz]; intros i j a b Hij Ha Hb; [discriminate|].
  destruct j as [|j]; [lia|]. simpl in Hb.
  destruct i as [|i]; simpl in Ha.
  - injection Ha as <-.
    apply (proj1 (List.Forall_forall _ _) Hz b).
    apply list_elem_of_In. eapply list_elem_of_lookup_2, Hb.
  - apply (IH i j); [lia | assumption | assumption].
Qed.

(** ** Every match starts inside the text *)

Lemma match_at_start r pos prev l m :
  match_at r pos prev l = Some m -> m_start m = pos.
Proof.
  unfold match_at. destruct (rmatch _ _ _); [|discriminate].
  intros H. injection H as <-. reflexivity.
Qed.

Lemma scan_match_start (r : regex) (l : text) :
  forall pos prev skip m, In (TMatch m) (scan r pos prev skip l) ->
    pos <= m_start m <= pos + length l.
Proof.
  induction l as [|x l IH]; intros pos prev skip m H.
  - destruct skip; simpl in H; [|contradiction].
    destruct (match_at r pos prev []) as [m'|] eqn:E; simpl in H; [|contradiction].
    destruct H as [H|[]]. injection H as ->. apply match_at_start in E.
    simpl. lia.
  - assert (Hrec : forall j, In (TMatch m) (scan r (S pos) (Some x) j l) ->
                             pos <= m_start m <= pos + length (x :: l)).
    { intros j Hj. apply IH in Hj. simpl. lia. }
    destruct skip as [|j]; simpl in H; [|eauto].
    destruct (match_at r pos prev (x :: l)) as [m'|] eqn:E.
    + destruct H as [H|H].
      * injection H as ->. apply match_at_start in E. simpl. lia.
      * destruct (length (m_text m')); [destruct H as [H|H]; [discriminate|]|];
          eauto.
    + destruct H as [H|H]; [discriminate | eauto].
Qed.

Lemma find_positions_bound (combined_text : text) (x : nat * text) :
  In x (find_positions combined_text) -> fst x <= length combined_text.
Proof.
  unfold find_positions. intros H. apply in_flat_map in H.
  destruct H as (r & _ & H). apply in_map_iff in H.
  destruct H as (m & <- & H). unfold re_finditer in H.
  apply in_flat_map in H. destruct H as ([c|m'] & Ht & H); simpl in H;
    [contradiction|]. destruct H as [->|[]].
  apply scan_match_start in Ht. simpl in *. lia.
Qed.

(** A pattern that [re.search] does not find has no match in the scan. *)
Lemma search_from_None_scan (r : regex) (l : text) :
  forall pos prev skip m,
    search_from r pos prev l = None -> ~ In (TMatch m) (scan r pos prev skip l).
Proof.
  induction l as [|x l IH]; intros pos prev skip m Hs H; simpl in Hs.
  - destruct skip; simpl in H; [|contradiction].
    destruct (match_at r pos prev []); [discriminate | contradiction].
  - destruct (match_at r pos prev (x :: l)) eqn:E; [discriminate|].
    destruct skip as [|j]; simpl in H.
    + rewrite E in H. destruct H as [H|H]; [discriminate|]. eapply IH; eauto.
    + eapply IH; eauto.
Qed.

Lemma re_search_None_finditer (r : regex) (s : text) :
  re_search r s = None -> re_finditer r s = [].
Proof.
  intros H. unfold re_finditer.
  destruct (flat_map _ (tokens r s)) as [|m ms] eqn:E; [reflexivity|].
  exfalso. apply (search_from_None_scan r s 0 None 0 m H).
  assert (Hin : In m (flat_map (fun t => match t with
                                         | TMatch m => [m]
                                         | TChar _ => []
                                         end) (tokens r s)))
    by (rewrite E; left; reflexivity).
  apply in_flat_map in Hin. destruct Hin as ([c|m'] & Ht & Hm); simpl in Hm;
    [contradiction|]. destruct Hm as [->|[]]. exact Ht.
Qed.

(** ** C5 *)

Lemma flat_map_all_nil {A B : Type} (f : A -> list B) (l : list A) :
  (forall x, In x l -> f x = []) -> flat_map f l = [].
Proof.
  induction l as [|x l IH]; intros H; [reflexivity|].
  simpl. rewrite (H x (or_introl eq_refl)). apply IH.
  intros y Hy. apply H. right. exact Hy.
Qed.

Lemma identify_sections_lookup (pages : list text) (i : nat) (s : section) :
  identify_sections pages !! i = Some s ->
  let combined_text := join [nl] pages in
  let positions := sort_by_pos (find_positions combined_text) in
  exists pos name,
    positions !! i = Some (pos, name)
    /\ s = (name,
            strip (slice combined_text pos
                     match positions !! (i + 1) with
                     | Some next => fst next
                     | None => length combined_text
                     end),
            find_page pages pos 0 0, pos).
Proof.
  intros H combined_text positions. unfold identify_sections in H.
  fold combined_text in H. fold positions in H.
  rewrite list_lookup_imap in H.
  destruct (positions !! i) as [[pos name]|] eqn:Ei; [|discriminate].
  simpl in H. injection H as <-. exists pos, name. split; [reflexivity|].
  destruct (i <? length positions - 1) eqn:E; [reflexivity|].
  apply Nat.ltb_ge in E. apply lookup_lt_Some in Ei.
  rewrite (proj2 (lookup_ge_None positions (i + 1))) by lia. reflexivity.
Qed.

Lemma span_end_positions (pages : list text) (i : nat) :
  let combined_text := join [nl] pages in
  let positions := sort_by_pos (find_positions combined_text) in
  span_end (identify_sections pages) combined_text i
  = match positions !! (i + 1) with
    | Some next => fst next
    | None => length combined_text
    end.
Proof.
  intros combined_text positions. unfold span_end.
  destruct (identify_sections pages !! (i + 1)) as [s|] eqn:E.
  - apply identify_sections_lookup in E.
    destruct E as (pos & name & Hp & ->). fold combined_text positions in Hp.
    rewrite Hp. reflexivity.
  - unfold identify_sections in E. fold combined_text positions in E.
    rewrite list_lookup_imap in E.
    destruct (positions !! (i + 1)) as [[pos name]|]; [discriminate | reflexivity].
Qed.

(** C5, as the code has it: [identify_sections] returns the sections in
    ascending order of their start offsets; the text of each section is
    the slice of the newline-joined pages from its start offset to the
    start offset of the next section, or to the end of the joined text
    for the last section, with the surrounding whitespace stripped, so
    the spans are contiguous, do not overlap and end at the end of the
    text; and the result is empty when no heading pattern matches. *)
Theorem C5_sections_tile_the_text (pages : list text) :
  let combined_text := join [nl] pages in
  let secs := identify_sections pages in
  (forall i j a b, i < j -> secs !! i = Some a -> secs !! j = Some b ->
                   sec_start a <= sec_start b)
  /\ (forall i s, secs !! i = Some s ->
        sec_start s <= span_end secs combined_text i <= length combined_text
        /\ sec_text s
           = strip (slice combined_text (sec_start s)
                          (span_end secs combined_text i)))
  /\ ((forall r, In r SECTION_PATTERNS -> re_search r combined_text = None) ->
      secs = []).
Proof.
  intros combined_text secs.
  set (positions := sort_by_pos (find_positions combined_text)).
  assert (Hsorted : StronglySorted pos_le positions) by apply sort_by_pos_sorted.
  assert (Hbound : forall i x, positions !! i = Some x ->
                               fst x <= length combined_text).
  { intros i x Hx. apply find_positions_bound.
    apply (proj1 (sort_by_pos_In x _)).
    apply list_elem_of_In. eapply list_elem_of_lookup_2, Hx. }
  split; [|split].
  - intros i j a b Hij Ha Hb.
    apply identify_sections_lookup in Ha, Hb.
    destruct Ha as (pa & na & Ha & ->), Hb as (pb & nb & Hb & ->).
    apply (sorted_lookup positions Hsorted i j _ _ Hij Ha Hb).
  - intros i s Hs. unfold secs. rewrite span_end_positions.
    apply identify_sections_lookup in Hs.
    destruct Hs as (pos & name & Hp & ->).
    fold combined_text positions in Hp |- *.
    split; [|reflexivity]. unfold sec_start. simpl.
    destruct (positions !! (i + 1)) as [next|] eqn:En.
    + split; [|eapply Hbound, En].
      apply (sorted_lookup positions Hsorted i (i + 1) _ _ ltac:(lia) Hp En).
    + split; [|lia]. apply (Hbound i _ Hp).
  - intros Hnone. unfold secs, identify_sections.
    fold combined_text.
    assert (E : find_positions combined_text = []).
    { unfold find_positions. apply flat_map_all_nil. intros r Hr.
      rewrite (re_search_None_finditer r _ (Hnone r Hr)). reflexivity. }
    rewrite E. reflexivity.
Qed.

(** C5, as stated, fails on a page that ends in whitespace: the section
    text is stripped, so it stops before the end of the joined pages. *)
Lemma C5_counterexample : ~ last_text_reaches_end [str "AWARD "].
Proof.
  unfold last_text_reaches_end. intros H.
  specialize (H (str "AWARD", str "AWARD", 0, 0) ltac:(vm_compute; reflexivity)).
  vm_compute in H. discriminate.
Qed.

(** ** C6 *)

Lemma section_chunks_skipped (metadata : gmap string text) (s : section) :
  skipped (sec_name s) (sec_text s) = true ->
  pipeline_section_chunks metadata s = inr [].
Proof.
  destruct s as [[[name body] page] start]. intros H.
  change (skipped name body = true) in H.
  unfold pipeline_section_chunks, section_chunks. rewrite H. reflexivity.
Qed.

Lemma pipeline_section_chunks_returns (pages : list text) (filename : text)
    (s : section) :
  pipeline_section_chunks
    (<["filename" := filename]> (extract_enhanced_case_info pages)) s
  = inr (contribution
           (<["filename" := filename]> (extract_enhanced_case_info pages)) s).
Proof.
  unfold contribution.
  destruct (skipped (sec_name s) (sec_text s)) eqn:E.
  - rewrite (section_chunks_skipped _ s E). reflexivity.
  - destruct (section_chunks_not_skipped pages filename s E) as (c & -> & _).
    reflexivity.
Qed.

Lemma sections_loop_contributions (pages : list text) (filename : text)
    (secs : list section) :
  forall file_chunks,
    sections_loop (fun t => ret (clean_section_text t))
                  create_chunks_with_metadata
                  (<["filename" := filename]> (extract_enhanced_case_info pages))
                  secs file_chunks
    = inr (file_chunks
           ++ flat_map (contribution
                          (<["filename" := filename]>
                             (extract_enhanced_case_info pages))) secs).
Proof.
  induction secs as [|s secs IH]; intros file_chunks; simpl.
  - rewrite app_nil_r. reflexivity.
  - fold (pipeline_section_chunks
            (<["filename" := filename]> (extract_enhanced_case_info pages)) s).
    rewrite pipeline_section_chunks_returns. simpl.
    rewrite IH, <- app_assoc. reflexivity.
Qed.

(** C6, as the code has it: a section is skipped exactly when the length
    of its section text, heading included and surrounding whitespace
    stripped, is at most the length of its name plus 5; the test is made
    before [clean_section_text] is applied.  The chunks of a document
    are the contributions of its sections in order; a skipped section
    contributes none, and a section that is not skipped and whose cleaned
    text is not empty contributes one. *)
Theorem C6_skip_rule (pages : list text) (filename : text) :
  let metadata := <["filename" := filename]> (extract_enhanced_case_info pages) in
  (forall s, skipped (sec_name s) (sec_text s) = true
             <-> length (strip (sec_text s)) <= length (sec_name s) + 5)
  /\ (forall s, skipped (sec_name s) (sec_text s) = true ->
                contribution metadata s = [])
  /\ (forall s, skipped (sec_name s) (sec_text s) = false ->
                clean_section_text (sec_text s) <> [] ->
                length (contribution metadata s) = 1)
  /\ (forall secs,
        sections_loop (fun t => ret (clean_section_text t))
                      create_chunks_with_metadata metadata secs []
        = inr (flat_map (contribution metadata) secs)).
Proof.
  intros metadata. split; [|split; [|split]].
  - intros s. unfold skipped. apply Nat.leb_le.
  - intros s H. unfold contribution.
    rewrite (section_chunks_skipped metadata s H). reflexivity.
  - intros s H _. unfold contribution.
    destruct (section_chunks_not_skipped pages filename s H) as (c & E & _).
    fold metadata in E. rewrite E. reflexivity.
  - intros secs. apply (sections_loop_contributions pages filename secs []).
Qed.

(** C6, as stated, fails on the section of the page "AWARD\nBenefits":
    its cleaned body "Benefits" has 8 characters, at most 5 + 5, yet the
    section is not skipped and contributes a chunk. *)
Lemma C6_counterexample :
  let pages := [str "AWARD
Benefits"] in
  let metadata := <["filename" := str "case001.pdf"]>
                    (extract_enhanced_case_info pages) in
  exists s, identify_sections pages = [s]
            /\ ~ skip_rule_on_cleaned_body metadata s.
Proof.
  intros pages metadata.
  exists (str "AWARD", str "AWARD
Benefits", 0, 0).
  split; [vm_compute; reflexivity|].
  unfold skip_rule_on_cleaned_body. intros [_ H].
  assert (Hlen : length (clean_section_text (str "AWARD
Benefits")) <= length (str "AWARD") + 5) by (vm_compute; lia).
  specialize (H Hlen). revert H. unfold contribution.
  destruct (section_chunks_not_skipped pages (str "case001.pdf")
              (str "AWARD", str "AWARD
Benefits", 0, 0) eq_refl) as (c & E & _).
  fold metadata in E. rewrite E. discriminate.
Qed.

(** ** C7 *)

Lemma lstrip_head (s : text) (c : ascii) (t : text) :
  lstrip s = c :: t -> py_isspace c = false.
Proof.
  induction s as [|x s IH]; simpl; [discriminate|].
  destruct (py_isspace x) eqn:E; [exact IH|].
  intros H. injection H as <- _. exact E.
Qed.

Lemma lstrip_suffix (s : text) : exists pre, s = pre ++ lstrip s.
Proof.
  induction s as [|x s [pre IH]]; simpl; [exists []; reflexivity|].
  destruct (py_isspace x); [|exists []; reflexivity].
  exists (x :: pre). simpl. f_equal. exact IH.
Qed.

Lemma strip_last (s a : text) (c : ascii) :
  strip s = a ++ [c] -> py_isspace c = false.
Proof.
  unfold strip, rstrip. intros H.
  apply (f_equal (@rev ascii)) in H. rewrite rev_involutive, rev_app_distr in H.
  simpl in H. eapply lstrip_head, H.
Qed.

Lemma strip_head (s : text) (c : ascii) (t : text) :
  strip s = c :: t -> py_isspace c = false.
Proof.
  unfold strip, rstrip. intros H.
  apply (f_equal (@rev ascii)) in H. rewrite rev_involutive in H. simpl in H.
  destruct (lstrip_suffix (rev (lstrip s))) as [pre Hpre].
  rewrite H in Hpre. apply (f_equal (@rev ascii)) in Hpre.
  rewrite rev_involutive, !rev_app_distr, rev_involutive in Hpre.
  simpl in Hpre. eapply lstrip_head, Hpre.
Qed.

(** A stripped name that passes the validation has a space with
    characters on both sides and no lower-case character. *)
Lemma valid_name_interior_space (g : text) :
  valid_name (strip g) = true ->
  (exists a b, strip g = a ++ sp :: b /\ a <> [] /\ b <> [])
  /\ Forall (fun c => py_lower c = false) (strip g).
Proof.
  unfold valid_name, contains, isupper. intros H.
  apply andb_true_iff in H. destruct H as [Hsp Hup].
  apply andb_true_iff in Hup. destruct Hup as [Hlow _]. split.
  - apply existsb_exists in Hsp. destruct Hsp as (c & Hin & Hc).
    apply Ascii.eqb_eq in Hc. subst c.
    apply in_split in Hin. destruct Hin as (a & b & E).
    exists a, b. split; [exact E|]. split; intros ->.
    + apply strip_head in E. discriminate.
    + apply strip_last in E. discriminate.
  - apply List.Forall_forall. intros c Hc.
    rewrite forallb_forall in Hlow. apply Hlow in Hc.
    apply negb_true_iff in Hc. exact Hc.
Qed.

Lemma valid_name_rejects (name : text) :
  contains sp name = false \/ existsb py_lower name = true ->
  valid_name name = false.
Proof.
  unfold valid_name, isupper. intros [H|H].
  - rewrite H. reflexivity.
  - apply andb_false_iff. right. apply andb_false_iff. left.
    apply existsb_exists in H. destruct H as (c & Hin & Hc).
    destruct (forallb _ name) eqn:E; [|reflexivity].
    rewrite forallb_forall in E. apply E in Hin. rewrite Hc in Hin. discriminate.
Qed.

Lemma name_loop_spec (patterns : list regex) (s : text) :
  forall tried0,
    name_loop_outcome patterns s tried0 (name_loop patterns s tried0).
Proof.
  induction patterns as [|p ps IH]; intros tried0.
  - unfold name_loop_outcome. simpl. split; [constructor | lia].
  - assert (Hrej : rejected s p ->
                   name_loop_outcome ps s (S tried0) (name_loop ps s (S tried0)) ->
                   name_loop_outcome (p :: ps) s tried0 (name_loop ps s (S tried0))).
    { intros Hr. unfold name_loop_outcome.
      destruct (snd (name_loop ps s (S tried0))) as [name|].
      - intros (pre & q & post & -> & Hpre & Hc & Hv & Ht).
        exists (p :: pre), q, post. simpl. repeat split; auto. lia.
      - intros [Hall Ht]. split; [constructor; assumption | simpl; lia]. }
    simpl. unfold rejected, candidate in Hrej.
    destruct (re_search p s) as [m|] eqn:Em; simpl in Hrej.
    + destruct (valid_name (strip (group1 m))) eqn:Ev.
      * unfold name_loop_outcome. simpl.
        exists [], p, ps. unfold candidate. rewrite Em. simpl.
        repeat split; auto. lia.
      * apply Hrej; [reflexivity | apply IH].
    + apply Hrej; [exact I | apply IH].
Qed.

Lemma extract_case_info_names (s : text) :
  extract_case_info s !! "claimant_name"
  = Some (default Unknown (snd (name_loop CLAIMANT_PATTERNS s 0)))
  /\ extract_case_info s !! "respondent_name"
     = Some (default Unknown (snd (name_loop RESPONDENT_PATTERNS s 0))).
Proof.
  unfold extract_case_info.
  destruct (snd (name_loop CLAIMANT_PATTERNS s 0)),
           (docket_loop DOCKET_PATTERNS s),
           (snd (name_loop RESPONDENT_PATTERNS s 0));
    simpl; split; simplify_map_eq; reflexivity.
Qed.

(** C7: in [extract_case_info] the claimant and respondent fields are set
    by the loop [name_loop].  A candidate without a space or with a
    lower-case character fails the validation, and an accepted one has a
    space between other characters and no lower-case character; the loop
    passes over every pattern whose candidate fails, so the field comes
    from a later pattern or stays "Unknown"; and it stops at the first
    pattern whose candidate passes, having tried exactly the patterns up
    to that one. *)
Theorem C7_name_validation (s : text) :
  (forall name,
      contains sp name = false \/ existsb py_lower name = true ->
      valid_name name = false)
  /\ (forall pattern name,
        candidate pattern s = Some name -> valid_name name = true ->
        (exists a b, name = a ++ sp :: b /\ a <> [] /\ b <> [])
        /\ Forall (fun c => py_lower c = false) name)
  /\ name_loop_outcome CLAIMANT_PATTERNS s 0 (name_loop CLAIMANT_PATTERNS s 0)
  /\ name_loop_outcome RESPONDENT_PATTERNS s 0 (name_loop RESPONDENT_PATTERNS s 0)
  /\ extract_case_info s !! "claimant_name"
     = Some (default Unknown (snd (name_loop CLAIMANT_PATTERNS s 0)))
  /\ extract_case_info s !! "respondent_name"
     = Some (default Unknown (snd (name_loop RESPONDENT_PATTERNS s 0))).
Proof.
  split; [exact valid_name_rejects|].
  split.
  { intros pattern name Hc Hv. unfold candidate in Hc.
    destruct (re_search pattern s) as [m|]; [|discriminate].
    simpl in Hc. injection Hc as <-. apply valid_name_interior_space, Hv. }
  split; [apply name_loop_spec|].
  split; [apply name_loop_spec|].
  apply extract_case_info_names.
Qed.

(** ** C8 *)

Section ProcessPdfFileFacts.
Variable extract_text : text -> M (list text).
Variable case_info : list text -> M (gmap string text).
Variable find_sections : list text -> M (list section).
Variable clean_text : text -> M text.
Variable make_chunks : text -> text -> gmap string text -> Z -> M (list chunk).
Variable format_exc : exn -> text.

Lemma section_raises_chunks (metadata : gmap string text) (s : section)
    (e : exn) :
  section_raises clean_text make_chunks metadata s e ->
  section_chunks clean_text make_chunks metadata s = inl e.
Proof.
  destruct s as [[[name body] page] start].
  unfold section_raises, sec_name, sec_text. simpl.
  intros [Hskip H]. rewrite Hskip.
  destruct H as [->|(cleaned & -> & H)]; [reflexivity | exact H].
Qed.

Lemma sections_loop_raises (metadata : gmap string text)
    (before : list section) (s : section) (after : list section) (e : exn) :
  Forall (fun s' => exists cs,
            section_chunks clean_text make_chunks metadata s' = inr cs) before ->
  section_chunks clean_text make_chunks metadata s = inl e ->
  forall file_chunks,
    sections_loop clean_text make_chunks metadata (before ++ s :: after)
                  file_chunks = inl e.
Proof.
  intros Hb Hs. induction Hb as [|s' before [cs Hcs] _ IH]; intros file_chunks.
  - simpl. rewrite Hs. reflexivity.
  - simpl. rewrite Hcs. simpl. apply IH.
Qed.

Lemma step_raises_body (pdf_path : text) (e : exn) :
  step_raises extract_text case_info find_sections clean_text make_chunks
              pdf_path e ->
  process_pdf_body extract_text case_info find_sections clean_text make_chunks
                   pdf_path = inl e.
Proof.
  unfold step_raises, process_pdf_body.
  intros [->|(pages & -> & H)]; [reflexivity|]. simpl.
  destruct H as [->|(info & -> & H)]; [reflexivity|]. simpl.
  destruct H as [->|(before & s & after & -> & Hb & Hs)]; [reflexivity|].
  simpl. apply section_raises_chunks in Hs.
  rewrite (sections_loop_raises _ before s after e Hb Hs). reflexivity.
Qed.

Lemma process_pdf_file_with_returns (pdf_path : text) :
  (exists filename chunks metadata,
      process_pdf_body extract_text case_info find_sections clean_text
                       make_chunks pdf_path
      = inr (Success filename chunks metadata)
      /\ process_pdf_file_with extract_text case_info find_sections clean_text
                               make_chunks format_exc pdf_path
         = inr (Success filename chunks metadata))
  \/ (exists e,
        process_pdf_body extract_text case_info find_sections clean_text
                         make_chunks pdf_path = inl e
        /\ process_pdf_file_with extract_text case_info find_sections clean_text
                                 make_chunks format_exc pdf_path
           = inr (Failed (basename pdf_path) (exn_str e) (format_exc e))).
Proof.
  unfold process_pdf_file_with.
  destruct (process_pdf_body _ _ _ _ _ pdf_path) as [e|r] eqn:E.
  - right. exists e. auto.
  - left. unfold process_pdf_body in E.
    destruct (extract_text pdf_path) as [?|pages]; [discriminate|]. simpl in E.
    destruct (case_info pages) as [?|info]; [discriminate|]. simpl in E.
    destruct (find_sections pages) as [?|secs]; [discriminate|]. simpl in E.
    destruct (sections_loop _ _ _ secs []) as [?|cs]; [discriminate|].
    simpl in E. injection E as <-. eauto.
Qed.
End ProcessPdfFileFacts.

Lemma map_M_returns {A B : Type} (f : A -> M B) (l : list A) :
  (forall a, exists b, f a = inr b) -> exists bs, map_M f l = inr bs.
Proof.
  intros Hf. induction l as [|a l [bs IH]]; simpl; [eauto|].
  destruct (Hf a) as [b ->]. simpl. rewrite IH. simpl. eauto.
Qed.

(** C8: whatever the steps of [process_pdf_file] do, the call returns a
    result and raises nothing.  An exception raised by the extraction,
    the metadata derivation, the section identification, the cleaning or
    the chunking becomes the returned error result, which carries the
    base name of the path, the message of the exception and its formatted
    trace.  So [process_pdf_file] returns on every path, an extraction
    failure gives an error result, and the batch run over a directory
    returns as well. *)
Theorem C8_process_pdf_file_never_raises
    (extract_text : text -> M (list text))
    (case_info : list text -> M (gmap string text))
    (find_sections : list text -> M (list section))
    (clean_text : text -> M text)
    (make_chunks : text -> text -> gmap string text -> Z -> M (list chunk))
    (read_pdf : text -> M (list text))
    (format_exc : exn -> text) (pdf_path : text) :
  (exists r, process_pdf_file_with extract_text case_info find_sections
               clean_text make_chunks format_exc pdf_path = inr r)
  /\ (forall e,
        step_raises extract_text case_info find_sections clean_text make_chunks
                    pdf_path e ->
        process_pdf_file_with extract_text case_info find_sections clean_text
                              make_chunks format_exc pdf_path
        = inr (Failed (basename pdf_path) (exn_str e) (format_exc e)))
  /\ (exists r, process_pdf_file read_pdf format_exc pdf_path = inr r)
  /\ (forall e,
        read_pdf pdf_path = inl e ->
        exists msg,
          process_pdf_file read_pdf format_exc pdf_path
          = inr (Failed (basename pdf_path) msg (format_exc (IOError msg)))
          /\ msg = str "Error extracting text from PDF " ++ pdf_path
                   ++ str ": " ++ exn_str e)
  /\ (forall listing fs directory resume pattern,
        exists r, process_directory read_pdf format_exc listing fs directory
                                    resume pattern = inr r).
Proof.
  assert (Hret : forall ex ci fi cl mk p,
             exists r, process_pdf_file_with ex ci fi cl mk format_exc p = inr r).
  { intros ex ci fi cl mk p.
    destruct (process_pdf_file_with_returns ex ci fi cl mk format_exc p)
      as [(f & cs & md & _ & ->)|(e & _ & ->)]; eauto. }
  split; [apply Hret|]. split.
  { intros e He. unfold process_pdf_file_with.
    rewrite (step_raises_body _ _ _ _ _ pdf_path e He). reflexivity. }
  split; [apply Hret|]. split.
  { intros e He. eexists. split; [|reflexivity].
    unfold process_pdf_file, process_pdf_file_with, process_pdf_body,
      extract_text_from_pdf.
    rewrite He. reflexivity. }
  intros listing fs directory resume pattern. unfold process_directory.
  destruct (is_nil _); [eauto|].
  destruct (map_M_returns (process_pdf_file read_pdf format_exc)
              (files_to_process listing (output_file fs) directory resume pattern))
    as [bs ->]; [intros a; apply Hret|].
  simpl. eauto.
Qed.

(** ** C9 *)

Lemma read_filenames_mono (lines : jsonl) :
  forall (acc : gset text) f, f ∈ acc -> f ∈ read_filenames lines acc.
Proof.
  induction lines as [|[c|] lines IH]; intros acc f Hf; simpl; [assumption| |assumption].
  destruct (chunk_metadata c !! "filename") as [[g|n]|]; [| |assumption].
  - apply IH. set_solver.
  - apply IH, Hf.
Qed.

Lemma read_filenames_readable (before : jsonl) (c : chunk) (after : jsonl)
    (f : text) :
  Forall readable before ->
  chunk_metadata c !! "filename" = Some (VStr f) ->
  forall acc : gset text, f ∈ read_filenames (before ++ Some c :: after) acc.
Proof.
  intros Hb Hc. induction Hb as [|line before (c' & -> & [v Hv]) _ IH];
    intros acc; simpl.
  - rewrite Hc. apply read_filenames_mono. set_solver.
  - rewrite Hv. destruct v; apply IH.
Qed.

Lemma files_to_process_spec (listing : list text) (existing : option jsonl)
    (directory : text) (resume : bool) (pattern : option regex) (path : text) :
  In path (files_to_process listing existing directory resume pattern)
  <-> In path (find_pdf_files listing directory pattern)
      /\ basename path ∉ (if resume then get_processed_files existing else ∅).
Proof.
  unfold files_to_process.
  rewrite <- !list_elem_of_In, list_elem_of_filter. tauto.
Qed.

(** C9, as the code has it: with resume enabled, a file is left out of
    the run when its base name is the [metadata.filename] of a record of
    the existing output file that no unreadable line precedes, which is
    every record when all lines are readable, whether or not the file
    still matches the directory scan and the filter pattern; and the
    output file after the run is the existing one with the new chunks
    appended. *)
Theorem C9_resume_skips_and_appends
    (read_pdf : text -> M (list text)) (format_exc : exn -> text)
    (listing : list text) (directory : text) (pattern : option regex) :
  (forall before c after path,
      Forall readable before ->
      chunk_metadata c !! "filename" = Some (VStr (basename path)) ->
      ~ In path (files_to_process listing (Some (before ++ Some c :: after))
                                  directory true pattern))
  /\ (forall existing path,
        In path (files_to_process listing existing directory true pattern) ->
        In path (find_pdf_files listing directory pattern))
  /\ (forall fs files chunks fs',
        process_directory read_pdf format_exc listing fs directory true pattern
        = inr (files, chunks, fs') ->
        exists new_chunks,
          default [] (output_file fs')
          = default [] (output_file fs) ++ map Some new_chunks
          /\ chunks = length new_chunks).
Proof.
  split; [|split].
  - intros before c after path Hb Hc Hin.
    apply files_to_process_spec in Hin. destruct Hin as [_ Hnot].
    apply Hnot. simpl. apply read_filenames_readable; assumption.
  - intros existing path Hin. apply files_to_process_spec in Hin. tauto.
  - intros fs files chunks fs' H. unfold process_directory in H.
    destruct (is_nil _).
    + injection H as <- <- <-. exists []. simpl. rewrite app_nil_r. auto.
    + destruct (map_M _ _) as [e|results]; [discriminate|].
      simpl in H. injection H as <- <- <-.
      exists (flat_map result_chunks results). simpl. auto.
Qed.

(** C9, as stated, fails when an unreadable line comes before the record:
    the file that the record names is processed again. *)
Lemma C9_counterexample :
  ~ resume_skips_recorded
      [str "case001.pdf"]
      [None;
       Some (Chunk (str "Case: 1") {[ "filename" := VStr (str "case001.pdf") ]})]
      (str "decisions") None.
Proof.
  unfold resume_skips_recorded. intros H.
  apply (H (str "decisions/case001.pdf")
           (Chunk (str "Case: 1") {[ "filename" := VStr (str "case001.pdf") ]})).
  - right. left. reflexivity.
  - vm_compute. reflexivity.
  - apply files_to_process_spec. split.
    + vm_compute. left. reflexivity.
    + simpl. set_solver.
Qed.

(** * Further properties of the modules *)

(** ** chunking.py: [create_chunks_with_metadata] *)

Lemma make_chunk_fields section_name (metadata : gmap string text) count i body
    docket claimant :
  metadata !! "docket_number" = Some docket ->
  metadata !! "claimant_name" = Some claimant ->
  exists c, make_chunk section_name metadata count i body = inr c
            /\ chunk_text c = format_chunk docket claimant section_name body
            /\ chunk_metadata c !! "docket_number" = Some (VStr docket)
            /\ chunk_metadata c !! "claimant_name" = Some (VStr claimant)
            /\ chunk_metadata c !! "section" = Some (VStr section_name)
            /\ chunk_metadata c !! "chunk_index" = Some (VInt (Z.of_nat i))
            /\ chunk_metadata c !! "chunk_count" = Some (VInt (Z.of_nat count))
            /\ chunk_metadata c !! "filename"
               = Some (VStr (default (str "unknown") (metadata !! "filename")))
            /\ chunk_metadata c !! "respondent_name" = respondent_entry metadata.
Proof.
  intros Hd Hc. unfold make_chunk, getitem, respondent_entry. rewrite Hd, Hc. simpl.
  eexists. split; [reflexivity|]. simpl. split; [reflexivity|].
  destruct (metadata !! "respondent_name") as [r|]; [destruct (bool_decide _)|];
    repeat split; simplify_map_eq; reflexivity.
Qed.

Lemma for_each_make_chunk section_name (metadata : gmap string text) count
    docket claimant (bodies : list text) :
  metadata !! "docket_number" = Some docket ->
  metadata !! "claimant_name" = Some claimant ->
  forall i, exists cs,
    for_each (make_chunk section_name metadata count) i bodies = inr cs
    /\ length cs = length bodies
    /\ forall j body, bodies !! j = Some body ->
         exists c, cs !! j = Some c
                   /\ make_chunk section_name metadata count (i + j) body = inr c.
Proof.
  intros Hd Hc. induction bodies as [|b bodies IH]; intros i; simpl.
  - exists []. repeat split. intros j body H. discriminate.
  - destruct (make_chunk_fields section_name metadata count i b docket claimant
                Hd Hc) as (c & Ec & _).
    destruct (IH (S i)) as (cs & Ecs & Hlen & Hcs).
    rewrite Ec. simpl. rewrite Ecs. simpl. exists (c :: cs).
    repeat split; [simpl; lia|].
    intros [|j] body H; simpl in *.
    + injection H as <-. exists c. rewrite Nat.add_0_r. auto.
    + destruct (Hcs j body H) as (c' & Hc' & Em). exists c'.
      replace (i + S j) with (S i + j) by lia. auto.
Qed.

Lemma create_logical_chunks_not_nil (s : text) (max_tokens : Z) :
  create_logical_chunks s max_tokens <> [].
Proof.
  destruct (create_logical_chunks_groups s max_tokens) as (G & -> & Hc & _).
  intros E. apply map_eq_nil in E. subst G. simpl in Hc.
  rewrite re_split_PARA_SEP in Hc. symmetry in Hc.
  exact (para_scan_not_nil s 0 Hc).
Qed.

(** X1: with the two required keys in the document metadata,
    [create_chunks_with_metadata] returns one chunk per chunk body of
    [create_logical_chunks], in the same order; chunk [i] has the
    formatted text of body [i], [chunk_index] [i], [chunk_count] the
    number of bodies, and the docket, claimant and section labels. *)
Theorem X1_chunks_numbered_in_order section_name section_text
    (metadata : gmap string text) (max_tokens : Z) docket claimant :
  metadata !! "docket_number" = Some docket ->
  metadata !! "claimant_name" = Some claimant ->
  let bodies := create_logical_chunks section_text max_tokens in
  exists cs,
    create_chunks_with_metadata section_name section_text metadata max_tokens
    = inr cs
    /\ length cs = length bodies
    /\ forall i body, bodies !! i = Some body ->
         exists c,
           cs !! i = Some c
           /\ chunk_text c = format_chunk docket claimant section_name body
           /\ chunk_metadata c !! "chunk_index" = Some (VInt (Z.of_nat i))
           /\ chunk_metadata c !! "chunk_count"
              = Some (VInt (Z.of_nat (length bodies)))
           /\ chunk_metadata c !! "section" = Some (VStr section_name)
           /\ chunk_metadata c !! "docket_number" = Some (VStr docket)
           /\ chunk_metadata c !! "claimant_name" = Some (VStr claimant).
Proof.
  intros Hd Hc bodies. unfold create_chunks_with_metadata. fold bodies.
  destruct (for_each_make_chunk section_name metadata (length bodies) docket
              claimant bodies Hd Hc 0) as (cs & -> & Hlen & Hcs).
  exists cs. repeat split; [exact Hlen|].
  intros i body Hb. destruct (Hcs i body Hb) as (c & Hi & Em). simpl in Em.
  destruct (make_chunk_fields section_name metadata (length bodies) i body
              docket claimant Hd Hc) as (c' & Em' & Ht & H1 & H2 & H3 & H4 & H5 & _).
  rewrite Em in Em'. injection Em' as <-. exists c. repeat split; assumption.
Qed.

Lemma X1_witness :
  exists cs,
    create_chunks_with_metadata (str "AWARD") (str "Benefits are granted.

The respondent shall pay.")
      (<["docket_number" := str "123,456"]>
         (<["claimant_name" := str "JOHN DOE"]> ∅)) 3 = inr cs
    /\ length cs = 2.
Proof.
  set (md := <["docket_number" := str "123,456"]>
               (<["claimant_name" := str "JOHN DOE"]> (∅ : gmap string text))).
  assert (Hd : md !! "docket_number" = Some (str "123,456"))
    by (vm_compute; reflexivity).
  assert (Hc : md !! "claimant_name" = Some (str "JOHN DOE"))
    by (vm_compute; reflexivity).
  destruct (X1_chunks_numbered_in_order (str "AWARD") (str "Benefits are granted.

The respondent shall pay.") md 3 (str "123,456") (str "JOHN DOE") Hd Hc)
    as (cs & E & Hlen & _).
  exists cs. split; [exact E|]. rewrite Hlen. vm_compute. reflexivity.
Defined.

(** X2: a document metadata dict without ["docket_number"] makes
    [create_chunks_with_metadata] raise [KeyError('docket_number')] on
    every section text, the empty one included, because the chunker
    never returns an empty list; with the docket present and
    ["claimant_name"] missing it raises [KeyError('claimant_name')]. *)
Theorem X2_missing_key_raises section_name section_text
    (metadata : gmap string text) (max_tokens : Z) :
  (metadata !! "docket_number" = None ->
   create_chunks_with_metadata section_name section_text metadata max_tokens
   = inl (KeyError "docket_number"))
  /\ (is_Some (metadata !! "docket_number") ->
      metadata !! "claimant_name" = None ->
      create_chunks_with_metadata section_name section_text metadata max_tokens
      = inl (KeyError "claimant_name")).
Proof.
  unfold create_chunks_with_metadata.
  pose proof (create_logical_chunks_not_nil section_text max_tokens) as Hne.
  destruct (create_logical_chunks section_text max_tokens) as [|b bs];
    [contradiction|].
  split.
  - intros Hd. simpl. unfold make_chunk, getitem. rewrite Hd. reflexivity.
  - intros [d Hd] Hc. simpl. unfold make_chunk, getitem. rewrite Hd, Hc.
    reflexivity.
Qed.

Lemma created_chunks_fields section_name section_text
    (metadata : gmap string text) (max_tokens : Z) (cs : list chunk) :
  create_chunks_with_metadata section_name section_text metadata max_tokens
  = inr cs ->
  Forall (fun c =>
            chunk_metadata c !! "filename"
            = Some (VStr (default (str "unknown") (metadata !! "filename")))
            /\ chunk_metadata c !! "respondent_name"
               = respondent_entry metadata) cs.
Proof.
  unfold create_chunks_with_metadata. intros H.
  pose proof (create_logical_chunks_not_nil section_text max_tokens) as Hne.
  destruct (metadata !! "docket_number") as [d|] eqn:Hd.
  2:{ destruct (create_logical_chunks section_text max_tokens); [contradiction|].
      simpl in H. unfold make_chunk, getitem in H. rewrite Hd in H. discriminate. }
  destruct (metadata !! "claimant_name") as [cl|] eqn:Hc.
  2:{ destruct (create_logical_chunks section_text max_tokens); [contradiction|].
      simpl in H. unfold make_chunk, getitem in H. rewrite Hd, Hc in H.
      discriminate. }
  destruct (for_each_make_chunk section_name metadata
              (length (create_logical_chunks section_text max_tokens)) d cl
              (create_logical_chunks section_text max_tokens) Hd Hc 0)
    as (cs' & E & Hlen & Hcs).
  rewrite E in H. injection H as <-.
  apply Forall_lookup_2. intros i c Hi.
  assert (Hlt : i < length (create_logical_chunks section_text max_tokens)).
  { rewrite <- Hlen. eapply lookup_lt_Some, Hi. }
  destruct (lookup_lt_is_Some_2 _ _ Hlt) as [body Hb].
  destruct (Hcs i body Hb) as (c' & Hi' & Em). rewrite Hi in Hi'.
  injection Hi' as <-.
  destruct (make_chunk_fields section_name metadata
              (length (create_logical_chunks section_text max_tokens)) (0 + i)
              body d cl Hd Hc) as (c'' & Em' & _ & _ & _ & _ & _ & _ & Hf & Hr).
  rewrite Em in Em'. injection Em' as <-. auto.
Qed.

(** X3: every chunk of [create_chunks_with_metadata] carries the
    document's ["filename"], or ["unknown"] when the metadata has none,
    and carries ["respondent_name"] exactly when the metadata has one
    that is not ["Unknown"]. *)
Theorem X3_filename_and_respondent section_name section_text
    (metadata : gmap string text) (max_tokens : Z) (cs : list chunk) :
  create_chunks_with_metadata section_name section_text metadata max_tokens
  = inr cs ->
  Forall (fun c =>
            chunk_metadata c !! "filename"
            = Some (VStr (default (str "unknown") (metadata !! "filename")))
            /\ chunk_metadata c !! "respondent_name"
               = respondent_entry metadata) cs.
Proof. apply created_chunks_fields. Qed.

Lemma X3_witness :
  exists c,
    create_chunks_with_metadata (str "AWARD") (str "Benefits are granted.")
      (<["docket_number" := str "123,456"]>
         (<["claimant_name" := str "JOHN DOE"]>
            (<["respondent_name" := Unknown]> ∅))) 800 = inr [c]
    /\ chunk_metadata c !! "filename" = Some (VStr (str "unknown"))
    /\ chunk_metadata c !! "respondent_name" = None.
Proof.
  set (md := <["docket_number" := str "123,456"]>
               (<["claimant_name" := str "JOHN DOE"]>
                  (<["respondent_name" := Unknown]> (∅ : gmap string text)))).
  destruct (create_chunks_with_metadata (str "AWARD")
              (str "Benefits are granted.") md 800) as [e|cs] eqn:E;
    [vm_compute in E; discriminate|].
  pose proof (X3_filename_and_respondent _ _ _ _ cs E) as H.
  destruct cs as [|c [|c' cs]]; [vm_compute in E; discriminate | |
                                 vm_compute in E; discriminate].
  exists c. split; [reflexivity|].
  inversion H as [|? ? [Hf Hr] _]; subst. split; [exact Hf | exact Hr].
Defined.

(** ** chunking.py: [create_logical_chunks] *)

Lemma sep_tail_space (l : text) :
  forall n, sep_tail l = Some n -> Forall (fun c => py_isspace c = true) (firstn n l).
Proof.
  induction l as [|x l IH]; simpl; intros n H; [discriminate|].
  destruct (py_isspace x) eqn:Ex; [|discriminate].
  destruct (sep_tail l) as [k|].
  - injection H as <-. simpl. constructor; auto.
  - destruct (is_nl x); [|discriminate]. injection H as <-. simpl.
    constructor; [exact Ex|]. rewrite firstn_0. constructor.
Qed.

Lemma sep_len_space (l : text) (n : nat) :
  sep_len l = Some n -> Forall (fun c => py_isspace c = true) (firstn n l).
Proof.
  destruct l as [|x l]; simpl; [discriminate|].
  destruct (is_nl x) eqn:Ex; [|discriminate].
  destruct (sep_tail l) as [k|] eqn:Ek; [|discriminate].
  intros H. injection H as <-. simpl. constructor.
  - apply nl_is_space, Ex.
  - apply sep_tail_space, Ek.
Qed.

Lemma words_in_spaces (ws : text) :
  Forall (fun c => py_isspace c = true) ws ->
  forall b, words_in [] (ws ++ b) = words_in [] b.
Proof.
  induction 1 as [|c ws Hc _ IH]; intros b; simpl; [reflexivity|].
  rewrite Hc. apply IH.
Qed.

Lemma py_split_app_spaces (a ws b : text) :
  ws <> [] -> Forall (fun c => py_isspace c = true) ws ->
  py_split (a ++ ws ++ b) = py_split a ++ py_split b.
Proof.
  intros Hne Hws. destruct ws as [|c ws]; [contradiction|].
  inversion Hws as [|? ? Hc Hws']; subst. unfold py_split.
  change (a ++ (c :: ws) ++ b) with (a ++ c :: (ws ++ b)).
  rewrite (words_in_app_space a (ws ++ b) c Hc).
  rewrite (words_in_spaces ws Hws'). reflexivity.
Qed.

(** The paragraphs hold the words of the text: the separators are
    whitespace. *)
Lemma word_count_paragraphs (s : text) :
  word_count s = total_words (re_split PARA_SEP s).
Proof.
  rewrite re_split_PARA_SEP.
  remember (length s) as k eqn:Hk. revert s Hk.
  induction k as [k IH] using lt_wf_ind. intros s Hk.
  destruct (para_scan 0 s) as [|p Q] eqn:E; [exfalso; eapply para_scan_not_nil, E|].
  destruct (para_scan_first s p Q E)
    as [(-> & -> & _)|(rest & n & -> & _ & Hs & Hq)].
  - simpl. lia.
  - pose proof (sep_len_le rest n Hs) as Hn.
    pose proof (sep_len_space rest n Hs) as Hws.
    rewrite <- (firstn_skipn n rest) at 1.
    unfold word_count at 1.
    rewrite py_split_app_spaces; [| |exact Hws].
    2:{ intros E0. apply (f_equal (@length ascii)) in E0.
        rewrite firstn_length_le in E0 by lia. simpl in E0. lia. }
    rewrite length_app, Nat2Z.inj_add. simpl. fold (word_count p).
    fold (word_count (skipn n rest)).
    rewrite (IH (length (skipn n rest))) with (s := skipn n rest);
      [rewrite Hq; reflexivity | | reflexivity].
    subst k. rewrite length_app, length_skipn. lia.
Qed.

Lemma fold_add_paragraph_fits (max_tokens : Z) (ps : list text) :
  forall st,
    (current_size st + total_words ps <= max_tokens)%Z ->
    fold_left (add_paragraph max_tokens) ps st
    = Chunker (chunks st) (current_chunk st ++ ps)
              (current_size st + total_words ps)%Z.
Proof.
  induction ps as [|p ps IH]; intros st H; simpl in *.
  - rewrite app_nil_r, Z.add_0_r. destruct st; reflexivity.
  - pose proof (word_count_nonneg p).
    assert (Hps : (0 <= total_words ps)%Z).
    { clear. induction ps as [|q ps IHq]; simpl; [lia|].
      pose proof (word_count_nonneg q). lia. }
    unfold add_paragraph at 2. fold (word_count p).
    replace (max_tokens <? current_size st + word_count p)%Z with false
      by (symmetry; apply Z.ltb_ge; lia).
    simpl. rewrite IH by (simpl; lia). simpl.
    rewrite <- app_assoc. f_equal. lia.
Qed.

(** X4: a text whose word count does not exceed [max_tokens] comes back
    as exactly one chunk, the blank-line join of its paragraphs. *)
Theorem X4_short_text_is_one_chunk (s : text) (max_tokens : Z) :
  (word_count s <= max_tokens)%Z ->
  create_logical_chunks s max_tokens = [join blank_line (re_split PARA_SEP s)].
Proof.
  intros H. rewrite word_count_paragraphs in H.
  unfold create_logical_chunks.
  rewrite fold_add_paragraph_fits by (simpl; lia). simpl.
  pose proof (para_scan_not_nil s 0) as Hne. rewrite <- re_split_PARA_SEP in Hne.
  destruct (re_split PARA_SEP s); [contradiction | reflexivity].
Qed.

Lemma X4_witness :
  create_logical_chunks (str "one two

 three
four") 4
  = [str "one two

 three
four"].
Proof.
  rewrite (X4_short_text_is_one_chunk (str "one two

 three
four") 4 ltac:(vm_compute; discriminate)).
  vm_compute. reflexivity.
Defined.

Lemma tight_grow (max_tokens : Z) (p : text) (cur : list text) :
  cur <> [] ->
  forall G, tight max_tokens (G ++ [cur]) -> tight max_tokens (G ++ [cur ++ [p]]).
Proof.
  intros Hcur. induction G as [|g G IH]; intros H; [exact I|].
  destruct G as [|g2 G].
  - simpl in *. destruct cur as [|q cur]; [contradiction|]. exact H.
  - change (tight max_tokens (g :: g2 :: (G ++ [cur]))) in H.
    change (tight max_tokens (g :: g2 :: (G ++ [cur ++ [p]]))).
    destruct H as [H1 H2]. split; [exact H1|]. apply IH. exact H2.
Qed.

Lemma tight_close (max_tokens : Z) (p : text) (cur : list text) :
  (max_tokens < word_count (join blank_line cur) + word_count p)%Z ->
  forall G, tight max_tokens (G ++ [cur]) ->
            tight max_tokens ((G ++ [cur]) ++ [[p]]).
Proof.
  intros Hlink. induction G as [|g G IH]; intros H.
  - simpl. auto.
  - destruct G as [|g2 G].
    + simpl in *. destruct H as [H1 _]. auto.
    + change (tight max_tokens (g :: g2 :: (G ++ [cur]))) in H.
      change (tight max_tokens (g :: g2 :: ((G ++ [cur]) ++ [[p]]))).
      destruct H as [H1 H2]. split; [exact H1|]. apply IH. exact H2.
Qed.

Lemma add_paragraph_tight (max_tokens : Z) (G : list (list text)) (st : chunker)
    (para : text) :
  chunker_tight max_tokens G st ->
  exists G',
    chunker_tight max_tokens G' (add_paragraph max_tokens st para)
    /\ concat G' ++ current_chunk (add_paragraph max_tokens st para)
       = concat G ++ current_chunk st ++ [para]
    /\ current_chunk (add_paragraph max_tokens st para) <> [].
Proof.
  intros (Hch & Hsz & Ht & Hne & Hnil). unfold add_paragraph.
  fold (word_count para).
  destruct ((max_tokens <? current_size st + word_count para)%Z
            && negb (is_nil (current_chunk st))) eqn:E.
  - apply andb_true_iff in E. destruct E as [Hlt Hc].
    apply Z.ltb_lt in Hlt.
    assert (Hcur : current_chunk st <> [])
      by (destruct (current_chunk st); discriminate).
    exists (G ++ [current_chunk st]). unfold chunker_tight. simpl.
    split; [|split].
    + split; [rewrite Hch, map_app; reflexivity|].
      split; [reflexivity|].
      split; [apply tight_close; [rewrite <- Hsz; exact Hlt | exact Ht]|].
      split; [|discriminate].
      apply Forall_app. split; [exact Hne | repeat constructor; exact Hcur].
    + rewrite concat_app. simpl. rewrite app_nil_r, <- app_assoc. reflexivity.
    + discriminate.
  - exists G. unfold chunker_tight. simpl. split; [|split].
    + split; [exact Hch|]. split.
      { destruct (current_chunk st) as [|q cur] eqn:Ec.
        - simpl in *. rewrite Hsz. reflexivity.
        - rewrite join_snoc by discriminate.
          rewrite word_count_blank_line, Hsz. reflexivity. }
      split.
      { destruct (current_chunk st) as [|q cur] eqn:Ec.
        - rewrite (Hnil eq_refl). exact I.
        - apply tight_grow; [discriminate | exact Ht]. }
      split; [exact Hne|].
      intros E0. destruct (current_chunk st); discriminate.
    + reflexivity.
    + destruct (current_chunk st); discriminate.
Qed.

Lemma fold_add_paragraph_tight (max_tokens : Z) (paragraphs : list text) :
  forall G st,
    chunker_tight max_tokens G st ->
    exists G',
      let st' := fold_left (add_paragraph max_tokens) paragraphs st in
      chunker_tight max_tokens G' st'
      /\ concat G' ++ current_chunk st'
         = concat G ++ current_chunk st ++ paragraphs.
Proof.
  induction paragraphs as [|para ps IH]; intros G st Hinv.
  - exists G. simpl. rewrite app_nil_r. split; [exact Hinv | reflexivity].
  - destruct (add_paragraph_tight max_tokens G st para Hinv) as (G1 & H1 & Hc1 & _).
    destruct (IH G1 _ H1) as (G' & H' & Hc').
    exists G'. simpl in *. split; [exact H'|].
    rewrite Hc', app_assoc, Hc1, <- !app_assoc. reflexivity.
Qed.

Lemma tight_lookup (max_tokens : Z) (groups : list (list text)) :
  tight max_tokens groups ->
  forall i g p g', groups !! i = Some g -> groups !! (S i) = Some (p :: g') ->
    (max_tokens < word_count (join blank_line g) + word_count p)%Z.
Proof.
  induction groups as [|a groups IH]; intros H i g p g' Hg Hn; [discriminate|].
  destruct groups as [|b groups]; [discriminate|].
  destruct H as [H1 H2]. destruct i as [|i]; simpl in Hg, Hn.
  - injection Hg as <-. injection Hn as ->. exact H1.
  - apply (IH H2 i g p g' Hg Hn).
Qed.

(** X5: the chunks are filled greedily.  They are the joins of
    consecutive non-empty groups of the paragraphs, and a chunk was
    closed only because the first paragraph of the next chunk would
    have taken it past [max_tokens]. *)
Theorem X5_chunks_are_filled_greedily (s : text) (max_tokens : Z) :
  exists groups,
    create_logical_chunks s max_tokens = map (join blank_line) groups
    /\ concat groups = re_split PARA_SEP s
    /\ Forall (fun g => g <> []) groups
    /\ forall i g p g',
         groups !! i = Some g -> groups !! (S i) = Some (p :: g') ->
         (max_tokens < word_count (join blank_line g) + word_count p)%Z.
Proof.
  unfold create_logical_chunks.
  destruct (fold_add_paragraph_tight max_tokens (re_split PARA_SEP s) []
              (Chunker [] [] 0%Z)) as (G & Hinv & Hc).
  { repeat split; simpl; auto. }
  simpl in Hc.
  set (st := fold_left (add_paragraph max_tokens) (re_split PARA_SEP s)
                       (Chunker [] [] 0%Z)) in *.
  destruct Hinv as (Hch & Hsz & Ht & Hne & Hnil).
  destruct (current_chunk st) as [|p cur] eqn:Ec; simpl.
  - exists G. rewrite app_nil_r in Hc. rewrite (Hnil eq_refl) in *.
    repeat split; auto. intros i g p g' H. discriminate.
  - exists (G ++ [p :: cur]). split; [rewrite Hch, map_app; reflexivity|].
    split; [rewrite concat_app; simpl; rewrite app_nil_r; exact Hc|].
    split; [apply Forall_app; split; [exact Hne | repeat constructor; discriminate]|].
    apply tight_lookup, Ht.
Qed.

(** ** section_processing.py: [clean_section_text] *)

Lemma span_len_le (p : ascii -> bool) (l : text) : span_len p l <= length l.
Proof. induction l as [|x l IH]; simpl; [lia|]. destruct (p x); lia. Qed.

Lemma rep_greedy (p : ascii -> bool) (l : text) :
  forall s, exists e,
    rep p 0 l s Some = Some e
    /\ c_pos e = c_pos s + span_len p l /\ c_groups e = c_groups s.
Proof.
  induction l as [|x l IH]; intros s; simpl.
  - exists s. repeat split. lia.
  - destruct (p x).
    + destruct (IH (step x l s)) as (e & -> & Hp & Hg). exists e. simpl in *.
      repeat split; [lia | assumption].
    + exists s. repeat split. lia.
Qed.

Lemma match_at_WS_RUN (pos : nat) (prev : option ascii) (l : text) :
  match_at WS_RUN pos prev l
  = match l with
    | x :: l' =>
        if py_isspace x
        then Some (Match pos (firstn (S (span_len py_isspace l')) l) [])
        else None
    | [] => None
    end.
Proof.
  unfold match_at. destruct l as [|x l]; [reflexivity|]. simpl.
  destruct (py_isspace x); [|reflexivity].
  destruct (rep_greedy py_isspace l (step x l (Cursor pos prev (x :: l) [])))
    as (e & -> & Hp & Hg). simpl in Hp, Hg. rewrite Hg.
  replace (c_pos e - pos) with (S (span_len py_isspace l)) by lia. reflexivity.
Qed.

Lemma re_sub_WS_RUN_scan (l : text) :
  forall pos prev skip,
    flat_map (fun t => match t with
                       | TMatch m => [sp]
                       | TChar c => [c]
                       end) (scan WS_RUN pos prev skip l)
    = ws_collapse skip l.
Proof.
  induction l as [|x l IH]; intros pos prev skip.
  - destruct skip; reflexivity.
  - destruct skip as [|j]; [|simpl; apply IH].
    cbn [scan ws_collapse]. rewrite match_at_WS_RUN.
    destruct (py_isspace x); simpl.
    + pose proof (span_len_le py_isspace l).
      rewrite firstn_length_le by lia. rewrite IH. reflexivity.
    + rewrite IH. reflexivity.
Qed.

Lemma re_sub_WS_RUN (s : text) :
  re_sub WS_RUN (fun _ => [sp]) s = ws_collapse 0 s.
Proof. apply re_sub_WS_RUN_scan. Qed.

Lemma ws_collapse_skip (l : text) :
  forall j, j <= length l -> ws_collapse j l = ws_collapse 0 (skipn j l).
Proof.
  induction l as [|x l IH]; intros j Hj.
  - destruct j; [reflexivity | simpl in Hj; lia].
  - destruct j as [|j]; [reflexivity|]. simpl. apply IH. simpl in Hj. lia.
Qed.

Lemma skipn_span_head (p : ascii -> bool) (l : text) (x : ascii) (r : text) :
  skipn (span_len p l) l = x :: r -> p x = false.
Proof.
  induction l as [|y l IH]; simpl; [discriminate|].
  destruct (p y) eqn:E; simpl; [exact IH|].
  intros H. injection H as <- _. exact E.
Qed.

Lemma ws_collapse_head (l : text) (x : ascii) :
  py_isspace x = false -> ws_collapse 0 (x :: l) = x :: ws_collapse 0 l.
Proof. intros H. simpl. rewrite H. reflexivity. Qed.

Lemma ws_collapse_separated (l : text) : separated (ws_collapse 0 l).
Proof.
  remember (length l) as k eqn:Hk. revert l Hk.
  induction k as [k IH] using lt_wf_ind. intros l Hk.
  destruct l as [|x l]; [exact I|]. simpl in Hk.
  cbn [ws_collapse]. destruct (py_isspace x) eqn:Ex.
  - pose proof (span_len_le py_isspace l) as Hle.
    rewrite ws_collapse_skip by exact Hle.
    assert (Hrec : separated (ws_collapse 0 (skipn (span_len py_isspace l) l))).
    { apply (IH (length (skipn (span_len py_isspace l) l))); [|reflexivity].
      rewrite length_skipn. lia. }
    destruct (skipn (span_len py_isspace l) l) as [|y r] eqn:Er; [exact I|].
    pose proof (skipn_span_head _ _ _ _ Er) as Hy.
    rewrite (ws_collapse_head r y Hy) in *.
    split; [|exact Hrec]. rewrite Hy. apply andb_false_r.
  - assert (Hrec : separated (ws_collapse 0 l))
      by (apply (IH (length l)); [lia | reflexivity]).
    destruct (ws_collapse 0 l) as [|y r]; [exact I|].
    split; [|exact Hrec]. rewrite Ex. reflexivity.
Qed.

Lemma ws_collapse_spaces (l : text) :
  forall skip,
    Forall (fun c => py_isspace c = true -> c = sp) (ws_collapse skip l).
Proof.
  induction l as [|x l IH]; intros skip; [constructor|].
  destruct skip as [|j]; cbn [ws_collapse]; [|apply IH].
  destruct (py_isspace x) eqn:Ex; constructor; auto. congruence.
Qed.

Lemma match_at_HYPHEN_BREAK_eq (pos : nat) (prev : option ascii) (l : text) :
  match_at HYPHEN_BREAK pos prev l
  = if hyphen_break_at l
    then match l with
         | a :: h :: s :: b :: _ => Some (Match pos [a; h; s; b] [(2, [b]); (1, [a])])
         | _ => None
         end
    else None.
Proof.
  unfold match_at.
  destruct l as [|a [|h [|s [|b l]]]]; simpl;
    repeat match goal with
           | |- context [if ?c then _ else _] => destruct c; simpl
           end; try reflexivity.
  replace (S pos - pos) with 1 by lia.
  replace (S (S (S (S pos))) - S (S (S pos))) with 1 by lia.
  replace (S (S (S (S pos))) - pos) with 4 by lia. reflexivity.
Qed.

Lemma hyphen_break_at_shape (l : text) :
  hyphen_break_at l = true ->
  exists a h s b r, l = a :: h :: s :: b :: r
                    /\ py_word a = true /\ py_word b = true.
Proof.
  destruct l as [|a [|h [|s [|b r]]]]; simpl; try discriminate.
  intros H. apply andb_true_iff in H. destruct H as [H Hb].
  apply andb_true_iff in H. destruct H as [H _].
  apply andb_true_iff in H. destruct H as [Ha _].
  exists a, h, s, b, r. auto.
Qed.

Lemma re_sub_HYPHEN_BREAK_scan (l : text) :
  forall pos prev skip,
    flat_map (fun t => match t with
                       | TMatch m => groups_1_2 (m_groups m)
                       | TChar c => [c]
                       end) (scan HYPHEN_BREAK pos prev skip l)
    = hyphen_join skip l.
Proof.
  induction l as [|x l IH]; intros pos prev skip.
  - destruct skip; reflexivity.
  - destruct skip as [|j]; [|simpl; apply IH].
    cbn [scan hyphen_join]. rewrite match_at_HYPHEN_BREAK_eq.
    destruct (hyphen_break_at (x :: l)) eqn:E.
    + destruct (hyphen_break_at_shape _ E) as (a & h & s & b & r & El & _).
      injection El as -> ->. cbn [flat_map m_text m_groups length groups_1_2 group].
      simpl Nat.eqb. cbn iota. rewrite IH. reflexivity.
    + simpl. rewrite IH. reflexivity.
Qed.

Lemma re_sub_HYPHEN_BREAK (s : text) :
  re_sub HYPHEN_BREAK groups_1_2 s = hyphen_join 0 s.
Proof. apply re_sub_HYPHEN_BREAK_scan. Qed.

Lemma hyphen_join_Forall (P : ascii -> Prop) (l : text) :
  Forall P l -> forall skip, Forall P (hyphen_join skip l).
Proof.
  induction 1 as [|x l Hx Hl IH]; intros skip; [constructor|].
  destruct skip as [|j]; cbn [hyphen_join]; [|apply IH].
  destruct (hyphen_break_at (x :: l)); constructor; auto.
  destruct l as [|h [|s [|b r]]]; auto.
  constructor; [|apply IH].
  inversion Hl as [|? ? _ Hl1]; subst. inversion Hl1 as [|? ? _ Hl2]; subst.
  inversion Hl2; subst. assumption.
Qed.

Lemma separated_tail (x : ascii) (l : text) : separated (x :: l) -> separated l.
Proof. destruct l; simpl; tauto. Qed.

Lemma hyphen_join_separated (l : text) :
  separated l ->
  separated (hyphen_join 0 l)
  /\ hd_error (hyphen_join 0 l) = hd_error l.
Proof.
  remember (length l) as k eqn:Hk. revert l Hk.
  induction k as [k IH] using lt_wf_ind. intros l Hk Hsep.
  destruct l as [|x l]; [split; [exact I | reflexivity]|].
  cbn [hyphen_join]. destruct (hyphen_break_at (x :: l)) eqn:E.
  - destruct (hyphen_break_at_shape _ E) as (a & h & s & b & r & El & Ha & Hb).
    injection El as -> ->. simpl hyphen_join.
    split; [|reflexivity].
    destruct (IH (length r) ltac:(simpl in Hk; lia) r eq_refl) as [Hr Hh].
    { do 4 apply separated_tail in Hsep. exact Hsep. }
    split; [rewrite (word_not_space a Ha); reflexivity|].
    destruct (hyphen_join 0 r) as [|y t]; [exact I|].
    split; [rewrite (word_not_space b Hb); reflexivity | exact Hr].
  - split; [|reflexivity].
    destruct (IH (length l) ltac:(simpl in Hk; lia) l eq_refl
                 (separated_tail x l Hsep)) as [Hr Hh].
    destruct (hyphen_join 0 l) as [|y t] eqn:Ej; [exact I|].
    split; [|exact Hr].
    destruct l as [|y' l']; [discriminate|]. simpl in Hh. injection Hh as ->.
    destruct Hsep as [Hxy _]. exact Hxy.
Qed.

Lemma separated_app_r (l1 l2 : text) : separated (l1 ++ l2) -> separated l2.
Proof.
  induction l1 as [|x t IH]; [trivial|]. intros H. apply IH.
  apply (separated_tail x). exact H.
Qed.

Lemma separated_app_l (l1 l2 : text) : separated (l1 ++ l2) -> separated l1.
Proof.
  induction l1 as [|x t IH]; [intros; exact I|]. intros H.
  destruct t as [|y t']; [exact I|].
  destruct H as [H1 H2]. split; [exact H1 | apply IH; exact H2].
Qed.

Lemma rstrip_prefix (s : text) : exists post, s = rstrip s ++ post.
Proof.
  unfold rstrip. destruct (lstrip_suffix (rev s)) as [pre H].
  exists (rev pre). apply (f_equal (@rev ascii)) in H.
  rewrite rev_involutive, rev_app_distr in H. exact H.
Qed.

Lemma strip_separated (s : text) : separated s -> separated (strip s).
Proof.
  intros H. unfold strip.
  destruct (lstrip_suffix s) as [pre Hpre]. rewrite Hpre in H.
  apply separated_app_r in H.
  destruct (rstrip_prefix (lstrip s)) as [post Hpost]. rewrite Hpost in H.
  apply separated_app_l in H. exact H.
Qed.

(** X6: the text that [clean_section_text] returns is normalised: its
    only whitespace character is the space, it neither begins nor ends
    with whitespace, and no two whitespace characters are adjacent. *)
Theorem X6_cleaned_text_is_normalised (section_text : text) :
  let cleaned := clean_section_text section_text in
  Forall (fun c => py_isspace c = true -> c = sp) cleaned
  /\ (forall c rest, cleaned = c :: rest -> py_isspace c = false)
  /\ (forall start c, cleaned = start ++ [c] -> py_isspace c = false)
  /\ (forall before a b after,
        cleaned = before ++ a :: b :: after ->
        py_isspace a = true -> py_isspace b = false).
Proof.
  intros cleaned. unfold cleaned, clean_section_text.
  set (raw := match split_on nl section_text with
              | first :: rest =>
                  if isupper first then join [nl] rest else section_text
              | [] => section_text
              end).
  rewrite re_sub_WS_RUN, re_sub_HYPHEN_BREAK.
  split; [|split; [|split]].
  - apply strip_Forall, hyphen_join_Forall, ws_collapse_spaces.
  - intros c rest H. eapply strip_head, H.
  - intros start c H. eapply strip_last, H.
  - intros before a b after H Ha.
    assert (Hsep : separated (strip (hyphen_join 0 (ws_collapse 0 raw)))).
    { apply strip_separated, hyphen_join_separated, ws_collapse_separated. }
    rewrite H in Hsep. apply separated_app_r in Hsep. destruct Hsep as [Hab _].
    rewrite Ha in Hab. exact Hab.
Qed.

Lemma split_on_no_sep (s : text) : no_newline s -> split_on nl s = [s].
Proof.
  induction 1 as [|c s Hc _ IH]; [reflexivity|].
  simpl. rewrite is_nl_eqb, Hc, IH. reflexivity.
Qed.

Lemma split_on_first_line (h body : text) :
  no_newline h -> split_on nl (h ++ nl :: body) = h :: split_on nl body.
Proof.
  induction 1 as [|c h Hc _ IH]; simpl.
  - reflexivity.
  - rewrite is_nl_eqb, Hc, IH. reflexivity.
Qed.

Lemma split_on_not_nil (c : ascii) (s : text) : split_on c s <> [].
Proof.
  destruct s as [|x s]; simpl; [discriminate|].
  destruct (Ascii.eqb x c); [discriminate|].
  destruct (split_on c s); discriminate.
Qed.

(** Splitting on a character and joining with it gives the text back. *)
Lemma join_split_on (c : ascii) (s : text) : join [c] (split_on c s) = s.
Proof.
  induction s as [|x s IH]; [reflexivity|]. simpl.
  destruct (Ascii.eqb x c) eqn:E.
  - apply Ascii.eqb_eq in E. subst x.
    pose proof (split_on_not_nil c s) as Hne.
    destruct (split_on c s) as [|p ps]; [contradiction|].
    change (join [c] ([] :: p :: ps)) with (c :: join [c] (p :: ps)).
    rewrite IH. reflexivity.
  - destruct (split_on c s) as [|p ps] eqn:Es; [simpl in IH; subst; reflexivity|].
    destruct ps as [|q ps]; simpl in *; rewrite <- IH; reflexivity.
Qed.

Lemma clean_section_text_first_line (h body : text) :
  no_newline h ->
  let normalise s :=
    strip (re_sub HYPHEN_BREAK groups_1_2 (re_sub WS_RUN (fun _ => [sp]) s)) in
  clean_section_text (h ++ nl :: body)
  = normalise (if isupper h then body else h ++ nl :: body)
  /\ clean_section_text h = normalise (if isupper h then [] else h)
  /\ (isupper h = true -> clean_section_text h = []).
Proof.
  intros Hh normalise. unfold clean_section_text.
  rewrite (split_on_first_line h body Hh), (split_on_no_sep h Hh).
  rewrite join_split_on. fold (normalise (if isupper h then body else h ++ nl :: body)).
  split; [reflexivity|]. split; [reflexivity|].
  intros ->. reflexivity.
Qed.

(** X7: [clean_section_text] drops the first line of the section text
    exactly when that line is upper-case, and normalises what is left:
    the rest of the text after an upper-case first line, the whole text
    otherwise.  A text that is one upper-case line cleans to the empty
    string. *)
Theorem X7_heading_line_is_dropped (h body : text) :
  no_newline h ->
  let normalise s :=
    strip (re_sub HYPHEN_BREAK groups_1_2 (re_sub WS_RUN (fun _ => [sp]) s)) in
  clean_section_text (h ++ nl :: body)
  = normalise (if isupper h then body else h ++ nl :: body)
  /\ clean_section_text h = normalise (if isupper h then [] else h)
  /\ (isupper h = true -> clean_section_text h = []).
Proof. apply clean_section_text_first_line. Qed.

Lemma X7_witness :
  clean_section_text (str "FINDINGS OF FACT" ++ nl :: str "The claim-
ant   was injured.")
  = str "The claimant was injured."
  /\ clean_section_text (str "ORDER IT IS SO ORDERED") = [].
Proof.
  pose proof (X7_heading_line_is_dropped (str "FINDINGS OF FACT")
                (str "The claim-
ant   was injured.") ltac:(repeat constructor)) as (H1 & _).
  pose proof (X7_heading_line_is_dropped (str "ORDER IT IS SO ORDERED") []
                ltac:(repeat constructor)) as (_ & _ & H3).
  split; [rewrite H1; vm_compute; reflexivity | apply H3; reflexivity].
Defined.

(** X8: a section whose text is a single upper-case line longer than
    its name plus 5 characters is not skipped, its cleaned text is
    empty, and the pipeline still emits one chunk for it, whose body
    after the context header is empty. *)
Theorem X8_upper_case_line_gives_empty_chunk
    (pages : list text) (filename section_name h : text) (page start : nat) :
  no_newline h -> isupper h = true -> skipped section_name h = false ->
  let metadata := <["filename" := filename]> (extract_enhanced_case_info pages) in
  exists c docket claimant,
    contribution metadata (section_name, h, page, start) = [c]
    /\ metadata !! "docket_number" = Some docket
    /\ metadata !! "claimant_name" = Some claimant
    /\ chunk_text c = format_chunk docket claimant section_name [].
Proof.
  intros Hh Hup Hskip metadata.
  destruct (pipeline_metadata_keys pages filename) as (d & cl & Hd & Hcl).
  fold metadata in Hd, Hcl.
  destruct (clean_section_text_first_line h [] Hh) as (_ & _ & Hclean).
  specialize (Hclean Hup).
  unfold contribution, pipeline_section_chunks, section_chunks.
  rewrite Hskip. simpl. rewrite Hclean.
  unfold create_chunks_with_metadata.
  rewrite (create_logical_chunks_one_paragraph [] MAX_CHUNK_SIZE eq_refl). simpl.
  destruct (make_chunk_fields section_name metadata 1 0 [] d cl Hd Hcl)
    as (c & -> & Ht & _).
  exists c, d, cl. simpl. auto.
Qed.

Lemma X8_witness :
  exists c docket claimant,
    contribution (<["filename" := str "case001.pdf"]>
                    (extract_enhanced_case_info [str "ORDER IT IS SO ORDERED"]))
                 (str "ORDER", str "ORDER IT IS SO ORDERED", 0, 0) = [c]
    /\ chunk_text c = format_chunk docket claimant (str "ORDER") [].
Proof.
  destruct (X8_upper_case_line_gives_empty_chunk
              [str "ORDER IT IS SO ORDERED"] (str "case001.pdf") (str "ORDER")
              (str "ORDER IT IS SO ORDERED") 0 0
              ltac:(repeat constructor) eq_refl eq_refl)
    as (c & d & cl & E & _ & _ & Ht).
  exists c, d, cl. split; assumption.
Defined.

(** ** section_processing.py: [identify_sections] *)

Lemma starts_with_app (w l : text) :
  starts_with w l = true -> exists rest, l = w ++ rest.
Proof.
  revert l. induction w as [|c w IH]; intros l H; [exists l; reflexivity|].
  destruct l as [|x l]; [discriminate|]. simpl in H.
  apply andb_true_iff in H. destruct H as [Hc Hw].
  apply Ascii.eqb_eq in Hc. subst x.
  destruct (IH l Hw) as [rest ->]. exists rest. reflexivity.
Qed.

Lemma rmatch_RLit {A : Type} (w : text) :
  forall (s : cursor) (k : cursor -> option A),
    rmatch (RLit w) s k
    = if starts_with w (c_rest s) then k (feed w s) else None.
Proof.
  induction w as [|c w IH]; intros s k; [reflexivity|].
  destruct w as [|c' w].
  - simpl. destruct (c_rest s) as [|x xs]; [reflexivity|].
    rewrite Ascii.eqb_sym, andb_true_r. reflexivity.
  - change (RLit (c :: c' :: w)) with (RSeq (RChar c) (RLit (c' :: w))).
    cbn [rmatch]. destruct (c_rest s) as [|x xs] eqn:Es.
    + simpl. reflexivity.
    + cbn [starts_with feed]. rewrite Es, Ascii.eqb_sym.
      destruct (Ascii.eqb c x); [|reflexivity].
      rewrite IH. reflexivity.
Qed.

Lemma feed_app (w : text) :
  forall s rest, c_rest s = w ++ rest ->
    feed w s
    = Cursor (c_pos s + length w)
             (match last w with Some c => Some c | None => c_prev s end)
             rest (c_groups s).
Proof.
  induction w as [|c w IH]; intros s rest H.
  - destruct s; simpl in *. subst. f_equal. lia.
  - simpl in H. cbn [feed]. rewrite H.
    rewrite (IH (step c (w ++ rest) s) rest eq_refl). simpl.
    rewrite last_cons. f_equal; [lia|]. destruct (last w); reflexivity.
Qed.

Lemma firstn_exact (w rest : text) (a b : nat) :
  a = b + length w -> firstn (a - b) (w ++ rest) = w.
Proof.
  intros ->. replace (b + length w - b) with (length w + 0) by lia.
  rewrite firstn_app_2. simpl. apply app_nil_r.
Qed.

(** A match of [\bW\b] is an occurrence of [W]. *)
Lemma match_at_heading (w : text) pos prev l m :
  w <> [] ->
  match_at (RCat [RWordB; RLit w; RWordB]) pos prev l = Some m ->
  m_text m = w /\ heading_occurrence prev l w.
Proof.
  intros Hw. unfold match_at. cbn [RCat rmatch].
  unfold word_before at 1, word_after at 1. cbn [c_prev c_rest].
  destruct (xorb _ _) eqn:Hb1; [|discriminate].
  rewrite rmatch_RLit. cbn [c_rest].
  destruct (starts_with w l) eqn:Hs; [|discriminate].
  destruct (starts_with_app w l Hs) as [rest ->].
  rewrite (feed_app w (Cursor pos prev (w ++ rest) []) rest eq_refl).
  unfold word_before, word_after. cbn [c_prev c_rest c_pos c_groups].
  destruct (last w) as [z|] eqn:Hl;
    [|apply last_None in Hl; contradiction].
  destruct (xorb (py_word z) _) eqn:Hb2; [|discriminate].
  intros H. injection H as <-. cbn [m_text c_pos].
  split; [apply firstn_exact; reflexivity|].
  exists rest. rewrite Hl. split; [reflexivity|]. split; [|exact Hb2].
  destruct w as [|c w]; [contradiction|]. exact Hb1.
Qed.

(** A match of [\bW(V)?\b] is an occurrence of [WV] or of [W]. *)
Lemma match_at_heading_opt (w v : text) pos prev l m :
  w <> [] ->
  match_at (RCat [RWordB; RLit w; ROpt (RGroup 1 (RLit v)); RWordB])
           pos prev l = Some m ->
  (m_text m = w ++ v \/ m_text m = w) /\ heading_occurrence prev l (m_text m).
Proof.
  intros Hw. unfold match_at, ROpt. cbn [RCat rmatch].
  unfold word_before at 1, word_after at 1. cbn [c_prev c_rest].
  destruct (xorb _ _) eqn:Hb1; [|discriminate].
  rewrite rmatch_RLit. cbn [c_rest].
  destruct (starts_with w l) eqn:Hs; [|discriminate].
  destruct (starts_with_app w l Hs) as [rest ->].
  rewrite (feed_app w (Cursor pos prev (w ++ rest) []) rest eq_refl).
  cbn [c_pos c_groups c_prev].
  destruct (last w) as [z|] eqn:Hl;
    [|apply last_None in Hl; contradiction].
  assert (Hstart : xorb (word_of prev) (word_at_start (w ++ v)) = true
                   /\ xorb (word_of prev) (word_at_start w) = true).
  { destruct w as [|c w]; [contradiction|]. split; exact Hb1. }
  rewrite rmatch_RLit. cbn [c_rest].
  set (short := if xorb (word_before (Cursor (pos + length w) (Some z) rest []))
                        (word_after (Cursor (pos + length w) (Some z) rest []))
                then Some (Cursor (pos + length w) (Some z) rest [])
                else None).
  assert (Hshort : forall e, short = Some e ->
            forall m', Match pos (firstn (c_pos e - pos) (w ++ rest)) (c_groups e) = m' ->
            (m_text m' = w ++ v \/ m_text m' = w)
            /\ heading_occurrence prev (w ++ rest) (m_text m')).
  { unfold short, word_before, word_after. cbn [c_prev c_rest].
    destruct (xorb (py_word z) _) eqn:Hb2; [|discriminate].
    intros e He m' <-. injection He as <-. cbn [m_text c_pos].
    rewrite (firstn_exact w rest _ _ eq_refl).
    split; [right; reflexivity|].
    exists rest. rewrite Hl. split; [reflexivity|]. split; [tauto | exact Hb2]. }
  destruct (starts_with v rest) eqn:Hv.
  - destruct (starts_with_app v rest Hv) as [rest' ->].
    rewrite (feed_app v (Cursor (pos + length w) (Some z) (v ++ rest') []) rest'
               eq_refl).
    unfold set_group, word_before, word_after. cbn [c_prev c_rest c_pos c_groups].
    destruct (xorb _ (match rest' with [] => false | c :: _ => py_word c end))
      eqn:Hb2.
    + intros H. injection H as <-. cbn [m_text c_pos].
      rewrite app_assoc.
      rewrite (firstn_exact (w ++ v) rest')
        by (rewrite length_app; lia).
      split; [left; reflexivity|].
      exists rest'. split; [reflexivity|]. split; [tauto|].
      rewrite last_app. destruct (last v) as [y|] eqn:Hlv.
      * exact Hb2.
      * rewrite Hl. exact Hb2.
    + fold short. destruct short as [e|] eqn:He; [|discriminate].
      intros H. injection H as H. eapply Hshort; [reflexivity | exact H].
  - fold short. destruct short as [e|] eqn:He; [|discriminate].
    intros H. injection H as H. eapply Hshort; [reflexivity | exact H].
Qed.

Lemma section_pattern_match (r : regex) pos prev l m :
  In r SECTION_PATTERNS ->
  match_at r pos prev l = Some m ->
  In (m_text m) HEADINGS /\ heading_occurrence prev l (m_text m).
Proof.
  unfold SECTION_PATTERNS, heading. intros Hr Hm.
  repeat (destruct Hr as [<-|Hr];
          [first [ apply match_at_heading in Hm; [|discriminate];
                   destruct Hm as [E Ho]; rewrite <- E in Ho;
                   split; [rewrite E; unfold HEADINGS; simpl; tauto | exact Ho]
                 | apply match_at_heading_opt in Hm; [|discriminate];
                   destruct Hm as [[E|E] Ho];
                   (split; [rewrite E; unfold HEADINGS; simpl; tauto | exact Ho]) ]
          |]).
  contradiction.
Qed.

Lemma headings_are_words :
  Forall (fun name => word_at_start name = true
                      /\ word_of (last name) = true
                      /\ exists c rest, name = c :: rest /\ is_nl c = false)
         HEADINGS.
Proof.
  unfold HEADINGS.
  repeat (constructor; [split; [reflexivity|]; split; [reflexivity|];
                        eexists; eexists; split; reflexivity|]).
  constructor.
Qed.

(** The matches of a scan with the text around them. *)
Lemma scan_match_context (r : regex) (l : text) :
  forall before skip m,
    In (TMatch m) (scan r (length before) (last before) skip l) ->
    exists before' l',
      before ++ l = before' ++ l'
      /\ m_start m = length before'
      /\ match_at r (length before') (last before') l' = Some m.
Proof.
  induction l as [|x l IH]; intros before skip m H.
  - destruct skip; simpl in H; [|contradiction].
    destruct (match_at r (length before) (last before) []) as [m'|] eqn:E;
      simpl in H; [|contradiction].
    destruct H as [H|[]]. injection H as ->.
    exists before, []. repeat split; [|exact E].
    apply match_at_start in E. exact E.
  - assert (Hrec : forall j,
              In (TMatch m) (scan r (S (length before)) (Some x) j l) ->
              exists before' l',
                before ++ x :: l = before' ++ l'
                /\ m_start m = length before'
                /\ match_at r (length before') (last before') l' = Some m).
    { intros j Hj.
      replace (S (length before)) with (length (before ++ [x])) in Hj
        by (rewrite length_app; simpl; lia).
      rewrite <- (last_snoc x before) in Hj.
      destruct (IH _ _ _ Hj) as (b' & l' & E & Hs & Hm).
      exists b', l'. rewrite <- E, <- app_assoc. auto. }
    destruct skip as [|j]; simpl in H; [|eauto].
    destruct (match_at r (length before) (last before) (x :: l)) as [m'|] eqn:E.
    + destruct H as [H|H].
      * injection H as ->. exists before, (x :: l). repeat split; [|exact E].
        apply match_at_start in E. exact E.
      * destruct (length (m_text m')); [destruct H as [H|H]; [discriminate|]|];
          eauto.
    + destruct H as [H|H]; [discriminate | eauto].
Qed.

Lemma find_positions_occurrence (combined_text : text) (pos : nat) (name : text) :
  In (pos, name) (find_positions combined_text) ->
  In name HEADINGS
  /\ exists before after,
       combined_text = before ++ name ++ after
       /\ length before = pos
       /\ word_of (last before) = false
       /\ word_at_start after = false.
Proof.
  unfold find_positions. intros H. apply in_flat_map in H.
  destruct H as (r & Hr & H). apply in_map_iff in H.
  destruct H as (m & E & H). injection E as <- <-.
  unfold re_finditer in H. apply in_flat_map in H.
  destruct H as ([c|m'] & Ht & H); simpl in H; [contradiction|].
  destruct H as [->|[]].
  destruct (scan_match_context r combined_text [] 0 m Ht)
    as (before & l' & E & Hs & Hm).
  destruct (section_pattern_match r _ _ _ _ Hr Hm) as [Hin (after & -> & Hb1 & Hb2)].
  split; [exact Hin|].
  pose proof (proj1 (List.Forall_forall _ _) headings_are_words _ Hin)
    as (Hw1 & Hw2 & _).
  rewrite Hw1 in Hb1. rewrite Hw2 in Hb2.
  exists before, after. simpl in E. repeat split; auto.
  - destruct (word_of (last before)); [discriminate | reflexivity].
  - destruct (word_at_start after); [discriminate | reflexivity].
Qed.

Lemma identify_sections_position (pages : list text) (s : section) :
  In s (identify_sections pages) ->
  In (sec_start s, sec_name s) (find_positions (join [nl] pages))
  /\ sec_page s = find_page pages (sec_start s) 0 0.
Proof.
  intros H. apply list_elem_of_In, list_elem_of_lookup in H.
  destruct H as [i Hi]. apply identify_sections_lookup in Hi.
  destruct Hi as (pos & name & Hp & ->). split; [|reflexivity].
  apply (list_elem_of_lookup_2 _ i), list_elem_of_In in Hp.
  apply (proj1 (sort_by_pos_In _ _)) in Hp. exact Hp.
Qed.

(** X9: every section of [identify_sections] is named by one of the
    twelve heading texts that the configured patterns can match; that
    text stands in the newline-joined pages at the section's start
    offset, and it is delimited there: the character before it, if any,
    and the character after it, if any, are not word characters. *)
Theorem X9_section_names_are_headings (pages : list text) (s : section) :
  In s (identify_sections pages) ->
  In (sec_name s) HEADINGS
  /\ exists before after,
       join [nl] pages = before ++ sec_name s ++ after
       /\ length before = sec_start s
       /\ word_of (last before) = false
       /\ word_at_start after = false.
Proof.
  intros H. apply identify_sections_position in H. destruct H as [H _].
  apply find_positions_occurrence, H.
Qed.

Lemma X9_witness :
  In (str "AWARD") HEADINGS
  /\ exists before after,
       join [nl] [str "The ORDERS stand."; str "AWARD
Benefits are granted."] = before ++ str "AWARD" ++ after
       /\ length before = 18.
Proof.
  destruct (X9_section_names_are_headings
              [str "The ORDERS stand."; str "AWARD
Benefits are granted."]
              (str "AWARD", str "AWARD
Benefits are granted.", 1, 18)
              ltac:(vm_compute; left; reflexivity))
    as (Hin & before & after & E & Hl & _).
  split; [exact Hin|]. exists before, after. split; assumption.
Defined.

Lemma join_lookup_page (pages : list text) :
  forall before c after,
    join [nl] pages = before ++ c :: after -> is_nl c = false ->
    exists k page,
      pages !! k = Some page
      /\ page_offset pages k <= length before
         < page_offset pages k + length page.
Proof.
  induction pages as [|p rest IH]; intros before c after E Hc.
  - destruct before; discriminate.
  - destruct (Nat.lt_ge_cases (length before) (length p)) as [Hlt|Hge].
    { exists 0, p. simpl. split; [reflexivity | lia]. }
    destruct rest as [|q rest].
    + simpl in E. apply (f_equal (@length ascii)) in E.
      rewrite length_app in E. simpl in E. lia.
    + change (join [nl] (p :: q :: rest))
        with (p ++ nl :: join [nl] (q :: rest)) in E.
      apply app_eq_inv in E.
      destruct E as [(d & Ep & Ed)|(d & Eb & Ed)].
      * destruct d as [|x d].
        -- simpl in Ed. injection Ed as -> _. discriminate.
        -- apply (f_equal (@length ascii)) in Ep. rewrite length_app in Ep.
           simpl in Ep. lia.
      * destruct d as [|x d].
        -- simpl in Ed. injection Ed as <- _. discriminate.
        -- simpl in Ed. injection Ed as <- Ed.
           destruct (IH d c after Ed Hc) as (k & page & Hk & Hr).
           exists (S k), page. split; [exact Hk|].
           change (page_offset (p :: q :: rest) (S k))
             with (length p + 1 + page_offset (q :: rest) k).
           subst before. rewrite length_app. cbn [length]. lia.
Qed.

Lemma find_page_spec (pages : list text) :
  forall start cur i k page,
    pages !! k = Some page ->
    cur + page_offset pages k <= start < cur + page_offset pages k + length page ->
    find_page pages start cur i = i + k.
Proof.
  induction pages as [|p rest IH]; intros start cur i k page Hk Hr;
    [discriminate|].
  destruct k as [|k]; simpl in Hk, Hr |- *.
  - injection Hk as ->.
    replace (cur <=? start) with true by (symmetry; apply Nat.leb_le; lia).
    replace (start <? cur + length page) with true
      by (symmetry; apply Nat.ltb_lt; lia).
    simpl. lia.
  - replace (start <? cur + length p) with false
      by (symmetry; apply Nat.ltb_ge; lia).
    rewrite andb_false_r.
    rewrite (IH start (cur + length p + 1) (S i) k page Hk) by lia. lia.
Qed.

(** X10: the page number of every section is the index of the page that
    holds its start offset: the offset lies within that page's range of
    the newline-joined pages, where each earlier page takes its length
    plus one separator. *)
Theorem X10_section_page_holds_the_heading (pages : list text) (s : section) :
  In s (identify_sections pages) ->
  exists page,
    pages !! sec_page s = Some page
    /\ page_offset pages (sec_page s) <= sec_start s
       < page_offset pages (sec_page s) + length page.
Proof.
  intros H. apply identify_sections_position in H. destruct H as [H Hpage].
  apply find_positions_occurrence in H.
  destruct H as (Hin & before & after & E & Hlen & _).
  pose proof (proj1 (List.Forall_forall _ _) headings_are_words _ Hin)
    as (_ & _ & c & rest & En & Hc).
  rewrite En in E. simpl in E.
  destruct (join_lookup_page pages before c (rest ++ after) E Hc)
    as (k & page & Hk & Hr).
  rewrite Hlen in Hr.
  rewrite (find_page_spec pages (sec_start s) 0 0 k page Hk ltac:(simpl; lia))
    in Hpage.
  simpl in Hpage. rewrite Hpage. exists page. auto.
Qed.

Lemma X10_witness :
  exists page,
    [str "The ORDERS stand."; str "AWARD
Benefits are granted."] !! 1 = Some page
    /\ 18 <= 18 < 18 + length page.
Proof.
  exact (X10_section_page_holds_the_heading
           [str "The ORDERS stand."; str "AWARD
Benefits are granted."]
           (str "AWARD", str "AWARD
Benefits are granted.", 1, 18)
           ltac:(vm_compute; left; reflexivity)).
Defined.

(** ** utils.py: paths and the directory scan *)

Lemma push_app (x : ascii) (ps qs : list text) :
  ps <> [] -> push x (ps ++ qs) = push x ps ++ qs.
Proof. destruct ps; [contradiction | reflexivity]. Qed.

Lemma split_on_app (c : ascii) (X Y : text) :
  split_on c (X ++ c :: Y) = split_on c X ++ split_on c Y.
Proof.
  induction X as [|x X IH]; simpl.
  - rewrite Ascii.eqb_refl. reflexivity.
  - destruct (Ascii.eqb x c); [rewrite IH; reflexivity|].
    rewrite IH. pose proof (split_on_not_nil c X) as Hne.
    destruct (split_on c X); [contradiction | reflexivity].
Qed.

Lemma split_on_absent (c : ascii) (s : text) :
  Forall (fun x => Ascii.eqb x c = false) s -> split_on c s = [s].
Proof.
  induction 1 as [|x s Hx _ IH]; [reflexivity|].
  simpl. rewrite Hx, IH. reflexivity.
Qed.

Lemma basename_no_slash (f : text) : no_slash f -> basename f = f.
Proof. intros H. unfold basename. rewrite (split_on_absent slash f H). reflexivity. Qed.

Lemma basename_after_slash (X f : text) :
  no_slash f -> basename (X ++ slash :: f) = f.
Proof.
  intros H. unfold basename.
  rewrite split_on_app, (split_on_absent slash f H). apply last_last.
Qed.

Lemma basename_path_join (directory filename : text) :
  no_slash filename -> basename (path_join directory filename) = filename.
Proof.
  intros H. unfold path_join.
  assert (Hdir : forall tail, no_slash tail ->
            match directory with
            | [] => basename tail = tail
            | _ :: _ =>
                basename (if Ascii.eqb (List.last directory sp) slash
                          then directory ++ tail
                          else directory ++ [slash] ++ tail) = tail
            end).
  { intros tail Ht. destruct directory as [|d ds] eqn:Ed;
      [apply basename_no_slash, Ht|].
    rewrite <- Ed.
    destruct (Ascii.eqb (List.last directory sp) slash) eqn:El.
    - apply Ascii.eqb_eq in El.
      assert (Hne : directory <> []) by (rewrite Ed; discriminate).
      rewrite (app_removelast_last sp Hne), El, <- app_assoc.
      apply basename_after_slash, Ht.
    - apply basename_after_slash, Ht. }
  destruct filename as [|c f].
  - specialize (Hdir [] H). destruct directory as [|d ds]; [reflexivity|].
    rewrite !app_nil_r in Hdir.
    destruct (Ascii.eqb (List.last (d :: ds) sp) slash) eqn:El.
    + exact Hdir.
    + simpl in Hdir. exact Hdir.
  - inversion H as [|? ? Hc Hf]; subst. rewrite Hc.
    specialize (Hdir (c :: f) H). destruct directory; exact Hdir.
Qed.

(** X11: joining a directory and a file name without slash, and taking
    the base name of the result, gives the file name back. *)
Theorem X11_basename_of_joined_path (directory filename : text) :
  no_slash filename -> basename (path_join directory filename) = filename.
Proof. apply basename_path_join. Qed.

Lemma X11_witness :
  basename (path_join (str "/data/decisions") (str "case001.pdf"))
  = str "case001.pdf"
  /\ basename (path_join (str "decisions/") (str "case001.pdf"))
     = str "case001.pdf".
Proof.
  split; apply X11_basename_of_joined_path; repeat constructor.
Defined.

Lemma find_pdf_files_spec (listing : list text) (directory : text)
    (pattern : option regex) (path : text) :
  In path (find_pdf_files listing directory pattern)
  <-> exists filename,
        In filename listing /\ accepted pattern filename = true
        /\ path = path_join directory filename.
Proof.
  unfold find_pdf_files, accepted. rewrite in_flat_map. split.
  - intros (f & Hf & H). exists f. split; [exact Hf|].
    destruct (ends_with PDF_EXTENSION (lower f)); [|contradiction].
    destruct pattern as [r|]; [destruct (re_search r f)|]; simpl in *;
      intuition congruence.
  - intros (f & Hf & Ha & ->). exists f. split; [exact Hf|].
    destruct (ends_with PDF_EXTENSION (lower f)); [|discriminate].
    destruct pattern as [r|]; [destruct (re_search r f)|]; simpl in *;
      auto; discriminate.
Qed.

(** X12: for a directory listing of names without slash, a path is
    handed to the workers exactly when it is the join of the directory
    and a listed name that ends in [.pdf] in any letter case, matches the
    filter pattern if one is given, and, when resuming, is not among the
    file names read from the existing output file. *)
Theorem X12_files_to_process (listing : list text) (existing : option jsonl)
    (directory : text) (resume : bool) (pattern : option regex) (path : text) :
  Forall no_slash listing ->
  In path (files_to_process listing existing directory resume pattern)
  <-> exists filename,
        In filename listing
        /\ path = path_join directory filename
        /\ ends_with PDF_EXTENSION (lower filename) = true
        /\ match pattern with
           | Some r => re_search r filename <> None
           | None => True
           end
        /\ (resume = true -> filename ∉ get_processed_files existing).
Proof.
  intros Hl. rewrite files_to_process_spec, find_pdf_files_spec.
  unfold accepted. split.
  - intros ((f & Hf & Ha & ->) & Hn). exists f.
    pose proof (proj1 (List.Forall_forall _ _) Hl f Hf) as Hs.
    rewrite (basename_path_join directory f Hs) in Hn.
    apply andb_true_iff in Ha. destruct Ha as [He Hp].
    repeat split; auto.
    + destruct pattern as [r|]; [|exact I].
      destruct (re_search r f); [discriminate | discriminate].
    + intros ->. exact Hn.
  - intros (f & Hf & -> & He & Hp & Hn).
    pose proof (proj1 (List.Forall_forall _ _) Hl f Hf) as Hs.
    rewrite (basename_path_join directory f Hs). split.
    + exists f. repeat split; auto. rewrite He. simpl.
      destruct pattern as [r|]; [|reflexivity].
      destruct (re_search r f); [reflexivity | contradiction].
    + destruct resume; [auto | set_solver].
Qed.

Lemma X12_witness :
  In (str "decisions/CASE002.PDF")
     (files_to_process [str "case001.pdf"; str "CASE002.PDF"; str "notes.txt"]
        (Some [Some (Chunk [] {[ "filename" := VStr (str "case001.pdf") ]})])
        (str "decisions") true None).
Proof.
  apply (X12_files_to_process
           [str "case001.pdf"; str "CASE002.PDF"; str "notes.txt"]
           (Some [Some (Chunk [] {[ "filename" := VStr (str "case001.pdf") ]})])
           (str "decisions") true None (str "decisions/CASE002.PDF")
           ltac:(repeat constructor)).
  exists (str "CASE002.PDF"). split; [right; left; reflexivity|].
  split; [reflexivity|]. split; [reflexivity|]. split; [exact I|].
  intros _. vm_compute. intros H. discriminate.
Defined.

(** ** utils.py: [get_processed_files] *)

Lemma read_filenames_spec (lines : jsonl) :
  forall (acc : gset text) (f : text),
    f ∈ read_filenames lines acc
    <-> f ∈ acc
        \/ exists before c after,
             lines = before ++ Some c :: after
             /\ Forall readable before
             /\ chunk_metadata c !! "filename" = Some (VStr f).
Proof.
  induction lines as [|line lines IH]; intros acc f.
  - simpl. split; [auto|]. intros [H|(b & c & a & E & _)]; [exact H|].
    destruct b; discriminate.
  - assert (Hstop : ~ readable line ->
              (forall c, line = Some c ->
                         chunk_metadata c !! "filename" <> Some (VStr f)) ->
              (f ∈ acc
               \/ exists before c after,
                    line :: lines = before ++ Some c :: after
                    /\ Forall readable before
                    /\ chunk_metadata c !! "filename" = Some (VStr f))
              -> f ∈ acc).
    { intros Hnr Hnf [H|(b & c & a & E & Hb & Hc)]; [exact H|].
      destruct b as [|l0 b]; simpl in E; injection E as -> E.
      - exfalso. eapply Hnf; eauto.
      - inversion Hb; subst. contradiction. }
    assert (Hgo : forall c v, line = Some c ->
              chunk_metadata c !! "filename" = Some v ->
              forall acc',
                (f ∈ acc' <-> f ∈ acc \/ v = VStr f) ->
                (f ∈ read_filenames lines acc'
                 <-> f ∈ acc
                     \/ exists before c0 after,
                          line :: lines = before ++ Some c0 :: after
                          /\ Forall readable before
                          /\ chunk_metadata c0 !! "filename" = Some (VStr f))).
    { intros c v -> Hv acc' Hacc. rewrite IH, Hacc. split.
      - intros [[H| ->]|(b & c0 & a & -> & Hb & Hc0)].
        + left. exact H.
        + right. exists [], c, lines. repeat split; [constructor | exact Hv].
        + right. exists (Some c :: b), c0, a. repeat split; [|exact Hc0].
          constructor; [|exact Hb]. exists c. split; [reflexivity | eauto].
      - intros [H|(b & c0 & a & E & Hb & Hc0)]; [left; left; exact H|].
        destruct b as [|l0 b]; simpl in E; injection E as E1 E2.
        + subst. left. right. congruence.
        + subst. inversion Hb; subst. right. exists b, c0, a. auto. }
    destruct line as [c|]; simpl.
    + destruct (chunk_metadata c !! "filename") as [[g|n]|] eqn:Hf.
      * apply (Hgo c (VStr g) eq_refl Hf). split.
        -- intros H. apply elem_of_union in H. destruct H as [H|H]; [|auto].
           apply elem_of_singleton in H. subst. auto.
        -- intros [H|H]; apply elem_of_union; [right; exact H|].
           injection H as ->. left. apply elem_of_singleton. reflexivity.
      * apply (Hgo c (VInt n) eq_refl Hf). split; [auto|].
        intros [H|H]; [exact H | discriminate].
      * split; [auto|]. apply Hstop.
        -- intros (c' & E & [v Hv]). injection E as <-. congruence.
        -- intros c' E. injection E as <-. congruence.
    + split; [auto|]. apply Hstop.
      * intros (c' & E & _). discriminate.
      * intros c' E. discriminate.
Qed.

(** X13: [get_processed_files] returns exactly the string file names of
    the records that stand before the first unreadable line of the
    output file (the first line on which parsing or the
    [metadata.filename] lookup raises); it returns the empty set when
    the file does not exist. *)
Theorem X13_processed_files_exactly (lines : jsonl) (f : text) :
  (f ∈ get_processed_files (Some lines)
   <-> exists before c after,
         lines = before ++ Some c :: after
         /\ Forall readable before
         /\ chunk_metadata c !! "filename" = Some (VStr f))
  /\ get_processed_files None = ∅.
Proof.
  split; [|reflexivity]. simpl. rewrite read_filenames_spec. split.
  - intros [H|H]; [set_solver | exact H].
  - auto.
Qed.

(** ** processors.py: [process_pdf_file] *)

Lemma contribution_spec (pages : list text) (filename : text) (s : section) :
  let metadata := <["filename" := filename]> (extract_enhanced_case_info pages) in
  if skipped (sec_name s) (sec_text s)
  then contribution metadata s = []
  else exists c,
         contribution metadata s = [c]
         /\ chunk_metadata c !! "filename" = Some (VStr filename)
         /\ chunk_metadata c !! "section" = Some (VStr (sec_name s)).
Proof.
  intros metadata.
  destruct (pipeline_metadata_keys pages filename) as (d & cl & Hd & Hcl).
  fold metadata in Hd, Hcl.
  destruct s as [[[name body] page] start].
  unfold contribution, pipeline_section_chunks, section_chunks, sec_name, sec_text.
  cbn [fst snd]. destruct (skipped name body); [reflexivity|].
  simpl. unfold create_chunks_with_metadata.
  rewrite (create_logical_chunks_one_paragraph _ MAX_CHUNK_SIZE
             (cleaned_text_one_paragraph body)). simpl.
  destruct (make_chunk_fields name metadata 1 0 (clean_section_text body) d cl
              Hd Hcl) as (c & -> & _ & _ & _ & Hs & _ & _ & Hf & _).
  exists c. simpl. repeat split; [|exact Hs].
  rewrite Hf. unfold metadata. rewrite lookup_insert_eq. reflexivity.
Qed.

Lemma contributions_count (pages : list text) (filename : text)
    (secs : list section) :
  length (flat_map (contribution
                      (<["filename" := filename]>
                         (extract_enhanced_case_info pages))) secs)
  = length (List.filter (fun s => negb (skipped (sec_name s) (sec_text s))) secs).
Proof.
  induction secs as [|s secs IH]; [reflexivity|].
  simpl. rewrite length_app, IH.
  pose proof (contribution_spec pages filename s) as H. simpl in H.
  destruct (skipped (sec_name s) (sec_text s)); simpl.
  - rewrite H. reflexivity.
  - destruct H as (c & -> & _). reflexivity.
Qed.

Lemma contributions_fields (pages : list text) (filename : text)
    (secs : list section) :
  Forall (fun c =>
            chunk_metadata c !! "filename" = Some (VStr filename)
            /\ exists s, In s secs
                         /\ chunk_metadata c !! "section" = Some (VStr (sec_name s)))
         (flat_map (contribution
                      (<["filename" := filename]>
                         (extract_enhanced_case_info pages))) secs).
Proof.
  apply List.Forall_forall. intros c Hc. apply in_flat_map in Hc.
  destruct Hc as (s & Hs & Hc).
  pose proof (contribution_spec pages filename s) as H. simpl in H.
  destruct (skipped (sec_name s) (sec_text s)).
  - rewrite H in Hc. contradiction.
  - destruct H as (c' & E & Hf & Hn). rewrite E in Hc.
    destruct Hc as [<-|[]]. split; [exact Hf|]. exists s. auto.
Qed.

Lemma process_pdf_file_success (read_pdf : text -> M (list text))
    (format_exc : exn -> text) (pdf_path : text) (pages : list text) :
  read_pdf pdf_path = inr pages ->
  process_pdf_file read_pdf format_exc pdf_path
  = inr (Success (basename pdf_path)
           (flat_map (contribution
                        (<["filename" := basename pdf_path]>
                           (extract_enhanced_case_info pages)))
                     (identify_sections pages))
           (<["filename" := basename pdf_path]> (extract_enhanced_case_info pages))).
Proof.
  intros H.
  unfold process_pdf_file, process_pdf_file_with, process_pdf_body,
    extract_text_from_pdf.
  rewrite H. simpl.
  rewrite (sections_loop_contributions pages (basename pdf_path)
             (identify_sections pages) []).
  reflexivity.
Qed.

(** X14: once the text extraction succeeds, [process_pdf_file] succeeds:
    it returns the base name of the path, the case information of the
    pages with the file name added, and one chunk for each section that
    is not skipped, in section order; every chunk carries that file
    name and the name of a section of the document. *)
Theorem X14_document_succeeds_after_extraction
    (read_pdf : text -> M (list text)) (format_exc : exn -> text)
    (pdf_path : text) (pages : list text) :
  read_pdf pdf_path = inr pages ->
  let metadata :=
    <["filename" := basename pdf_path]> (extract_enhanced_case_info pages) in
  let secs := identify_sections pages in
  exists chunks,
    process_pdf_file read_pdf format_exc pdf_path
    = inr (Success (basename pdf_path) chunks metadata)
    /\ chunks = flat_map (contribution metadata) secs
    /\ length chunks
       = length (List.filter
                   (fun s => negb (skipped (sec_name s) (sec_text s))) secs)
    /\ Forall (fun c =>
                 chunk_metadata c !! "filename" = Some (VStr (basename pdf_path))
                 /\ exists s,
                      In s secs
                      /\ chunk_metadata c !! "section" = Some (VStr (sec_name s)))
              chunks.
Proof.
  intros H metadata secs. eexists. split; [|split; [reflexivity|split]].
  - apply process_pdf_file_success, H.
  - apply contributions_count.
  - apply contributions_fields.
Qed.

Lemma X14_witness :
  exists chunks metadata,
    process_pdf_file
      (fun _ => inr [str "DOCKET NO. 123,456
JOHN DOE VS. ACME CORP"; str "AWARD
Benefits are granted."]) (fun _ => []) (str "in/case001.pdf")
    = inr (Success (str "case001.pdf") chunks metadata)
    /\ length chunks = 1.
Proof.
  destruct (X14_document_succeeds_after_extraction
              (fun _ => inr [str "DOCKET NO. 123,456
JOHN DOE VS. ACME CORP"; str "AWARD
Benefits are granted."]) (fun _ => []) (str "in/case001.pdf") _ eq_refl)
    as (chunks & E & _ & Hlen & _).
  eexists. eexists. split; [exact E|]. rewrite Hlen. vm_compute. reflexivity.
Defined.

(** ** processors.py: [process_directory] and [process_single_file] *)

Lemma map_M_Forall2 {A B : Type} (f : A -> M B) (l : list A) :
  forall rs, map_M f l = inr rs -> Forall2 (fun a r => f a = inr r) l rs.
Proof.
  induction l as [|a l IH]; simpl; intros rs H.
  - injection H as <-. constructor.
  - destruct (f a) as [e|b] eqn:Ea; [discriminate|]. simpl in H.
    destruct (map_M f l) as [e|bs]; [discriminate|]. simpl in H.
    injection H as <-. constructor; [exact Ea | apply IH; reflexivity].
Qed.

Lemma Forall2_In_l {A B : Type} (P : A -> B -> Prop) (l : list A) (rs : list B)
    (a : A) :
  Forall2 P l rs -> In a l -> exists r, In r rs /\ P a r.
Proof.
  induction 1 as [|x y l rs Hxy _ IH]; intros Hin; [contradiction|].
  destruct Hin as [<-|Hin]; [exists y; simpl; auto|].
  destruct (IH Hin) as (r & Hr & Hp). exists r. simpl. auto.
Qed.

Lemma Forall2_In_r {A B : Type} (P : A -> B -> Prop) (l : list A) (rs : list B)
    (r : B) :
  Forall2 P l rs -> In r rs -> exists a, In a l /\ P a r.
Proof.
  induction 1 as [|x y l rs Hxy _ IH]; intros Hin; [contradiction|].
  destruct Hin as [<-|Hin]; [exists x; simpl; auto|].
  destruct (IH Hin) as (a & Ha & Hp). exists a. simpl. auto.
Qed.

Lemma process_pdf_file_returns (read_pdf : text -> M (list text))
    (format_exc : exn -> text) (pdf_path : text) :
  exists r,
    process_pdf_file read_pdf format_exc pdf_path = inr r
    /\ Forall (fun c => chunk_metadata c !! "filename"
                        = Some (VStr (basename pdf_path))) (result_chunks r).
Proof.
  destruct (read_pdf pdf_path) as [e|pages] eqn:E.
  - eexists. split.
    + unfold process_pdf_file, process_pdf_file_with, process_pdf_body,
        extract_text_from_pdf. rewrite E. reflexivity.
    + constructor.
  - eexists. split; [apply process_pdf_file_success, E|]. simpl.
    eapply List.Forall_impl; [|apply contributions_fields].
    intros c [H _]. exact H.
Qed.

Lemma processed_files_of_written (cs : list chunk) (f : text) :
  Forall (fun c => is_Some (chunk_metadata c !! "filename")) cs ->
  f ∈ get_processed_files (Some (map Some cs))
  <-> exists c, In c cs /\ chunk_metadata c !! "filename" = Some (VStr f).
Proof.
  intros Hall. simpl. rewrite read_filenames_spec. split.
  - intros [H|(b & c & a & E & _ & Hc)]; [set_solver|].
    exists c. split; [|exact Hc].
    assert (Hin : In (Some c) (map Some cs))
      by (rewrite E; apply in_or_app; right; left; reflexivity).
    apply in_map_iff in Hin. destruct Hin as (c' & Ec & Hin).
    injection Ec as ->. exact Hin.
  - intros (c & Hin & Hc). right. apply in_split in Hin.
    destruct Hin as (l1 & l2 & ->). exists (map Some l1), c, (map Some l2).
    split; [rewrite map_app; reflexivity|]. split; [|exact Hc].
    apply Forall_app in Hall. destruct Hall as [H1 _].
    apply List.Forall_forall. intros line Hl. apply in_map_iff in Hl.
    destruct Hl as (c' & <- & Hc'). exists c'. split; [reflexivity|].
    apply (proj1 (List.Forall_forall _ _) H1 c' Hc').
Qed.

(** X15: after a run without resume over a listing of names without
    slash, a resumed run over the same listing processes a file of the
    first run again exactly when its first processing gave no chunk:
    the document failed, or no section of it was kept. *)
Theorem X15_resume_after_a_fresh_run
    (read_pdf : text -> M (list text)) (format_exc : exn -> text)
    (listing : list text) (fs : files) (directory : text)
    (pattern : option regex) (n k : nat) (fs' : files) (path : text) :
  Forall no_slash listing ->
  process_directory read_pdf format_exc listing fs directory false pattern
  = inr (n, k, fs') ->
  In path (files_to_process listing (output_file fs) directory false pattern) ->
  In path (files_to_process listing (output_file fs') directory true pattern)
  <-> exists r, process_pdf_file read_pdf format_exc path = inr r
                /\ result_chunks r = [].
Proof.
  intros Hslash Hrun Hin.
  destruct (process_pdf_file_returns read_pdf format_exc path) as (rp & Erp & Hfp).
  unfold process_directory in Hrun.
  set (pending := files_to_process listing (output_file fs) directory false
                                   pattern) in *.
  destruct (is_nil pending) eqn:Enil;
    [destruct pending; [contradiction | discriminate]|].
  destruct (map_M (process_pdf_file read_pdf format_exc) pending)
    as [e|results] eqn:Em; [discriminate|].
  simpl in Hrun. injection Hrun as _ _ <-. simpl.
  apply map_M_Forall2 in Em.
  assert (Hfind : In path (find_pdf_files listing directory pattern)).
  { apply files_to_process_spec in Hin. tauto. }
  assert (Hall : Forall (fun c => is_Some (chunk_metadata c !! "filename"))
                        (flat_map result_chunks results)).
  { apply List.Forall_forall. intros c Hc. apply in_flat_map in Hc.
    destruct Hc as (r & Hr & Hc).
    destruct (Forall2_In_r _ _ _ r Em Hr) as (p & _ & Ep).
    destruct (process_pdf_file_returns read_pdf format_exc p) as (r' & Er' & Hf).
    rewrite Ep in Er'. injection Er' as <-.
    rewrite (proj1 (List.Forall_forall _ _) Hf c Hc). eauto. }
  rewrite files_to_process_spec, (processed_files_of_written _ _ Hall).
  split.
  - intros [_ Hnot]. exists rp. split; [exact Erp|].
    destruct (result_chunks rp) as [|c cs] eqn:Ec; [reflexivity|].
    exfalso. apply Hnot. exists c. split.
    + apply in_flat_map.
      destruct (Forall2_In_l _ _ _ path Em Hin) as (r & Hr & Ep).
      rewrite Erp in Ep. injection Ep as <-. exists rp.
      split; [exact Hr | rewrite Ec; left; reflexivity].
    + inversion Hfp; subst. assumption.
  - intros (r & Er & Hempty). rewrite Erp in Er. injection Er as <-.
    split; [exact Hfind|]. intros (c & Hc & Hf).
    apply in_flat_map in Hc. destruct Hc as (r & Hr & Hc).
    destruct (Forall2_In_r _ _ _ r Em Hr) as (p & Hp & Ep).
    destruct (process_pdf_file_returns read_pdf format_exc p) as (r' & Er' & Hf').
    rewrite Ep in Er'. injection Er' as <-.
    pose proof (proj1 (List.Forall_forall _ _) Hf' c Hc) as Hfc.
    cbv beta in Hfc. rewrite Hf in Hfc. injection Hfc as Hb.
    assert (Hp' : In p (find_pdf_files listing directory pattern)).
    { apply files_to_process_spec in Hp. tauto. }
    apply find_pdf_files_spec in Hp', Hfind.
    destruct Hp' as (f1 & Hf1 & _ & ->), Hfind as (f2 & Hf2 & _ & ->).
    rewrite !basename_path_join in Hb
      by (eapply (proj1 (List.Forall_forall _ _) Hslash); eassumption).
    subst f2. rewrite Erp in Ep. injection Ep as <-.
    rewrite Hempty in Hc. contradiction.
Qed.

Lemma process_directory_returns (read_pdf : text -> M (list text))
    (format_exc : exn -> text) (listing : list text) (fs : files)
    (directory : text) (resume : bool) (pattern : option regex) :
  exists r, process_directory read_pdf format_exc listing fs directory resume
                              pattern = inr r.
Proof.
  unfold process_directory. destruct (is_nil _); [eauto|].
  destruct (map_M_returns (process_pdf_file read_pdf format_exc)
              (files_to_process listing (output_file fs) directory resume pattern))
    as [bs ->].
  - intros a. destruct (process_pdf_file_returns read_pdf format_exc a)
      as (r & E & _). eauto.
  - simpl. eauto.
Qed.

Lemma X15_witness :
  exists n k fs',
    process_directory sample_reader (fun _ => [])
      [str "a.pdf"; str "b.pdf"] (Files None []) (str "in") false None
    = inr (n, k, fs')
    /\ In (str "in/b.pdf")
          (files_to_process [str "a.pdf"; str "b.pdf"] (output_file fs')
                            (str "in") true None).
Proof.
  destruct (process_directory_returns sample_reader (fun _ => [])
              [str "a.pdf"; str "b.pdf"] (Files None []) (str "in") false None)
    as [[[n k] fs'] E].
  exists n, k, fs'. split; [exact E|].
  apply (X15_resume_after_a_fresh_run sample_reader (fun _ => [])
           [str "a.pdf"; str "b.pdf"] (Files None []) (str "in") None n k fs'
           (str "in/b.pdf") ltac:(repeat constructor) E
           ltac:(vm_compute; right; left; reflexivity)).
  eexists. split; vm_compute; reflexivity.
Defined.



(** ** metadata_extraction.py *)

Lemma docket_loop_spec (patterns : list regex) (s : text) :
  match docket_loop patterns s with
  | Some v =>
      exists before p after,
        patterns = before ++ p :: after
        /\ Forall (fun q => re_search q s = None) before
        /\ candidate p s = Some v
  | None => Forall (fun q => re_search q s = None) patterns
  end.
Proof.
  induction patterns as [|p ps IH]; simpl; [constructor|].
  destruct (re_search p s) as [m|] eqn:Em.
  - exists [], p, ps. unfold candidate. rewrite Em. repeat split. constructor.
  - destruct (docket_loop ps s) as [v|].
    + destruct IH as (b & q & a & -> & Hb & Hc).
      exists (p :: b), q, a. repeat split; [constructor; assumption | exact Hc].
    + constructor; assumption.
Qed.

(** X18: the dict of [extract_case_info] has exactly the keys
    [claimant_name], [docket_number] and [respondent_name].  Its docket
    number is the stripped group 1 of the first docket pattern that
    matches, taken without any validation, and ["Unknown"] when no
    docket pattern matches. *)
Theorem X18_case_info_fields (s : text) :
  (forall key : string,
      is_Some (extract_case_info s !! key)
      <-> key = "claimant_name" \/ key = "docket_number"
          \/ key = "respondent_name")
  /\ extract_case_info s !! "docket_number"
     = Some (default Unknown (docket_loop DOCKET_PATTERNS s))
  /\ match docket_loop DOCKET_PATTERNS s with
     | Some v =>
         exists before p after,
           DOCKET_PATTERNS = before ++ p :: after
           /\ Forall (fun q => re_search q s = None) before
           /\ candidate p s = Some v
     | None => Forall (fun q => re_search q s = None) DOCKET_PATTERNS
     end.
Proof.
  split; [|split].
  - intros key. unfold extract_case_info, set_found.
    destruct (snd (name_loop CLAIMANT_PATTERNS s 0)),
             (docket_loop DOCKET_PATTERNS s),
             (snd (name_loop RESPONDENT_PATTERNS s 0));
      rewrite ?lookup_insert_is_Some', lookup_empty, <- not_eq_None_Some;
      intuition congruence.
  - unfold extract_case_info, set_found.
    destruct (snd (name_loop CLAIMANT_PATTERNS s 0)),
             (docket_loop DOCKET_PATTERNS s),
             (snd (name_loop RESPONDENT_PATTERNS s 0));
      simpl; simplify_map_eq; reflexivity.
  - apply docket_loop_spec.
Qed.

(** X19: [extract_enhanced_case_info] reads the first three pages only:
    later pages never change the case information. *)
Theorem X19_metadata_from_first_three_pages (pages : list text) :
  extract_enhanced_case_info pages
  = extract_enhanced_case_info (firstn 3 pages).
Proof.
  unfold extract_enhanced_case_info.
  destruct pages as [|a [|b [|c rest]]]; reflexivity.
Qed.

(** ** Round trips and bounds *)

(** X20: writing chunks that all carry a file name with
    [write_chunks_to_jsonl] in overwrite mode and reading the file with
    [get_processed_files] gives exactly the string file names of these
    chunks, whatever the file held before. *)
Theorem X20_written_file_names_are_read_back (cs : list chunk)
    (previous : option jsonl) (f : text) :
  Forall (fun c => is_Some (chunk_metadata c !! "filename")) cs ->
  f ∈ get_processed_files (write_chunks_to_jsonl cs previous false)
  <-> exists c, In c cs /\ chunk_metadata c !! "filename" = Some (VStr f).
Proof.
  intros H. unfold write_chunks_to_jsonl. apply processed_files_of_written, H.
Qed.

Lemma X20_witness :
  str "case001.pdf"
  ∈ get_processed_files
      (write_chunks_to_jsonl
         [Chunk (str "Case: 1") {[ "filename" := VStr (str "case001.pdf") ]}]
         (Some [None]) false).
Proof.
  apply (X20_written_file_names_are_read_back
           [Chunk (str "Case: 1") {[ "filename" := VStr (str "case001.pdf") ]}]
           (Some [None]) (str "case001.pdf")).
  - repeat constructor. vm_compute. eauto.
  - eexists. split; [left; reflexivity | vm_compute; reflexivity].
Defined.


Lemma groups_length_le (G : list (list text)) :
  Forall (fun g => g <> []) G -> length G <= length (concat G).
Proof.
  induction 1 as [|g G Hg _ IH]; simpl; [lia|].
  rewrite length_app. destruct g; [contradiction | simpl; lia].
Qed.

(** X22: [create_logical_chunks] returns at least one chunk and at most
    as many chunks as the text has paragraphs. *)
Theorem X22_chunk_count_bounds (s : text) (max_tokens : Z) :
  1 <= length (create_logical_chunks s max_tokens)
    <= length (re_split PARA_SEP s).
Proof.
  pose proof (create_logical_chunks_not_nil s max_tokens) as Hne.
  destruct (create_logical_chunks_groups s max_tokens) as (G & E & Hc & HG).
  rewrite E in *. rewrite length_map, <- Hc. split.
  - destruct G; [contradiction | simpl; lia].
  - apply groups_length_le. eapply List.Forall_impl; [|exact HG].
    intros g [Hg _]. exact Hg.
Qed.

(** ** metadata_extraction.py: the characters of an accepted name *)

Lemma rep_inv {A : Type} (p : ascii -> bool) (l : text) :
  forall min s (k : cursor -> option A) a,
    rep p min l s k = Some a ->
    exists n s',
      min <= n <= length l
      /\ Forall (fun x => p x = true) (firstn n l)
      /\ k s' = Some a
      /\ c_pos s' = c_pos s + n
      /\ c_groups s' = c_groups s.
Proof.
  induction l as [|x l IH]; intros min s k a H; simpl in H.
  - destruct (min =? 0) eqn:E; [|discriminate]. apply Nat.eqb_eq in E.
    exists 0, s. simpl. repeat split; auto; lia.
  - assert (Hstop : (if min =? 0 then k s else None) = Some a ->
              exists n s',
                min <= n <= length (x :: l)
                /\ Forall (fun x => p x = true) (firstn n (x :: l))
                /\ k s' = Some a /\ c_pos s' = c_pos s + n
                /\ c_groups s' = c_groups s).
    { destruct (min =? 0) eqn:E; [|discriminate]. apply Nat.eqb_eq in E.
      intros Hk. exists 0, s. simpl. repeat split; auto; lia. }
    destruct (p x) eqn:Ex; [|auto].
    destruct (rep p (pred min) l (step x l s) k) as [a'|] eqn:Er; [|auto].
    injection H as ->.
    destruct (IH _ _ _ _ Er) as (n & s' & Hn & Hall & Hk & Hp & Hg).
    exists (S n), s'. simpl in *. repeat split; auto; lia.
Qed.

Lemma rmatch_name_groups {A : Type} (r : regex) :
  name_groups r ->
  forall s (k : cursor -> option A) a,
    name_captures s -> rmatch r s k = Some a ->
    exists s', name_captures s' /\ k s' = Some a.
Proof.
  induction 1 as [|c|p|r1 r2 _ IH1 _ IH2|r1 r2 _ IH1 _ IH2|p n| | | |];
    intros s k a Hs H; cbn [rmatch] in H.
  - eauto.
  - destruct (c_rest s) as [|x xs]; [discriminate|].
    destruct (Ascii.eqb x c); [|discriminate]. exists (step x xs s). auto.
  - destruct (c_rest s) as [|x xs]; [discriminate|].
    destruct (p x); [|discriminate]. exists (step x xs s). auto.
  - destruct (IH1 _ _ _ Hs H) as (s1 & Hs1 & H1). eauto.
  - destruct (rmatch r1 s k) as [a'|] eqn:E1.
    + injection H as ->. eauto.
    + eauto.
  - destruct (rep_inv _ _ _ _ _ _ H) as (m & s' & _ & _ & Hk & _ & Hg).
    exists s'. split; [|exact Hk]. unfold name_captures. rewrite Hg. exact Hs.
  - unfold NAME in H. cbn [rmatch] in H.
    destruct (c_rest s) as [|x xs] eqn:Es; [discriminate|].
    destruct (az_upper x) eqn:Ex; [|discriminate].
    unfold RPlus in H. cbn [rmatch c_rest step] in H.
    destruct (rep_inv _ _ _ _ _ _ H) as (m & s' & Hm & Hall & Hk & Hp & Hg).
    eexists. split; [|exact Hk].
    unfold name_captures, set_group. cbn [c_groups]. constructor.
    + cbn [snd]. simpl in Hp. replace (c_pos s' - c_pos s) with (S m) by lia.
      exists x, (firstn m xs). repeat split; auto.
      intros E. apply (f_equal (@length ascii)) in E.
      rewrite firstn_length_le in E by lia. simpl in E. lia.
    + rewrite Hg. exact Hs.
  - destruct (xorb _ _); [eauto | discriminate].
  - destruct (c_prev s); [discriminate | eauto].
  - destruct (c_rest s) as [|x [|y xs]]; [eauto | | discriminate].
    destruct (is_nl x); [eauto | discriminate].
Qed.

Lemma name_groups_RLit (w : text) : name_groups (RLit w).
Proof.
  induction w as [|c w IH]; [constructor|].
  destruct w; [constructor|]. constructor; [constructor | exact IH].
Qed.

Lemma name_groups_RCat (rs : list regex) :
  Forall name_groups rs -> name_groups (RCat rs).
Proof.
  induction 1 as [|r rs Hr Hrs IH]; [constructor|].
  destruct rs; [exact Hr|]. constructor; [exact Hr | exact IH].
Qed.

Lemma name_patterns :
  Forall name_groups CLAIMANT_PATTERNS /\ Forall name_groups RESPONDENT_PATTERNS.
Proof.
  unfold CLAIMANT_PATTERNS, RESPONDENT_PATTERNS, ws0, ws1, lit, RStar, RPlus.
  split;
    repeat (constructor;
            [apply name_groups_RCat;
             repeat (constructor;
                     [first [apply name_groups_RLit | apply ng_name | constructor]|]);
             constructor|]);
    constructor.
Qed.

Lemma match_at_name_text (r : regex) pos prev l m :
  name_groups r -> match_at r pos prev l = Some m ->
  group1 m = [] \/ name_text (group1 m).
Proof.
  intros Hr. unfold match_at.
  destruct (rmatch r (Cursor pos prev l []) Some) as [e|] eqn:E; [|discriminate].
  intros H. injection H as <-.
  assert (H0 : name_captures (Cursor pos prev l [])) by constructor.
  destruct (rmatch_name_groups r Hr _ _ _ H0 E) as (s' & Hs' & Ek).
  injection Ek as ->. unfold group1. cbn [m_groups].
  unfold name_captures in Hs'.
  induction Hs' as [|[i g] gs Hg _ IH]; simpl; [left; reflexivity|].
  destruct (i =? 1); [right; exact Hg | exact IH].
Qed.

Lemma search_from_match (r : regex) (l : text) :
  forall pos prev m, search_from r pos prev l = Some m ->
    exists pos' prev' l', match_at r pos' prev' l' = Some m.
Proof.
  induction l as [|x l IH]; intros pos prev m H; simpl in H.
  - destruct (match_at r pos prev []) eqn:E; [|discriminate].
    injection H as <-. eauto.
  - destruct (match_at r pos prev (x :: l)) eqn:E.
    + injection H as <-. eauto.
    + eauto.
Qed.

Lemma accepted_name_text (p : regex) (s name : text) :
  name_groups p -> candidate p s = Some name -> valid_name name = true ->
  (exists c t, name = c :: t /\ az_upper c = true)
  /\ Forall (fun c => name_char c = true) name.
Proof.
  intros Hp Hc Hv. unfold candidate in Hc.
  destruct (re_search p s) as [m|] eqn:Em; [|discriminate].
  simpl in Hc. injection Hc as <-.
  apply search_from_match in Em. destruct Em as (pos & prev & l & Em).
  destruct (match_at_name_text p _ _ _ _ Hp Em) as [E|(c & w & E & Hc & _ & Hw)];
    rewrite E in *; [discriminate|].
  split.
  - assert (Hl : lstrip (c :: w) = c :: w).
    { simpl. replace (py_isspace c) with false; [reflexivity|].
      destruct c as [[] [] [] [] [] [] [] []]; vm_compute in Hc |- *;
        congruence. }
    unfold strip in *. rewrite Hl in *.
    destruct (rstrip_prefix (c :: w)) as [post Hpost].
    destruct (rstrip (c :: w)) as [|c' t]; [discriminate|].
    injection Hpost as <- _. eauto.
  - apply strip_Forall. constructor; [|exact Hw].
    unfold name_char. rewrite Hc. reflexivity.
Qed.

(** X23: a claimant or respondent name that [extract_case_info] returns
    is ["Unknown"] or a validated capture: it starts with a letter A-Z,
    and each of its characters is a letter A-Z, a dot or whitespace
    (which may be a tab or a newline inside the name). *)
Theorem X23_accepted_names (s : text) (key : string) (v : text) :
  key = "claimant_name" \/ key = "respondent_name" ->
  extract_case_info s !! key = Some v ->
  v = Unknown
  \/ (valid_name v = true
      /\ (exists c t, v = c :: t /\ az_upper c = true)
      /\ Forall (fun c => name_char c = true) v).
Proof.
  intros Hkey Hv.
  destruct (extract_case_info_names s) as [Hcl Hre].
  destruct name_patterns as [Pcl Pre].
  assert (Hloop : forall patterns,
            Forall name_groups patterns ->
            v = default Unknown (snd (name_loop patterns s 0)) ->
            v = Unknown
            \/ (valid_name v = true
                /\ (exists c t, v = c :: t /\ az_upper c = true)
                /\ Forall (fun c => name_char c = true) v)).
  { intros patterns HP E. pose proof (name_loop_spec patterns s 0) as Ho.
    unfold name_loop_outcome in Ho.
    destruct (snd (name_loop patterns s 0)) as [name|]; simpl in E;
      [|left; exact E].
    subst v. right. destruct Ho as (pre & p & post & -> & _ & Hc & Hval & _).
    split; [exact Hval|]. apply (accepted_name_text p s name); auto.
    apply Forall_app in HP. destruct HP as [_ HP]. inversion HP; assumption. }
  destruct Hkey as [-> | ->].
  - rewrite Hcl in Hv. injection Hv as <-. apply (Hloop _ Pcl eq_refl).
  - rewrite Hre in Hv. injection Hv as <-. apply (Hloop _ Pre eq_refl).
Qed.

Lemma X23_witness :
  str "JOHN DOE" = Unknown
  \/ (valid_name (str "JOHN DOE") = true
      /\ (exists c t, str "JOHN DOE" = c :: t /\ az_upper c = true)
      /\ Forall (fun c => name_char c = true) (str "JOHN DOE")).
Proof.
  apply (X23_accepted_names (str "DOCKET NO. 123,456
JOHN DOE VS. ACME CORP
") "claimant_name" (str "JOHN DOE")).
  - left. reflexivity.
  - vm_compute. reflexivity.
Defined.

(** ** section_processing.py: no two sections start at the same offset *)

Lemma scan_starts_sorted (r : regex) (l : text) :
  forall pos prev skip,
    StronglySorted lt (map m_start (matches_of (scan r pos prev skip l))).
Proof.
  assert (Hlow : forall l pos prev skip,
            Forall (fun n => pos <= n)
                   (map m_start (matches_of (scan r pos prev skip l)))).
  { intros l0 pos prev skip. apply List.Forall_forall. intros n Hn.
    apply in_map_iff in Hn. destruct Hn as (m & <- & Hm).
    unfold matches_of in Hm. apply in_flat_map in Hm.
    destruct Hm as ([c|m'] & Ht & Hm); simpl in Hm; [contradiction|].
    destruct Hm as [->|[]]. apply scan_match_start in Ht. lia. }
  induction l as [|x l IH]; intros pos prev skip.
  - destruct skip; simpl; [|constructor].
    destruct (match_at r pos prev []); simpl; repeat constructor.
  - destruct skip as [|j]; simpl; [|apply IH].
    destruct (match_at r pos prev (x :: l)) as [m|] eqn:E; simpl.
    + apply match_at_start in E. constructor.
      * destruct (length (m_text m)); simpl; apply IH.
      * rewrite E.
        assert (Hrest : forall j,
                  Forall (lt pos)
                    (map m_start (matches_of (scan r (S pos) (Some x) j l)))).
        { intros j. generalize (Hlow l (S pos) (Some x) j).
          apply List.Forall_impl. intros; lia. }
        destruct (length (m_text m)); simpl; apply Hrest.
    + apply IH.
Qed.

Lemma StronglySorted_lt_NoDup (l : list nat) : StronglySorted lt l -> NoDup l.
Proof.
  induction 1 as [|n l _ IH Hn]; constructor; [|exact IH].
  intros Hin. apply list_elem_of_In in Hin.
  apply (proj1 (List.Forall_forall _ _) Hn) in Hin. lia.
Qed.

Lemma positions_of_NoDup (combined_text : text) (r : regex) :
  NoDup (map fst (positions_of combined_text r)).
Proof.
  unfold positions_of. rewrite map_map. simpl.
  apply StronglySorted_lt_NoDup, scan_starts_sorted.
Qed.

Lemma positions_of_match (combined_text : text) (r : regex) (x : nat * text) :
  In x (positions_of combined_text r) ->
  exists prev m, match_at r (fst x) prev (skipn (fst x) combined_text) = Some m.
Proof.
  unfold positions_of, re_finditer. intros H. apply in_map_iff in H.
  destruct H as (m & <- & H). apply in_flat_map in H.
  destruct H as ([c|m'] & Ht & H); simpl in H; [contradiction|].
  destruct H as [->|[]].
  destruct (scan_match_context r combined_text [] 0 m Ht)
    as (before & l' & E & Hs & Hm).
  simpl in E. subst combined_text. simpl. rewrite Hs.
  rewrite skipn_app, Nat.sub_diag, skipn_all. simpl. eauto.
Qed.

Lemma occurrence_key (prev : option ascii) (l name : text) (a b : ascii)
    (rest : text) :
  heading_occurrence prev l name -> name = a :: b :: rest ->
  firstn 2 l = [a; b].
Proof. intros (after & -> & _) ->. reflexivity. Qed.

Lemma section_pattern_keys :
  Forall2 (fun r key =>
             forall pos prev l m,
               match_at r pos prev l = Some m -> firstn 2 l = key)
          SECTION_PATTERNS HEADING_KEYS.
Proof.
  unfold SECTION_PATTERNS, HEADING_KEYS, heading.
  repeat (constructor;
          [intros pos prev l m Hm;
           first [ apply match_at_heading in Hm; [|discriminate];
                   destruct Hm as [_ Ho];
                   exact (occurrence_key _ _ _ _ _ _ Ho eq_refl)
                 | apply match_at_heading_opt in Hm; [|discriminate];
                   destruct Hm as [[E|E] Ho]; rewrite E in Ho;
                   exact (occurrence_key _ _ _ _ _ _ Ho eq_refl) ]|]).
  constructor.
Qed.

Lemma positions_NoDup (combined_text : text) (patterns : list regex)
    (keys : list text) :
  Forall2 (fun r key =>
             forall pos prev l m,
               match_at r pos prev l = Some m -> firstn 2 l = key)
          patterns keys ->
  NoDup keys ->
  NoDup (map fst (flat_map (positions_of combined_text) patterns))
  /\ forall x, In x (flat_map (positions_of combined_text) patterns) ->
               In (firstn 2 (skipn (fst x) combined_text)) keys.
Proof.
  induction 1 as [|r key patterns keys Hr _ IH]; intros Hk.
  - split; [constructor | intros x []].
  - apply NoDup_cons in Hk. destruct Hk as [Hkey Hk].
    destruct (IH Hk) as [IH1 IH2]. simpl. split.
    + rewrite map_app. apply NoDup_app. split; [apply positions_of_NoDup|].
      split; [|exact IH1].
      intros n Hn1 Hn2. apply list_elem_of_In, in_map_iff in Hn1, Hn2.
      destruct Hn1 as (x & <- & Hx), Hn2 as (y & Ey & Hy).
      destruct (positions_of_match _ _ _ Hx) as (prev & m & Hm).
      apply Hr in Hm. apply IH2 in Hy. rewrite Ey, Hm in Hy.
      apply Hkey, list_elem_of_In, Hy.
    + intros x Hx. apply in_app_or in Hx. destruct Hx as [Hx|Hx].
      * destruct (positions_of_match _ _ _ Hx) as (prev & m & Hm).
        apply Hr in Hm. rewrite Hm. left. reflexivity.
      * right. apply IH2, Hx.
Qed.

Lemma find_positions_NoDup (combined_text : text) :
  NoDup (map fst (find_positions combined_text)).
Proof.
  apply (positions_NoDup combined_text SECTION_PATTERNS HEADING_KEYS
           section_pattern_keys).
  apply (bool_decide_unpack (NoDup HEADING_KEYS)). vm_compute. exact I.
Qed.

Lemma insert_by_pos_Permutation (x : nat * text) (l : list (nat * text)) :
  Permutation (insert_by_pos x l) (x :: l).
Proof.
  induction l as [|y l IH]; simpl; [reflexivity|].
  destruct (fst x <=? fst y); [reflexivity|].
  rewrite IH. apply perm_swap.
Qed.

Lemma sort_by_pos_Permutation (l : list (nat * text)) :
  Permutation (sort_by_pos l) l.
Proof.
  induction l as [|x l IH]; simpl; [reflexivity|].
  rewrite insert_by_pos_Permutation, IH. reflexivity.
Qed.

Lemma sorted_positions_strict (combined_text : text) (i j : nat)
    (a b : nat * text) :
  i < j ->
  sort_by_pos (find_positions combined_text) !! i = Some a ->
  sort_by_pos (find_positions combined_text) !! j = Some b ->
  fst a < fst b.
Proof.
  intros Hij Ha Hb.
  pose proof (sorted_lookup _ (sort_by_pos_sorted (find_positions combined_text))
                i j a b Hij Ha Hb) as Hle.
  assert (Hnd : NoDup (map fst (sort_by_pos (find_positions combined_text)))).
  { change (NoDup (fst <$> sort_by_pos (find_positions combined_text))).
    rewrite sort_by_pos_Permutation. apply find_positions_NoDup. }
  destruct (Nat.eq_dec (fst a) (fst b)) as [E|]; [|lia].
  exfalso. assert (i = j); [|lia].
  eapply (NoDup_lookup _ i j (fst a) Hnd).
  - change (map fst ?l) with (fst <$> l). rewrite list_lookup_fmap, Ha. reflexivity.
  - change (map fst ?l) with (fst <$> l). rewrite list_lookup_fmap, Hb, E.
    reflexivity.
Qed.


Lemma lstrip_snoc (s : text) (c : ascii) :
  py_isspace c = false -> exists p, lstrip (s ++ [c]) = p ++ [c].
Proof.
  intros Hc. induction s as [|x s IH]; simpl.
  - rewrite Hc. exists []. reflexivity.
  - destruct (py_isspace x); [exact IH|]. exists (x :: s). reflexivity.
Qed.

Lemma strip_cons (c : ascii) (s : text) :
  py_isspace c = false -> exists t, strip (c :: s) = c :: t.
Proof.
  intros Hc. unfold strip, rstrip. simpl lstrip. rewrite Hc. simpl rev.
  destruct (lstrip_snoc (rev s) c Hc) as [p ->].
  exists (rev p). rewrite rev_app_distr. reflexivity.
Qed.

Lemma headings_start :
  Forall (fun name => exists c rest, name = c :: rest /\ py_isspace c = false)
         HEADINGS.
Proof.
  unfold HEADINGS.
  repeat (constructor; [eexists; eexists; split; reflexivity|]).
  constructor.
Qed.

(** X24: the sections of [identify_sections] come in strictly increasing
    order of their start offsets: no two sections start at the same
    offset of the joined text, whatever the input (two patterns of
    [SECTION_PATTERNS] never match at the same place, since the texts
    they match differ in their first two letters). *)
Theorem X24_section_starts_increase (pages : list text) (i j : nat)
    (a b : section) :
  i < j ->
  identify_sections pages !! i = Some a ->
  identify_sections pages !! j = Some b ->
  sec_start a < sec_start b.
Proof.
  intros Hij Ha Hb.
  apply identify_sections_lookup in Ha, Hb.
  destruct Ha as (pa & na & Ha & ->), Hb as (pb & nb & Hb & ->).
  exact (sorted_positions_strict _ i j _ _ Hij Ha Hb).
Qed.

Lemma X24_witness :
  sec_start (str "ISSUES", str "ISSUES
1. Nature of injury.", 0, 0)
  < sec_start (str "AWARD", str "AWARD
Benefits are granted.", 1, 28).
Proof.
  apply (X24_section_starts_increase
           [str "ISSUES
1. Nature of injury."; str "AWARD
Benefits are granted."] 0 1).
  - lia.
  - vm_compute. reflexivity.
  - vm_compute. reflexivity.
Defined.

(** X25: the text of a section of [identify_sections] is never empty: it
    begins with the first letter of the section's name, that is, with the
    heading that opened the section. *)
Theorem X25_section_text_starts_with_heading (pages : list text) (s : section) :
  In s (identify_sections pages) ->
  exists c name_rest text_rest,
    sec_name s = c :: name_rest /\ sec_text s = c :: text_rest.
Proof.
  intros H. pose proof (identify_sections_position pages s H) as [Hpos _].
  apply find_positions_occurrence in Hpos.
  destruct Hpos as (Hin & before & after & E & Hlen & _).
  pose proof (proj1 (List.Forall_forall _ _) headings_start _ Hin)
    as (c & rest & Hname & Hc).
  apply list_elem_of_In, list_elem_of_lookup in H. destruct H as [i Hi].
  apply identify_sections_lookup in Hi.
  destruct Hi as (pos & name & Hp & ->).
  unfold sec_name, sec_text, sec_start in *. simpl in *. subst name pos.
  set (end_pos := match _ !! (i + 1) with Some _ => _ | None => _ end).
  assert (Hend : length before < end_pos).
  { unfold end_pos.
    destruct (sort_by_pos (find_positions (join [nl] pages)) !! (i + 1))
      as [next|] eqn:En.
    - apply (sorted_positions_strict _ i (i + 1) _ _ ltac:(lia) Hp En).
    - rewrite E, !length_app. simpl. lia. }
  unfold slice. rewrite E, skipn_app, Nat.sub_diag, skipn_all. simpl.
  destruct (end_pos - length before) as [|k] eqn:Ek; [lia|]. simpl.
  destruct (strip_cons c (firstn k (rest ++ after)) Hc) as [t Ht].
  exists c, rest, t. split; [reflexivity | exact Ht].
Qed.

Lemma X25_witness :
  exists c name_rest text_rest,
    str "AWARD" = c :: name_rest
    /\ str "AWARD
Benefits are granted." = c :: text_rest.
Proof.
  apply (X25_section_text_starts_with_heading
           [str "ISSUES
1. Nature of injury."; str "AWARD
Benefits are granted."]
           (str "AWARD", str "AWARD
Benefits are granted.", 1, 28)).
  vm_compute. right. left. reflexivity.
Defined.
